(** * music-news-24h: the /api/news handler

    A shallow embedding of the serverless handler of the music news
    aggregator (feed normalisation, time window, de-duplication, keyword
    genre classification, cached and bounded translation, response
    assembly) together with the properties of its specification.

    Conventions of the embedding.
    - A JavaScript string is the list of its UTF-16 code units.
    - A JavaScript number is [NaN], an infinity, or a finite value, which is
      a rational ([Qc]).  Conversion from a string and every arithmetic
      operation round to the nearest binary64 value ([round64]); the sign of
      zero, which the handler cannot observe, is not kept.
    - [Map], [Set] and plain objects used as dictionaries are finite maps
      and sets.
    - Host facilities whose result depends on the engine (date parsing, ISO
      rendering, collation) or on its Unicode tables (case mapping) are the
      operations of a class. *)

From Stdlib Require Import ZArith QArith Qcanon Ascii String.
From stdpp Require Import gmap strings list sorting.

Local Open Scope Z_scope.

(* ===================================================================== *)
(** ** Strings *)
(* ===================================================================== *)

Definition jsstring := list N.

(** Code units of an ASCII literal. *)
Definition u (s : string) : jsstring :=
  map N_of_ascii (list_ascii_of_string s).

Definition is_empty (s : jsstring) : bool :=
  match s with [] => true | _ :: _ => false end.

(** [WhiteSpace] and [LineTerminator] of the language: what [trim], the
    regular-expression classes [\s] and [\S], and the number grammar use. *)
Definition is_ws (c : N) : bool :=
  ((c =? 9) || (c =? 10) || (c =? 11) || (c =? 12) || (c =? 13) || (c =? 32)
   || (c =? 0xA0) || (c =? 0x1680) || ((0x2000 <=? c) && (c <=? 0x200A))
   || (c =? 0x2028) || (c =? 0x2029) || (c =? 0x202F) || (c =? 0x205F)
   || (c =? 0x3000) || (c =? 0xFEFF))%N.

Fixpoint trimStart (s : jsstring) : jsstring :=
  match s with
  | [] => []
  | c :: r => if is_ws c then trimStart r else s
  end.

Definition trimEnd (s : jsstring) : jsstring := rev (trimStart (rev s)).

Definition trim (s : jsstring) : jsstring := trimEnd (trimStart s).

Definition is_upper (c : N) : bool := ((65 <=? c) && (c <=? 90))%N.
Definition is_lower (c : N) : bool := ((97 <=? c) && (c <=? 122))%N.

(** Case mapping of one code unit among the letters A-Z and a-z; every other
    code unit is left as it is. *)
Definition lower_unit (c : N) : N := if is_upper c then (c + 32)%N else c.

Definition upper_unit (c : N) : N := if is_lower c then (c - 32)%N else c.

(** The code units that every engine maps by [lower_unit] and [upper_unit],
    whatever surrounds them: ASCII, and kana and the unified ideographs,
    which have no case. *)
Definition plain (c : N) : bool :=
  ((c <? 128) || ((0x3040 <=? c) && (c <=? 0x30FF))
   || ((0x4E00 <=? c) && (c <=? 0x9FFF)))%N.

Fixpoint startsWith (p s : jsstring) : bool :=
  match p, s with
  | [], _ => true
  | _ :: _, [] => false
  | a :: p', b :: s' => (a =? b)%N && startsWith p' s'
  end.

(** [s.includes(kw)] *)
Fixpoint includes (s kw : jsstring) : bool :=
  startsWith kw s ||
  match s with
  | [] => false
  | _ :: r => includes r kw
  end.

(** [s.slice(0, n)] *)
Definition slice0 (n : nat) (s : jsstring) : jsstring := take n s.

Global Arguments slice0 : simpl never.

(** [s.replace(/\s+/g, " ")]: [in_run] tells that the previous code unit
    was white space and has already produced its single space. *)
Fixpoint collapse_ws (in_run : bool) (s : jsstring) : jsstring :=
  match s with
  | [] => []
  | c :: r =>
      if is_ws c
      then (if in_run then collapse_ws true r else 32%N :: collapse_ws true r)
      else c :: collapse_ws false r
  end.

(** [xs.join(sep)] *)
Fixpoint join (sep : jsstring) (xs : list jsstring) : jsstring :=
  match xs with
  | [] => []
  | [x] => x
  | x :: r => x ++ sep ++ join sep r
  end.

(** A value that is a string, [undefined] or [null]. *)
Definition truthy (o : option jsstring) : bool :=
  match o with
  | Some (_ :: _) => true
  | _ => false
  end.

(** [a || b] on such values. *)
Definition or_else (a b : option jsstring) : option jsstring :=
  if truthy a then a else b.

(** [(a || "")] *)
Definition or_empty (a : option jsstring) : jsstring :=
  match a with
  | Some s => s
  | None => []
  end.

(* ===================================================================== *)
(** ** Numbers *)
(* ===================================================================== *)

Inductive jsnum :=
| NaN
| NegInf
| PosInf
| Fin (q : Qc).

Definition ofZ (z : Z) : Qc := Q2Qc (inject_Z z).

(** [a < b]; false as soon as one side is [NaN]. *)
Definition num_ltb (a b : jsnum) : bool :=
  match a, b with
  | NaN, _ | _, NaN => false
  | _, NegInf => false
  | NegInf, _ => true
  | PosInf, _ => false
  | Fin _, PosInf => true
  | Fin p, Fin q => bool_decide (p < q)%Qc
  end.

Definition Math_min (a b : jsnum) : jsnum :=
  match a, b with
  | NaN, _ | _, NaN => NaN
  | _, _ => if num_ltb b a then b else a
  end.

Definition Math_max (a b : jsnum) : jsnum :=
  match a, b with
  | NaN, _ | _, NaN => NaN
  | _, _ => if num_ltb a b then b else a
  end.

(** The integer nearest to [a / b], for [0 < b]; a tie goes to the even
    one. *)
Definition round_half_even (a b : Z) : Z :=
  let fl := a / b in
  match 2 * (a mod b) ?= b with
  | Lt => fl
  | Gt => fl + 1
  | Eq => if Z.even fl then fl else fl + 1
  end.

(** [floor (log2 (n / d))], for [0 < n] and [0 < d]. *)
Definition ilog2 (n d : Z) : Z :=
  let k := Z.log2 n - Z.log2 d in
  if (if 0 <=? k then d * 2 ^ k <=? n else d <=? n * 2 ^ (- k)) then k
  else k - 1.

(** The binary64 value nearest to [n / d], for [0 < n] and [0 < d]: a
    significand of 53 bits at the exponent of the value, or at the least
    exponent for a subnormal; what reaches [2^1024] is infinite. *)
Definition round64_pos (n d : Z) : jsnum :=
  let e := Z.max (ilog2 n d - 52) (-1074) in
  if 0 <=? e then
    let v := round_half_even n (d * 2 ^ e) * 2 ^ e in
    if 2 ^ 1024 <=? v then PosInf else Fin (ofZ v)
  else
    Fin (Q2Qc (Qred (Qmake (round_half_even (n * 2 ^ (- e)) d)
                       (Z.to_pos (2 ^ (- e)))))).

(** [-a] *)
Definition num_opp (a : jsnum) : jsnum :=
  match a with
  | NaN => NaN
  | NegInf => PosInf
  | PosInf => NegInf
  | Fin q => Fin (- q)%Qc
  end.

(** The binary64 value nearest to the rational [q]. *)
Definition round64 (q : Qc) : jsnum :=
  match Qnum q with
  | 0 => Fin (ofZ 0)
  | Zpos n => round64_pos (Zpos n) (Zpos (Qden q))
  | Zneg n => num_opp (round64_pos (Zpos n) (Zpos (Qden q)))
  end.

Definition sign_of (a : jsnum) : comparison :=
  match a with
  | NaN => Eq
  | NegInf => Lt
  | PosInf => Gt
  | Fin q => (q ?= 0)%Qc
  end.

(** [a * b] *)
Definition num_mul (a b : jsnum) : jsnum :=
  match a, b with
  | NaN, _ | _, NaN => NaN
  | Fin x, Fin y => round64 (x * y)%Qc
  | _, _ =>
      match sign_of a, sign_of b with
      | Eq, _ | _, Eq => NaN
      | Lt, Lt | Gt, Gt => PosInf
      | _, _ => NegInf
      end
  end.

(** [a - b] *)
Definition num_sub (a b : jsnum) : jsnum :=
  match a, b with
  | NaN, _ | _, NaN => NaN
  | Fin x, Fin y => round64 (x - y)%Qc
  | PosInf, PosInf | NegInf, NegInf => NaN
  | PosInf, _ | _, NegInf => PosInf
  | NegInf, _ | _, PosInf => NegInf
  end.

Definition digit_of (base : Z) (c : N) : option Z :=
  let d :=
    if ((48 <=? c) && (c <=? 57))%N then Some (Z.of_N c - 48)
    else if ((97 <=? c) && (c <=? 102))%N then Some (Z.of_N c - 87)
    else if ((65 <=? c) && (c <=? 70))%N then Some (Z.of_N c - 55)
    else None in
  match d with
  | Some v => if v <? base then Some v else None
  | None => None
  end.

(** Longest prefix of digits of [base]: its value (continuing from [acc]),
    the number of digits read, and the rest. *)
Fixpoint span_digits (base : Z) (acc : Z) (n : nat) (s : jsstring)
  : Z * nat * jsstring :=
  match s with
  | [] => (acc, n, [])
  | c :: r =>
      match digit_of base c with
      | Some d => span_digits base (base * acc + d) (S n) r
      | None => (acc, n, s)
      end
  end.

(** [m * 10^e] as an exact rational. *)
Definition scale10 (m e : Z) : Qc :=
  if 0 <=? e then ofZ (m * 10 ^ e)
  else Q2Qc (Qmake m (Z.to_pos (10 ^ (- e)))).

(** [NonDecimalIntegerLiteral] after its two-character prefix. *)
Definition nondecimal (base : Z) (s : jsstring) : jsnum :=
  match span_digits base 0 0 s with
  | (v, S _, []) => round64 (ofZ v)
  | _ => NaN
  end.

(** [ExponentPart], or nothing, up to the end of the string. *)
Definition exponent_part (s : jsstring) : option Z :=
  match s with
  | [] => Some 0
  | c :: r =>
      if ((c =? 101) || (c =? 69))%N then
        let '(neg, r') :=
          match r with
          | 43%N :: r' => (false, r')
          | 45%N :: r' => (true, r')
          | _ => (false, r)
          end in
        match span_digits 10 0 0 r' with
        | (v, S _, []) => Some (if neg then - v else v)
        | _ => None
        end
      else None
  end.

(** The mathematical value of a [StrUnsignedDecimalLiteral] other than
    [Infinity]. *)
Definition unsigned_decimal (s : jsstring) : option Qc :=
  let '(ip, ni, r1) := span_digits 10 0 0 s in
  let '(m, nf, r2) :=
    match r1 with
    | 46%N :: r => span_digits 10 ip 0 r
    | _ => (ip, 0%nat, r1)
    end in
  match (ni + nf)%nat with
  | O => None
  | S _ =>
      match exponent_part r2 with
      | Some e => Some (scale10 m (e - Z.of_nat nf))
      | None => None
      end
  end.

Definition str_decimal (s : jsstring) : jsnum :=
  let '(neg, body) :=
    match s with
    | 43%N :: r => (false, r)
    | 45%N :: r => (true, r)
    | _ => (false, s)
    end in
  if bool_decide (body = u "Infinity") then (if neg then NegInf else PosInf)
  else
    match unsigned_decimal body with
    | Some q => round64 (if neg then (- q)%Qc else q)
    | None => NaN
    end.

(** [Number(s)] for a string [s] ([StringToNumber]): the mathematical value
    of the literal, rounded.  (The language lets an engine cut a decimal
    literal after its twentieth significant digit; the engines in use round
    the value of the whole literal, as done here.) *)
Definition StringToNumber (s : jsstring) : jsnum :=
  match trim s with
  | [] => Fin (ofZ 0)
  | 48%N :: c :: r =>
      if ((c =? 120) || (c =? 88))%N then nondecimal 16 r
      else if ((c =? 111) || (c =? 79))%N then nondecimal 8 r
      else if ((c =? 98) || (c =? 66))%N then nondecimal 2 r
      else str_decimal (48%N :: c :: r)
  | t => str_decimal t
  end.

(* ===================================================================== *)
(** ** The request and the [hours] parameter *)
(* ===================================================================== *)

(** [req.query?.hours]: absent, one string, or an array of strings when the
    parameter is repeated. *)
Inductive qparam :=
| QAbsent
| QStr (s : jsstring)
| QArr (l : list jsstring).

(** [Number(req.query?.hours ?? 24)] *)
Definition Number_hours (q : qparam) : jsnum :=
  match q with
  | QAbsent => Fin (ofZ 24)
  | QStr s => StringToNumber s
  | QArr l => StringToNumber (join (u ",") l)
  end.

(** [Math.max(1, Math.min(72, Number(req.query?.hours ?? 24)))] *)
Definition hours_of (q : qparam) : jsnum :=
  Math_max (Fin (ofZ 1)) (Math_min (Fin (ofZ 72)) (Number_hours q)).

(** [Date.now() - hours * 60 * 60 * 1000]: three products and a difference,
    from left to right, each rounded. *)
Definition since_of (now : Z) (hours : jsnum) : jsnum :=
  num_sub (Fin (ofZ now))
    (num_mul (num_mul (num_mul hours (Fin (ofZ 60))) (Fin (ofZ 60)))
       (Fin (ofZ 1000))).


(* ===================================================================== *)
(** ** The host: dates, collation and case mapping *)
(* ===================================================================== *)

(** What the engine provides and the language does not pin down.
    - [Date_parse s] is the time value, in milliseconds since the epoch, of
      [new Date(s)], or [None] for an invalid date ([getTime()] is [NaN]).
    - [Date_toISOString ms] is [toISOString()] of the date with time value
      [ms].
    - [localeCompare a b] is the sign of [a.localeCompare(b)].
    - [toLowerCase s] and [toUpperCase s] are [s.toLowerCase()] and
      [s.toUpperCase()], which follow the Unicode tables of the engine.
      What every engine does is kept with them: a run of [plain] code units
      is mapped unit by unit wherever it stands in a string (the code units
      before and after it may change in number, as those of U+0130 do, and
      by what surrounds them, as a final sigma does). *)
Class Host := {
  Date_parse : jsstring -> option Z;
  Date_toISOString : Z -> jsstring;
  localeCompare : jsstring -> jsstring -> comparison;
  toLowerCase : jsstring -> jsstring;
  toUpperCase : jsstring -> jsstring;
  toLowerCase_plain :
    forall pre s post,
      forallb plain s = true ->
      exists pre' post',
        toLowerCase (pre ++ s ++ post) = pre' ++ map lower_unit s ++ post'
        /\ (pre = [] -> pre' = []) /\ (post = [] -> post' = []);
  toUpperCase_plain :
    forall pre s post,
      forallb plain s = true ->
      exists pre' post',
        toUpperCase (pre ++ s ++ post) = pre' ++ map upper_unit s ++ post'
        /\ (pre = [] -> pre' = []) /\ (post = [] -> post' = [])
}.

(** [localeCompare] is a consistent comparator: reversing the arguments
    reverses the sign, and "not after" is transitive. *)
Class HostLaws (H : Host) := {
  localeCompare_antisym :
    forall a b, localeCompare b a = CompOpp (localeCompare a b);
  localeCompare_trans :
    forall a b c,
      localeCompare a b <> Gt -> localeCompare b c <> Gt ->
      localeCompare a c <> Gt
}.


(* ===================================================================== *)
(** ** Genre rules and the classifier *)
(* ===================================================================== *)

Record GenreRule := { name : jsstring; keywords : list jsstring }.

(** The rule table, in its declared order.  Keywords that are not ASCII are
    given by their code units (katakana and kanji). *)
Definition GENRES : list GenreRule :=
  [ {| name := u "Techno";
       keywords := [u "techno"; [0x30C6; 0x30AF; 0x30CE]%N] |};
    {| name := u "House";
       keywords := [u "house"; [0x30CF; 0x30A6; 0x30B9]%N; u "deep house";
                    [0x30C7; 0x30A3; 0x30FC; 0x30D7; 0x30CF; 0x30A6; 0x30B9]%N] |};
    {| name := u "Drum & Bass";
       keywords := [u "drum & bass"; u "dnb"; u "drum and bass";
                    [0x30C9; 0x30E9; 0x30E0; 0x30F3; 0x30D9; 0x30FC; 0x30B9]%N] |};
    {| name := u "Dubstep";
       keywords := [u "dubstep";
                    [0x30C0; 0x30D6; 0x30B9; 0x30C6; 0x30C3; 0x30D7]%N] |};
    {| name := u "UK Garage";
       keywords := [u "ukg"; u "garage"; u "uk garage"; u "2-step"; u "2step";
                    [0x30AC; 0x30E9; 0x30FC; 0x30B8]%N;
                    [0x30C4; 0x30FC; 0x30B9; 0x30C6; 0x30C3; 0x30D7]%N] |};
    {| name := u "Ambient";
       keywords := [u "ambient";
                    [0x30A2; 0x30F3; 0x30D3; 0x30A8; 0x30F3; 0x30C8]%N] |};
    {| name := u "Experimental";
       keywords := [u "experimental"; u "avant";
                    [0x30A2; 0x30F4; 0x30A1; 0x30F3]%N; [0x5B9F; 0x9A13]%N;
                    u "noise"; [0x30CE; 0x30A4; 0x30BA]%N] |};
    {| name := u "Hip-Hop";
       keywords := [u "hip-hop"; u "hip hop"; u "rap";
                    [0x30E9; 0x30C3; 0x30D7]%N;
                    [0x30D2; 0x30C3; 0x30D7; 0x30DB; 0x30C3; 0x30D7]%N] |};
    {| name := u "Metal";
       keywords := [u "metal"; u "hardcore";
                    [0x30CF; 0x30FC; 0x30C9; 0x30B3; 0x30A2]%N;
                    [0x30E1; 0x30BF; 0x30EB]%N] |};
    {| name := u "Rock";
       keywords := [u "rock"; u "indie"; u "punk";
                    [0x30ED; 0x30C3; 0x30AF]%N; [0x30D1; 0x30F3; 0x30AF]%N] |};
    {| name := u "Pop";
       keywords := [u "pop"; [0x30A2; 0x30A4; 0x30C9; 0x30EB]%N;
                    [0x30B7; 0x30F3; 0x30B0; 0x30EB]%N; u "mv";
                    u "music video"] |};
    {| name := u "Japan";
       keywords := [[0x65E5; 0x672C]%N; [0x6771; 0x4EAC]%N;
                    [0x6E0B; 0x8C37]%N; u "j-pop"; [0x90A6; 0x697D]%N] |} ].

(** The inner loop of [pickGenre]: does some keyword of the rule, lower-cased,
    occur in [text]? *)
Fixpoint scan_keywords `{host : Host}
    (text : jsstring) (kws : list jsstring) : bool :=
  match kws with
  | [] => false
  | kw :: rest =>
      if includes text (toLowerCase kw) then true else scan_keywords text rest
  end.

(** The outer loop: the name of the first rule one of whose keywords occurs. *)
Fixpoint scan_rules `{host : Host} (text : jsstring) (rules : list GenreRule)
  : option jsstring :=
  match rules with
  | [] => None
  | g :: rest =>
      if scan_keywords text (keywords g) then Some (name g)
      else scan_rules text rest
  end.

(** [pickGenre({ title, source, fallback })] *)
Definition pickGenre `{host : Host}
    (title source fallback : jsstring) : jsstring :=
  let text := toLowerCase (title ++ u " " ++ source) in
  match scan_rules text GENRES with
  | Some g => g
  | None => if is_empty fallback then u "Other" else fallback
  end.
(* ===================================================================== *)
(** ** Feed descriptors, raw entries, items *)
(* ===================================================================== *)

Record FeedDescriptor := {
  f_source : jsstring;
  f_url : jsstring;
  defaultGenre : jsstring
}.

(** The fields of a parsed feed entry that the handler reads; [None] is an
    absent field. *)
Record RawEntry := {
  isoDate : option jsstring;
  pubDate : option jsstring;
  published : option jsstring;
  updated : option jsstring;
  r_title : option jsstring;
  link : option jsstring;
  guid : option jsstring;
  contentSnippet : option jsstring;
  r_summary : option jsstring
}.

(** The item object.  [publishedAt] and [summary] are a string or [null];
    [ja] is [None] while the object has no [titleJa] and [summaryJa]
    properties and [Some (titleJa, summaryJa)] once both have been assigned
    (each a string or [null]). *)
Record Item := {
  id : jsstring;
  title : jsstring;
  url : jsstring;
  source : jsstring;
  publishedAt : option jsstring;
  summary : option jsstring;
  _fallbackGenre : jsstring;
  ja : option (option jsstring * option jsstring)
}.

Definition set_ja (v : option jsstring * option jsstring) (it : Item) : Item :=
  {| id := id it; title := title it; url := url it; source := source it;
     publishedAt := publishedAt it; summary := summary it;
     _fallbackGenre := _fallbackGenre it; ja := Some v |}.

(** The outcome of [parser.parseURL(f.url)]: rejected, or a feed whose
    [items] may be missing. *)
Inductive FetchOutcome :=
| FetchFailed
| Fetched (items : option (list RawEntry)).

Section WithHost.
Context `{host : Host}.

(** [toIso(d)] for a string [d]. *)
Definition toIso (d : jsstring) : option jsstring :=
  match Date_parse d with
  | Some ms => Some (Date_toISOString ms)
  | None => None
  end.

(** [it.isoDate || it.pubDate || it.published || it.updated] *)
Definition publishedRaw (it : RawEntry) : option jsstring :=
  or_else (or_else (or_else (isoDate it) (pubDate it)) (published it))
          (updated it).

(** [publishedRaw ? new Date(publishedRaw).getTime() : NaN]; [None] is
    [NaN]. *)
Definition publishedMs (it : RawEntry) : option Z :=
  let raw := publishedRaw it in
  if truthy raw then Date_parse (or_empty raw) else None.

(** The [summary] expression of the item literal. *)
Definition summary_of (it : RawEntry) : option jsstring :=
  let s := or_empty (or_else (or_else (contentSnippet it) (r_summary it))
                             (Some [])) in
  let s := slice0 240 (trim (collapse_ws false s)) in
  if is_empty s then None else Some s.

(** One turn of the loop over [feed.items]: [None] when the entry is skipped
    by one of the two [continue]s, the pushed item otherwise. *)
Definition normalize (f : FeedDescriptor) (since : jsnum) (it : RawEntry)
  : option Item :=
  match publishedMs it with
  | None => None
  | Some ms =>
      if num_ltb (Fin (ofZ ms)) since then None
      else
        let title := trim (or_empty (or_else (r_title it) (Some []))) in
        let url := trim (or_empty (or_else (or_else (link it) (guid it))
                                           (Some []))) in
        if is_empty title || is_empty url then None
        else
          Some {| id := f_source f ++ u "::" ++ url;
                  title := title;
                  url := url;
                  source := f_source f;
                  publishedAt := toIso (or_empty (publishedRaw it));
                  summary := summary_of it;
                  _fallbackGenre := defaultGenre f;
                  ja := None |}
  end.

(** What one feed callback pushes onto [allItems]; a rejected fetch is caught
    in the callback and pushes nothing. *)
Definition feed_items (since : jsnum) (fo : FeedDescriptor * FetchOutcome)
  : list Item :=
  match fo.2 with
  | FetchFailed => []
  | Fetched None => []
  | Fetched (Some items) => omap (normalize fo.1 since) items
  end.

(** [allItems] once every callback has settled.  The callbacks push their
    items without interleaving, in the order in which the fetches complete;
    [settled] lists the feeds in that order. *)
Definition collect (since : jsnum) (settled : list (FeedDescriptor * FetchOutcome))
  : list Item :=
  concat (map (feed_items since) settled).

(** The comparator of the sort:
    [(b.publishedAt || "").localeCompare(a.publishedAt || "")]. *)
Definition byPublishedDesc (a b : Item) : comparison :=
  localeCompare (or_empty (or_else (publishedAt b) (Some [])))
                (or_empty (or_else (publishedAt a) (Some []))).

End WithHost.

(** [Array.prototype.sort] with a comparator: a stable sort.  [cmp a b = Gt]
    says that [a] goes after [b]. *)
Fixpoint sort_insert {A} (cmp : A -> A -> comparison) (x : A) (l : list A)
  : list A :=
  match l with
  | [] => [x]
  | y :: r =>
      match cmp x y with
      | Gt => y :: sort_insert cmp x r
      | _ => x :: l
      end
  end.

Fixpoint Array_sort {A} (cmp : A -> A -> comparison) (l : list A) : list A :=
  match l with
  | [] => []
  | x :: r => sort_insert cmp x (Array_sort cmp r)
  end.

(** The de-duplication loop; [seen] is the [Set] of urls met so far. *)
Fixpoint dedupe_loop (seen : gset jsstring) (items : list Item) : list Item :=
  match items with
  | [] => []
  | item :: rest =>
      let key := url item in
      if decide (key ∈ seen) then dedupe_loop seen rest
      else item :: dedupe_loop ({[ key ]} ∪ seen) rest
  end.

Definition dedupe (items : list Item) : list Item := dedupe_loop ∅ items.

(* ===================================================================== *)
(** ** Translation: eligibility, cache, provider *)
(* ===================================================================== *)

Definition is_letter (c : N) : bool := is_upper c || is_lower c.

Definition count_if (p : N -> bool) (s : jsstring) : N :=
  N.of_nat (length (List.filter p s)).

(** [looksEnglish(text)]: [letters / nonSpace > 0.45], with [nonSpace]
    replaced by 1 when it is 0.  Both counts are bounded by the length of a
    string (below 2^30); for such integers the binary64 quotient exceeds the
    binary64 constant 0.45 exactly when [100 * letters > 45 * nonSpace]. *)
Definition looksEnglish (text : jsstring) : bool :=
  let letters := count_if is_letter text in
  let nonSpace :=
    match count_if (fun c => negb (is_ws c)) text with
    | 0%N => 1%N
    | n => n
    end in
  (45 * nonSpace <? 100 * letters)%N.

(** A value of [tlCache]: [{ t, v: { titleJa, summaryJa } }]. *)
Record CacheEntry := {
  c_t : Z;
  c_titleJa : option jsstring;
  c_summaryJa : option jsstring
}.

Definition TL_TTL_MS : Z := 6 * 60 * 60 * 1000.

Definition TRANSLATE_LIMIT : nat := 40.

(** What the translation endpoint does with a call: the request fails (or
    answers with an error status, or with a body that cannot be read), or it
    answers with the list of the [text] fields of its translations, each a
    string or missing. *)
Inductive ProviderOutcome :=
| ProviderThrows
| ProviderReturns (out : list (option jsstring)).

Inductive CallResult :=
| ReturnsNull
| Throws
| Returns (out : list (option jsstring)).

Definition is_nil {A} (l : list A) : bool :=
  match l with [] => true | _ :: _ => false end.

(** [deeplTranslateToJA(texts)]: the result, and the calls made to the
    provider (none or one). *)
Definition deeplTranslateToJA (key : bool)
    (provider : list jsstring -> ProviderOutcome) (texts : list jsstring)
  : CallResult * list (list jsstring) :=
  if negb key || is_nil texts then (ReturnsNull, [])
  else
    match provider texts with
    | ProviderThrows => (Throws, [texts])
    | ProviderReturns out => (Returns out, [texts])
    end.

(** Positions in [l], counted from [i], of the elements that satisfy [p]:
    [deduped.filter(...)] keeps references to the item objects, which the
    stage then mutates; a target is the position of its object in
    [deduped]. *)
Fixpoint positions {A} (p : A -> bool) (i : nat) (l : list A) : list nat :=
  match l with
  | [] => []
  | x :: r => if p x then i :: positions p (S i) r else positions p (S i) r
  end.

Definition targets (deduped : list Item) : list nat :=
  positions (fun it => looksEnglish (title it)) 0 deduped.

Definition limitedTargets (deduped : list Item) : list nat :=
  take TRANSLATE_LIMIT (targets deduped).

(** [`${t.title}|||${t.summary || ""}`] *)
Definition cacheKey (t : Item) : jsstring :=
  title t ++ u "|||" ++ or_empty (or_else (summary t) (Some [])).

(** [hit && now - hit.t < TL_TTL_MS]: the entry under [key] when there is
    one and it has not expired. *)
Definition live_entry (tlCache : gmap jsstring CacheEntry) (now : Z)
    (key : jsstring) : option CacheEntry :=
  match tlCache !! key with
  | Some hit => if now - c_t hit <? TL_TTL_MS then Some hit else None
  | None => None
  end.

(** The two texts submitted for an item: its title and its summary cut to
    400 units. *)
Definition texts_of (t : Item) : list jsstring :=
  [title t; slice0 400 (or_empty (or_else (summary t) (Some [])))].

(** State of the first loop: the item objects, [need] and [index]. *)
Record Scan := {
  sc_items : list Item;
  need : list jsstring;
  index : list (nat * jsstring)
}.

(** The loop over [limitedTargets], from its [i]-th element on. *)
Fixpoint scan_cache (tlCache : gmap jsstring CacheEntry) (now : Z) (i : nat)
    (lt : list nat) (st : Scan) : Scan :=
  match lt with
  | [] => st
  | p :: rest =>
      match sc_items st !! p with
      | None => scan_cache tlCache now (S i) rest st
      | Some t =>
          let key := cacheKey t in
          match live_entry tlCache now key with
          | Some hit =>
              scan_cache tlCache now (S i) rest
                {| sc_items :=
                     alter (set_ja (c_titleJa hit, c_summaryJa hit)) p
                           (sc_items st);
                   need := need st;
                   index := index st |}
          | None =>
              scan_cache tlCache now (S i) rest
                {| sc_items := sc_items st;
                   need := need st ++ texts_of t;
                   index := index st ++ [(i, key)] |}
          end
      end
  end.

(** [out[j] || null] *)
Definition out_or_null (out : list (option jsstring)) (j : nat)
  : option jsstring :=
  match out !! j with
  | Some (Some (c :: s)) => Some (c :: s)
  | _ => None
  end.

(** The write-back loop over [index], from its [k]-th element on. *)
Fixpoint write_back (now : Z) (out : list (option jsstring)) (lt : list nat)
    (k : nat) (idx : list (nat * jsstring))
    (items : list Item) (tlCache : gmap jsstring CacheEntry)
  : list Item * gmap jsstring CacheEntry :=
  match idx with
  | [] => (items, tlCache)
  | (i, key) :: rest =>
      let titleJa := out_or_null out (k * 2) in
      let summaryJa := out_or_null out (k * 2 + 1) in
      let items' :=
        match lt !! i with
        | Some p => alter (set_ja (titleJa, summaryJa)) p items
        | None => items
        end in
      write_back now out lt (S k) rest items'
        (<[ key := {| c_t := now; c_titleJa := titleJa;
                      c_summaryJa := summaryJa |} ]> tlCache)
  end.

Record Translated := {
  tr_items : list Item;
  tr_cache : gmap jsstring CacheEntry;
  tr_calls : list (list jsstring)
}.

(** The translation block of the handler with its [try]/[catch]: whatever
    the provider does, the block completes; assignments made before a throw
    stay. *)
Definition translate (key : bool) (provider : list jsstring -> ProviderOutcome)
    (now : Z) (tlCache : gmap jsstring CacheEntry) (deduped : list Item)
  : Translated :=
  let lt := limitedTargets deduped in
  let st := scan_cache tlCache now 0 lt
              {| sc_items := deduped; need := []; index := [] |} in
  if negb (is_nil (need st)) && key then
    match deeplTranslateToJA key provider (need st) with
    | (Returns (o :: out), calls) =>
        let '(items, cache) :=
          write_back now (o :: out) lt 0 (index st) (sc_items st) tlCache in
        {| tr_items := items; tr_cache := cache; tr_calls := calls |}
    | (_, calls) =>
        {| tr_items := sc_items st; tr_cache := tlCache; tr_calls := calls |}
    end
  else {| tr_items := sc_items st; tr_cache := tlCache; tr_calls := [] |}.

(* ===================================================================== *)
(** ** Feed sources: the CSV table *)
(* ===================================================================== *)

Definition FEEDS_FALLBACK : list FeedDescriptor :=
  [ {| f_source := u "Pitchfork (News)";
       f_url := u "https://pitchfork.com/feed/feed-news/rss";
       defaultGenre := u "Pop" |};
    {| f_source := u "Pitchfork (Album Reviews)";
       f_url := u "https://pitchfork.com/feed/feed-album-reviews/rss";
       defaultGenre := u "Pop" |};
    {| f_source := u "Mixmag";
       f_url := u "https://mixmag.net/rss.xml";
       defaultGenre := u "Techno" |};
    {| f_source := u "The Quietus";
       f_url := u "https://thequietus.com/feed";
       defaultGenre := u "Experimental" |};
    {| f_source := u "Stereogum";
       f_url := u "https://www.stereogum.com/feed";
       defaultGenre := u "Rock" |};
    {| f_source := u "Consequence";
       f_url := u "http://consequenceofsound.net/feed";
       defaultGenre := u "Rock" |};
    {| f_source := u "EDM.com";
       f_url := u "https://edm.com/.rss/full/";
       defaultGenre := u "House" |};
    {| f_source := [0x97F3; 0x697D; 0x30CA; 0x30BF; 0x30EA; 0x30FC]%N;
       f_url := u "http://natalie.mu/music/feed/news";
       defaultGenre := u "Japan" |} ].

(** State of the scanning loop of [parseCsv]. *)
Record CsvScan := {
  cs_rows : list (list jsstring);
  cs_row : list jsstring;
  cs_cell : jsstring;
  inQuotes : bool
}.

(** The [while] loop of [parseCsv] over the remaining text. *)
Fixpoint csv_scan (text : jsstring) (st : CsvScan) : CsvScan :=
  match text with
  | [] => st
  | ch :: rest =>
      if inQuotes st then
        if (ch =? 34)%N then
          match rest with
          | 34%N :: rest' =>
              csv_scan rest'
                {| cs_rows := cs_rows st; cs_row := cs_row st;
                   cs_cell := cs_cell st ++ [34%N]; inQuotes := true |}
          | _ =>
              csv_scan rest
                {| cs_rows := cs_rows st; cs_row := cs_row st;
                   cs_cell := cs_cell st; inQuotes := false |}
          end
        else
          csv_scan rest
            {| cs_rows := cs_rows st; cs_row := cs_row st;
               cs_cell := cs_cell st ++ [ch]; inQuotes := true |}
      else if (ch =? 34)%N then
        csv_scan rest
          {| cs_rows := cs_rows st; cs_row := cs_row st;
             cs_cell := cs_cell st; inQuotes := true |}
      else if (ch =? 44)%N then
        csv_scan rest
          {| cs_rows := cs_rows st; cs_row := cs_row st ++ [cs_cell st];
             cs_cell := []; inQuotes := false |}
      else if (ch =? 10)%N then
        csv_scan rest
          {| cs_rows := cs_rows st ++ [cs_row st ++ [cs_cell st]];
             cs_row := []; cs_cell := []; inQuotes := false |}
      else if (ch =? 13)%N then csv_scan rest st
      else
        csv_scan rest
          {| cs_rows := cs_rows st; cs_row := cs_row st;
             cs_cell := cs_cell st ++ [ch]; inQuotes := false |}
  end.

(** [obj[h] = v] on a plain object whose values are strings.  Under the
    name [__proto__] the assignment reaches the accessor inherited from
    [Object.prototype], which ignores a string: no property is created. *)
Definition assign (h v : jsstring) (obj : gmap jsstring jsstring)
  : gmap jsstring jsstring :=
  if bool_decide (h = u "__proto__") then obj else <[ h := v ]> obj.

(** The object built for one data row: [obj[header[c]] = (cols[c] ?? "").trim()]
    for the columns [c], [c+1], ... of the header. *)
Fixpoint row_object (header : list jsstring) (c : nat) (cols : list jsstring)
    (obj : gmap jsstring jsstring) : gmap jsstring jsstring :=
  match header with
  | [] => obj
  | h :: rest =>
      row_object rest (S c) cols
        (assign h (trim (default [] (cols !! c))) obj)
  end.

(** [parseCsv(text)] *)
Definition parseCsv (text : jsstring) : list (gmap jsstring jsstring) :=
  let st := csv_scan text
              {| cs_rows := []; cs_row := []; cs_cell := [];
                 inQuotes := false |} in
  let rows :=
    if negb (is_nil (cs_cell st)) || negb (is_nil (cs_row st))
    then cs_rows st ++ [cs_row st ++ [cs_cell st]]
    else cs_rows st in
  match rows with
  | [] => []
  | row0 :: data =>
      let header := map trim row0 in
      map (fun cols => row_object header 0 cols ∅)
          (List.filter
             (fun cols => existsb (fun c => negb (is_empty (trim c))) cols)
             data)
  end.

(** The first [filter] of [loadFeeds]:
    [String(r.enabled ?? "").trim().toUpperCase() !== "FALSE"]. *)
Definition row_enabled `{host : Host} (r : gmap jsstring jsstring) : bool :=
  let enabled := toUpperCase (trim (default [] (r !! u "enabled"))) in
  negb (bool_decide (enabled = u "FALSE")).

(** The [map] of [loadFeeds]. *)
Definition row_feed (r : gmap jsstring jsstring) : FeedDescriptor :=
  {| f_source := trim (default [] (r !! u "source"));
     f_url := trim (default [] (r !! u "url"));
     defaultGenre :=
       let g := trim (default (u "Other") (r !! u "defaultGenre")) in
       if is_empty g then u "Other" else g |}.

(** The second [filter]: [f.source && f.url]. *)
Definition feed_usable (f : FeedDescriptor) : bool :=
  negb (is_empty (f_source f)) && negb (is_empty (f_url f)).

Definition feeds_of_rows `{host : Host} (rows : list (gmap jsstring jsstring))
  : list FeedDescriptor :=
  List.filter feed_usable (map row_feed (List.filter row_enabled rows)).

Record FeedsCache := { fc_at : Z; fc_feeds : list FeedDescriptor }.

Definition feedsCache0 : FeedsCache :=
  {| fc_at := 0; fc_feeds := FEEDS_FALLBACK |}.

Definition FEEDS_CACHE_MS : Z := 10 * 60 * 1000.

(** The outcome of fetching [FEEDS_CSV_URL]: the request fails, the status
    is not ok, or the body is read. *)
Inductive CsvOutcome :=
| CsvFails
| CsvNotOk
| CsvText (text : jsstring).

(** [loadFeeds()]: [csv_url] tells whether [FEEDS_CSV_URL] is set. *)
Definition loadFeeds `{host : Host}
    (now : Z) (csv_url : bool) (csv : CsvOutcome)
    (feedsCache : FeedsCache) : list FeedDescriptor * FeedsCache :=
  if now - fc_at feedsCache <? FEEDS_CACHE_MS
  then (fc_feeds feedsCache, feedsCache)
  else if negb csv_url
  then (FEEDS_FALLBACK, {| fc_at := now; fc_feeds := FEEDS_FALLBACK |})
  else
    match csv with
    | CsvText text =>
        let feeds := feeds_of_rows (parseCsv text) in
        let feeds := if is_nil feeds then FEEDS_FALLBACK else feeds in
        (feeds, {| fc_at := now; fc_feeds := feeds |})
    | _ => (FEEDS_FALLBACK, {| fc_at := now; fc_feeds := FEEDS_FALLBACK |})
    end.

(* ===================================================================== *)
(** ** Response assembly *)
(* ===================================================================== *)

(** An emitted object: its own properties in creation order, each a string
    or [null]. *)
Definition obj := list (jsstring * option jsstring).

(** The own properties of an item object: those of the literal pushed onto
    [allItems], then [titleJa] and [summaryJa] when they were assigned. *)
Definition props (it : Item) : obj :=
  [ (u "id", Some (id it));
    (u "title", Some (title it));
    (u "url", Some (url it));
    (u "source", Some (source it));
    (u "publishedAt", publishedAt it);
    (u "summary", summary it);
    (u "_fallbackGenre", Some (_fallbackGenre it)) ]
  ++ match ja it with
     | None => []
     | Some (t, s) => [ (u "titleJa", t); (u "summaryJa", s) ]
     end.

(** [const { [k]: _, ...rest } = o] *)
Definition rest_without (k : jsstring) (o : obj) : obj :=
  List.filter (fun p => negb (bool_decide (p.1 = k))) o.

(** [const { _fallbackGenre, ...clean } = it] *)
Definition clean (it : Item) : obj := rest_without (u "_fallbackGenre") (props it).

Definition get (k : jsstring) (o : obj) : option (option jsstring) :=
  snd <$> List.find (fun p => bool_decide (p.1 = k)) o.

(** The property names that [genres = {}] inherits from [Object.prototype];
    each is truthy and none has a [push] method. *)
Definition Object_prototype_keys : list jsstring :=
  map u [ "constructor"; "__proto__"; "hasOwnProperty"; "isPrototypeOf";
          "propertyIsEnumerable"; "toLocaleString"; "toString"; "valueOf";
          "__defineGetter__"; "__defineSetter__"; "__lookupGetter__";
          "__lookupSetter__" ]%string.

(** One turn of the grouping loop; [None] when [genres[g].push] throws
    because [genres[g]] is an inherited property. *)
Definition group_step `{host : Host}
    (genres : gmap jsstring (list obj)) (it : Item)
  : option (gmap jsstring (list obj)) :=
  let g := pickGenre (title it) (source it) (_fallbackGenre it) in
  match genres !! g with
  | Some l => Some (<[ g := l ++ [clean it] ]> genres)
  | None =>
      if bool_decide (g ∈ Object_prototype_keys) then None
      else Some (<[ g := [clean it] ]> genres)
  end.

Fixpoint group_loop `{host : Host}
    (genres : gmap jsstring (list obj)) (items : list Item)
  : option (gmap jsstring (list obj)) :=
  match items with
  | [] => Some genres
  | it :: rest =>
      match group_step genres it with
      | Some genres' => group_loop genres' rest
      | None => None
      end
  end.

(** The document passed to [res.status(200).json]. *)
Record ResponseDoc := {
  generatedAt : jsstring;
  hours : jsnum;
  feedCount : nat;
  totalItems : nat;
  feedsLoaded : list FeedDescriptor;
  genres : gmap jsstring (list obj)
}.

(** The property names of that object literal, in order. *)
Definition doc_keys (d : ResponseDoc) : list jsstring :=
  map u [ "generatedAt"; "hours"; "feedCount"; "totalItems"; "feedsLoaded";
          "genres" ]%string.

Inductive Response :=
| R200 (doc : ResponseDoc)
| R500.

(* ===================================================================== *)
(** ** The handler *)
(* ===================================================================== *)

(** What one request meets outside the handler: the clock at its readings
    (start, [loadFeeds], translation, response), the configuration, and the
    outcome of each input or output operation.  [settle FEEDS] pairs every
    feed with the outcome of its fetch, in the order in which the fetches
    complete (see [Settles]). *)
Record Env := {
  now_req : Z;
  now_feeds : Z;
  now_tl : Z;
  now_resp : Z;
  FEEDS_CSV_URL : bool;
  csv : CsvOutcome;
  settle : list FeedDescriptor -> list (FeedDescriptor * FetchOutcome);
  DEEPL_AUTH_KEY : bool;
  provider : list jsstring -> ProviderOutcome
}.

(** Every configured feed settles, once. *)
Definition Settles (env : Env) : Prop :=
  forall feeds, Permutation (map fst (settle env feeds)) feeds.

(** The state that outlives a request. *)
Record State := {
  feedsCache : FeedsCache;
  tlCache : gmap jsstring CacheEntry
}.

Section Handler.
Context `{host : Host}.

(** The pipeline up to de-duplication. *)
Definition deduped_of (hours : jsnum) (now : Z)
    (settled : list (FeedDescriptor * FetchOutcome)) : list Item :=
  dedupe (Array_sort byPublishedDesc (collect (since_of now hours) settled)).

(** [handler(req, res)]: the response, the state left behind, and the calls
    made to the translation provider. *)
Definition handler (q : qparam) (env : Env) (st : State)
  : Response * State * list (list jsstring) :=
  let hours := hours_of q in
  let '(FEEDS, fc) :=
    loadFeeds (now_feeds env) (FEEDS_CSV_URL env) (csv env) (feedsCache st) in
  let deduped := deduped_of hours (now_req env) (settle env FEEDS) in
  let tr := translate (DEEPL_AUTH_KEY env) (provider env) (now_tl env)
                      (tlCache st) deduped in
  let st' := {| feedsCache := fc; tlCache := tr_cache tr |} in
  match group_loop ∅ (tr_items tr) with
  | Some genres =>
      (R200 {| generatedAt := Date_toISOString (now_resp env);
               hours := hours;
               feedCount := length FEEDS;
               totalItems := length deduped;
               feedsLoaded := FEEDS;
               genres := genres |},
       st', tr_calls tr)
  | None => (R500, st', tr_calls tr)
  end.

End Handler.

(* ===================================================================== *)
(** ** A host for ISO timestamps *)
(* ===================================================================== *)

(** An engine that reads the timestamps [toISOString] writes and no other
    format, that collates by code units, and whose case mapping knows the
    letters A-Z and a-z only.  It is the host of the worked examples, whose
    text is ASCII. *)
Module IsoHost.

(** Year, month and day of the day number [z] (days since 1970-01-01) in the
    proleptic Gregorian calendar. *)
Definition civil_from_days (z : Z) : Z * Z * Z :=
  let z := z + 719468 in
  let era := z / 146097 in
  let doe := z - era * 146097 in
  let yoe := (doe - doe / 1460 + doe / 36524 - doe / 146096) / 365 in
  let y := yoe + era * 400 in
  let doy := doe - (365 * yoe + yoe / 4 - yoe / 100) in
  let mp := (5 * doy + 2) / 153 in
  let d := doy - (153 * mp + 2) / 5 + 1 in
  let m := if mp <? 10 then mp + 3 else mp - 9 in
  (if m <=? 2 then y + 1 else y, m, d).

Definition days_from_civil (y m d : Z) : Z :=
  let y := if m <=? 2 then y - 1 else y in
  let era := y / 400 in
  let yoe := y - era * 400 in
  let doy := (153 * (if 2 <? m then m - 3 else m + 9) + 2) / 5 + d - 1 in
  let doe := yoe * 365 + yoe / 4 - yoe / 100 + doy in
  era * 146097 + doe - 719468.

(** The [n] low decimal digits of [v], most significant first. *)
Fixpoint digits (n : nat) (v : Z) : jsstring :=
  match n with
  | O => []
  | S n' => digits n' (v / 10) ++ [Z.to_N (48 + v mod 10)]
  end.

Definition toISOString (ms : Z) : jsstring :=
  let day := ms / 86400000 in
  let r := ms mod 86400000 in
  let '(y, m, d) := civil_from_days day in
  let year :=
    if (0 <=? y) && (y <=? 9999) then digits 4 y
    else (if y <? 0 then 45%N else 43%N) :: digits 6 (Z.abs y) in
  year ++ u "-" ++ digits 2 m ++ u "-" ++ digits 2 d ++ u "T"
  ++ digits 2 (r / 3600000) ++ u ":" ++ digits 2 (r / 60000 mod 60) ++ u ":"
  ++ digits 2 (r / 1000 mod 60) ++ u "." ++ digits 3 (r mod 1000) ++ u "Z".

Definition number (s : jsstring) : Z := (span_digits 10 0 0 s).1.1.

(** A 24-unit string is read field by field and accepted when it is the
    rendering of the instant so obtained. *)
Definition parse (s : jsstring) : option Z :=
  if bool_decide (length s = 24%nat) then
    let f (i n : nat) := number (take n (drop i s)) in
    let ms :=
      days_from_civil (f 0%nat 4%nat) (f 5%nat 2%nat) (f 8%nat 2%nat)
        * 86400000
      + f 11%nat 2%nat * 3600000 + f 14%nat 2%nat * 60000
      + f 17%nat 2%nat * 1000 + f 20%nat 3%nat in
    if bool_decide (toISOString ms = s) then Some ms else None
  else None.

(** Comparison of strings by code units. *)
Fixpoint compare_units (a b : jsstring) : comparison :=
  match a, b with
  | [], [] => Eq
  | [], _ :: _ => Lt
  | _ :: _, [] => Gt
  | x :: a', y :: b' =>
      match (x ?= y)%N with
      | Eq => compare_units a' b'
      | c => c
      end
  end.

(** Mapping unit by unit maps every run unit by unit. *)
Definition map_segment (f : N -> N) (pre s post : jsstring)
  : exists pre' post',
      map f (pre ++ s ++ post) = pre' ++ map f s ++ post'
      /\ (pre = [] -> pre' = []) /\ (post = [] -> post' = []) :=
  ex_intro _ (map f pre)
    (ex_intro _ (map f post)
       (conj (eq_trans (map_app f pre (s ++ post))
                (f_equal (app (map f pre)) (map_app f s post)))
          (conj (fun e => f_equal (map f) e) (fun e => f_equal (map f) e)))).

#[export] Instance host : Host := {|
  Date_parse := parse;
  Date_toISOString := toISOString;
  localeCompare := compare_units;
  toLowerCase := map lower_unit;
  toUpperCase := map upper_unit;
  toLowerCase_plain := fun pre s post _ => map_segment lower_unit pre s post;
  toUpperCase_plain := fun pre s post _ => map_segment upper_unit pre s post
|}.

End IsoHost.

(* ===================================================================== *)
(** ** Vocabulary of the properties *)
(* ===================================================================== *)

(** The clamp of [hours] on a finite argument. *)
Definition clampQ (x : Qc) : Qc :=
  if bool_decide (x < ofZ 1)%Qc then ofZ 1
  else if bool_decide (ofZ 72 < x)%Qc then ofZ 72 else x.

(** The time values of the language: at most 8.64e15 milliseconds from the
    epoch on either side, every one of them a binary64 value. *)
Definition time_value (now : Z) : Prop :=
  - 8640000000000000 <= now <= 8640000000000000.

(** [kw] occurs in [text] as a substring. *)
Definition occurs_in (kw text : jsstring) : Prop :=
  exists pre post, text = pre ++ kw ++ post.

(** Some keyword of rule [g] occurs in [text]. *)
Definition rule_matches `{host : Host}
    (text : jsstring) (g : GenreRule) : Prop :=
  exists kw, kw ∈ keywords g /\ occurs_in (toLowerCase kw) text.

(** A string of plain code units none of which is a capital letter. *)
Definition lower_plain (s : jsstring) : bool :=
  forallb (fun c => plain c && negb (is_upper c)) s.

(** [c] is the capital letter [upper] or its small form. *)
Definition same_letter (upper c : N) : Prop := c = upper \/ c = (upper + 32)%N.

(** [s] spells FALSE in any mix of capital and small letters. *)
Definition spells_FALSE (s : jsstring) : Prop :=
  Forall2 same_letter (u "FALSE") s.

(** The [enabled] cell of a row as [loadFeeds] reads it. *)
Definition enabled_cell (r : gmap jsstring jsstring) : jsstring :=
  trim (default [] (r !! u "enabled")).

(** A published table of three lines: the header, a row disabled with the
    small-letter spelling [false], and a row whose [enabled] cell is blank. *)
Definition csv_example : jsstring :=
  u "enabled,source,url,defaultGenre" ++ [10%N]
  ++ u "false,Feed A,http://a.example/rss,Pop" ++ [10%N]
  ++ u ",Feed B,http://b.example/rss,Rock" ++ [10%N].

(** The genre the handler assigns to an item. *)
Definition genre_of `{host : Host} (it : Item) : jsstring :=
  pickGenre (title it) (source it) (_fallbackGenre it).

(** The item without its translation properties. *)
Definition base (it : Item) : Item :=
  {| id := id it; title := title it; url := url it; source := source it;
     publishedAt := publishedAt it; summary := summary it;
     _fallbackGenre := _fallbackGenre it; ja := None |}.

(** [a] may stand before [b] in the order of the sort: the comparator does
    not put [a] after [b]. *)
Definition not_after {A} (cmp : A -> A -> comparison) (a b : A) : Prop :=
  cmp a b <> Gt.

(** The [publishedAt] of [b] is not after that of [a] in the collation
    order: [b] is not newer than [a]. *)
Definition not_newer `{Host} (b a : option jsstring) : Prop :=
  localeCompare (or_empty (or_else b (Some [])))
                (or_empty (or_else a (Some []))) <> Gt.

(** The items of genre [g], in order. *)
Definition items_of_genre `{host : Host}
    (g : jsstring) (items : list Item) : list Item :=
  List.filter (fun it => bool_decide (genre_of it = g)) items.

(** What the grouping loop leaves under one key: the list already there,
    extended by the new objects; no key is created for nothing. *)
Definition merge_group (old : option (list obj)) (new : list obj)
  : option (list obj) :=
  match old with
  | Some l => Some (l ++ new)
  | None => match new with [] => None | _ :: _ => Some new end
  end.

Section RequestVocabulary.
Context `{host : Host}.

(** The feed list of a request. *)
Definition feeds_of (env : Env) (st : State) : list FeedDescriptor :=
  (loadFeeds (now_feeds env) (FEEDS_CSV_URL env) (csv env) (feedsCache st)).1.

(** The lower bound of the time window of a request. *)
Definition since (q : qparam) (env : Env) : jsnum :=
  since_of (now_req env) (hours_of q).

(** The collected items in sorted order, before de-duplication. *)
Definition sorted_of (q : qparam) (env : Env) (st : State) : list Item :=
  Array_sort byPublishedDesc
             (collect (since q env) (settle env (feeds_of env st))).

(** The de-duplicated sequence. *)
Definition request_items (q : qparam) (env : Env) (st : State) : list Item :=
  deduped_of (hours_of q) (now_req env) (settle env (feeds_of env st)).

(** The same sequence after the translation block. *)
Definition final_items (q : qparam) (env : Env) (st : State) : list Item :=
  tr_items (translate (DEEPL_AUTH_KEY env) (provider env) (now_tl env)
                      (tlCache st) (request_items q env st)).

(** Order of two emitted objects: the second is not newer than the first. *)
Definition emitted_in_order (o1 o2 : obj) : Prop :=
  exists p1 p2,
    get (u "publishedAt") o1 = Some p1
    /\ get (u "publishedAt") o2 = Some p2
    /\ not_newer p2 p1.

End RequestVocabulary.

(* ===================================================================== *)
(** ** A worked request *)
(* ===================================================================== *)

Module Example.
Import IsoHost.

(** 2026-02-23T06:00:00.000Z *)
Definition now : Z := 1771826400000.

Definition table : jsstring :=
  u "enabled,source,url,defaultGenre" ++ [10%N]
  ++ u "TRUE,Feed A,http://a.example/rss,Pop" ++ [10%N]
  ++ u ",Feed B,http://b.example/rss,Rock" ++ [10%N]
  ++ u "TRUE,Feed C,http://c.example/rss,Pop" ++ [10%N].

Definition entry (date ttl lnk : string) : RawEntry :=
  {| isoDate := Some (u date); pubDate := None; published := None;
     updated := None; r_title := Some (u ttl); link := Some (u lnk);
     guid := None; contentSnippet := None; r_summary := None |}.

(** Feed A has an entry one hour old; feed B has one of 1 January, more than
    seven weeks old, and a copy of the entry of feed A published half an
    hour earlier; the fetch of feed C fails.  The feeds settle in reverse
    order, and the translation provider is down. *)
Definition outcome (f : FeedDescriptor) : FetchOutcome :=
  if bool_decide (f_source f = u "Feed A") then
    Fetched (Some [entry "2026-02-23T05:00:00.000Z" "New Techno EP"
                         "http://a.example/techno-ep"])
  else if bool_decide (f_source f = u "Feed B") then
    Fetched (Some [entry "2026-01-01T00:00:00.000Z" "Quiet jazz release"
                         "http://b.example/quiet-jazz";
                   entry "2026-02-23T04:30:00.000Z" "New Techno EP"
                         "http://a.example/techno-ep"])
  else FetchFailed.

(** The request issued [dt] milliseconds after [now], with the provider
    behaving as [prov]. *)
Definition env_at (dt : Z) (prov : list jsstring -> ProviderOutcome) : Env :=
  {| now_req := now + dt; now_feeds := now + dt; now_tl := now + dt + 40;
     now_resp := now + dt + 50;
     FEEDS_CSV_URL := true; csv := CsvText table;
     settle := fun feeds => rev (map (fun f => (f, outcome f)) feeds);
     DEEPL_AUTH_KEY := true;
     provider := prov |}.

Definition env : Env := env_at 0 (fun _ => ProviderThrows).

(** A provider that answers every text. *)
Definition translator (texts : list jsstring) : ProviderOutcome :=
  ProviderReturns (map (fun t => Some (u "JA " ++ t)) texts).

(** A provider that answers an empty text with an empty text. *)
Definition translator_of_text (texts : list jsstring) : ProviderOutcome :=
  ProviderReturns
    (map (fun t => Some (if is_empty t then [] else u "JA " ++ t)) texts).

Definition st0 : State := {| feedsCache := feedsCache0; tlCache := ∅ |}.

Definition doc_of (r : Response * State * list (list jsstring)) : ResponseDoc :=
  match r.1.1 with
  | R200 d => d
  | R500 =>
      {| generatedAt := []; hours := NaN; feedCount := 0; totalItems := 0;
         feedsLoaded := []; genres := ∅ |}
  end.

(** The request [?hours=24] and the request [?hours=abc]. *)
Definition q24 : qparam := QStr (u "24").
Definition qabc : qparam := QStr (u "abc").

Definition run24 : Response * State * list (list jsstring) :=
  handler q24 env st0.
Definition runabc : Response * State * list (list jsstring) :=
  handler qabc env st0.

(** Three entries filed under Techno that arrive out of order: feed B
    settles first with an entry of 04:30, then feed A with one of 03:00
    followed by one of 05:00. *)
Definition outcome_mixed (f : FeedDescriptor) : FetchOutcome :=
  if bool_decide (f_source f = u "Feed A") then
    Fetched (Some [entry "2026-02-23T03:00:00.000Z" "Old techno set"
                         "http://a.example/old-set";
                   entry "2026-02-23T05:00:00.000Z" "Techno premiere"
                         "http://a.example/premiere"])
  else if bool_decide (f_source f = u "Feed B") then
    Fetched (Some [entry "2026-02-23T04:30:00.000Z" "Minimal techno mix"
                         "http://b.example/minimal-mix"])
  else FetchFailed.

Definition env_mixed : Env :=
  {| now_req := now; now_feeds := now; now_tl := now + 40;
     now_resp := now + 50;
     FEEDS_CSV_URL := true; csv := CsvText table;
     settle := fun feeds => rev (map (fun f => (f, outcome_mixed f)) feeds);
     DEEPL_AUTH_KEY := true;
     provider := fun _ => ProviderThrows |}.

Definition run_mixed : Response * State * list (list jsstring) :=
  handler q24 env_mixed st0.

(** Three requests in a row with the provider up: at [now], one hour later
    and seven hours later. *)
Definition hour : Z := 3600000.
Definition first : Response * State * list (list jsstring) :=
  handler q24 (env_at 0 translator) st0.
Definition second : Response * State * list (list jsstring) :=
  handler q24 (env_at hour translator) first.1.2.
Definition third : Response * State * list (list jsstring) :=
  handler q24 (env_at (7 * hour) translator) first.1.2.

(** The item of the three requests. *)
Definition techno_ep : Item :=
  {| id := u "Feed A::http://a.example/techno-ep";
     title := u "New Techno EP";
     url := u "http://a.example/techno-ep";
     source := u "Feed A";
     publishedAt := Some (u "2026-02-23T05:00:00.000Z");
     summary := None;
     _fallbackGenre := u "Pop";
     ja := None |}.

End Example.

(* ===================================================================== *)
(** ** Vocabulary of the translation stage *)
(* ===================================================================== *)

(** The item at position [p] has no live cache entry. *)
Definition misses_at (c : gmap jsstring CacheEntry) (now : Z)
    (items : list Item) (p : nat) : bool :=
  match items !! p with
  | Some t =>
      match live_entry c now (cacheKey t) with
      | Some _ => false
      | None => true
      end
  | None => false
  end.

(** The positions, among [lt], of the items that miss the cache. *)
Definition missing (c : gmap jsstring CacheEntry) (now : Z)
    (items : list Item) (lt : list nat) : list nat :=
  List.filter (misses_at c now items) lt.

(** The positions of the items submitted to the provider by a request. *)
Definition submitted (c : gmap jsstring CacheEntry) (now : Z)
    (items : list Item) : list nat :=
  missing c now items (limitedTargets items).

Definition texts_at (items : list Item) (p : nat) : list jsstring :=
  match items !! p with
  | Some t => texts_of t
  | None => []
  end.

(** The texts of a request's call. *)
Definition need_of (c : gmap jsstring CacheEntry) (now : Z)
    (items : list Item) : list jsstring :=
  flat_map (texts_at items) (submitted c now items).

(** The state of the first loop of the stage at its start and at its
    end. *)
Definition scan_start (items : list Item) : Scan :=
  {| sc_items := items; need := []; index := [] |}.

Definition scanned_of (c : gmap jsstring CacheEntry) (now : Z)
    (items : list Item) : Scan :=
  scan_cache c now 0 (limitedTargets items) (scan_start items).

(** The ratio that [looksEnglish] compares with 0.45: letters A-Z and a-z
    over code units that are not white space (over 1 when there is none). *)
Definition letter_ratio (s : jsstring) : Q :=
  let letters := count_if is_letter s in
  let nonSpace :=
    match count_if (fun c => negb (is_ws c)) s with
    | 0%N => 1%N
    | n => n
    end in
  Qmake (Z.of_N letters) (Z.to_pos (Z.of_N nonSpace)).

(* ===================================================================== *)
(** ** The earlier copies of the handler *)
(* ===================================================================== *)

(** The repository keeps two earlier copies of the handler beside the one
    embedded above: [api/news.js], which sorts and groups without
    de-duplication or translation, and a copy that translates every
    candidate before sorting.  Both read [hours] and classify as above;
    their table of rules spells one keyword in capitals.  They are embedded
    as far as they differ. *)
Module Earlier.

(** The table of both copies: the last rule has the keyword "J-POP". *)
Definition GENRES : list GenreRule :=
  take 11 GENRES
  ++ [ {| name := u "Japan";
          keywords := [[0x65E5; 0x672C]%N; [0x6771; 0x4EAC]%N;
                       [0x6E0B; 0x8C37]%N; u "J-POP"; [0x90A6; 0x697D]%N] |} ].

Definition pickGenre `{host : Host}
    (title source fallback : jsstring) : jsstring :=
  let text := toLowerCase (title ++ u " " ++ source) in
  match scan_rules text GENRES with
  | Some g => g
  | None => if is_empty fallback then u "Other" else fallback
  end.

Section WithHost.
Context `{host : Host}.

(** The [summary] expression of both copies: cut to 240 units, white space
    left as it is. *)
Definition summary_of (it : RawEntry) : option jsstring :=
  let s := or_empty (or_else (or_else (contentSnippet it) (r_summary it))
                             (Some [])) in
  let s := slice0 240 s in
  if is_empty s then None else Some s.

Definition normalize (f : FeedDescriptor) (since : jsnum) (it : RawEntry)
  : option Item :=
  match publishedMs it with
  | None => None
  | Some ms =>
      if num_ltb (Fin (ofZ ms)) since then None
      else
        let title := trim (or_empty (or_else (r_title it) (Some []))) in
        let url := trim (or_empty (or_else (or_else (link it) (guid it))
                                           (Some []))) in
        if is_empty title || is_empty url then None
        else
          Some {| id := f_source f ++ u "::" ++ url;
                  title := title;
                  url := url;
                  source := f_source f;
                  publishedAt := toIso (or_empty (publishedRaw it));
                  summary := summary_of it;
                  _fallbackGenre := defaultGenre f;
                  ja := None |}
  end.

(** [allItems]: a rejected callback is absorbed by [Promise.allSettled]. *)
Definition collect (since : jsnum)
    (settled : list (FeedDescriptor * FetchOutcome)) : list Item :=
  concat (map (fun fo =>
                 match fo.2 with
                 | Fetched (Some items) => omap (normalize fo.1 since) items
                 | _ => []
                 end) settled).

(** The grouping loop with the classifier of the copies. *)
Fixpoint group_loop (genres : gmap jsstring (list obj)) (items : list Item)
  : option (gmap jsstring (list obj)) :=
  match items with
  | [] => Some genres
  | it :: rest =>
      let g := pickGenre (title it) (source it) (_fallbackGenre it) in
      match genres !! g with
      | Some l => group_loop (<[ g := l ++ [clean it] ]> genres) rest
      | None =>
          if bool_decide (g ∈ Object_prototype_keys) then None
          else group_loop (<[ g := [clean it] ]> genres) rest
      end
  end.

(** The handler of [api/news.js]: the document
    [{ generatedAt, hours, genres }], or nothing when the grouping loop
    throws.  [settled] pairs the feeds of the static list with the outcome
    of their fetch, in order of completion. *)
Definition handler_news_js (q : qparam) (now_req now_resp : Z)
    (settled : list (FeedDescriptor * FetchOutcome))
  : option (jsstring * jsnum * gmap jsstring (list obj)) :=
  let hours := hours_of q in
  let allItems :=
    Array_sort byPublishedDesc (collect (since_of now_req hours) settled) in
  match group_loop ∅ allItems with
  | Some genres => Some (Date_toISOString now_resp, hours, genres)
  | None => None
  end.

End WithHost.

(** Two feeds of the static list carry the same link. *)
Definition static_outcome (f : FeedDescriptor) : FetchOutcome :=
  if bool_decide (f_source f = u "Pitchfork (News)") then
    Fetched (Some [Example.entry "2026-02-23T05:00:00.000Z" "New Techno EP"
                                 "https://pitchfork.com/news/techno-ep"])
  else if bool_decide (f_source f = u "Pitchfork (Album Reviews)") then
    Fetched (Some [Example.entry "2026-02-23T04:30:00.000Z" "New Techno EP"
                                 "https://pitchfork.com/news/techno-ep"])
  else Fetched (Some []).

Definition static_settled : list (FeedDescriptor * FetchOutcome) :=
  map (fun f => (f, static_outcome f)) FEEDS_FALLBACK.

(** The first loop of the translating copy, which runs over every target:
    what it leaves in [need]. *)
Definition need_unbounded (tlCache : gmap jsstring CacheEntry) (now : Z)
    (allItems : list Item) : list jsstring :=
  need (scan_cache tlCache now 0 (targets allItems) (scan_start allItems)).

(** Forty-one items with English titles. *)
Definition tracks : list Item :=
  map (fun n : nat =>
         let k := IsoHost.digits 2 (Z.of_nat n) in
         {| id := u "Feed A::http://a.example/" ++ k;
            title := u "Track number " ++ k;
            url := u "http://a.example/" ++ k;
            source := u "Feed A";
            publishedAt := Some (u "2026-02-23T05:00:00.000Z");
            summary := None;
            _fallbackGenre := u "Pop";
            ja := None |})
      (seq 0 41).

End Earlier.

(* ===================================================================== *)
(** ** Vocabulary of the further properties *)
(* ===================================================================== *)

(** A string that does not begin, or does not end, with white space. *)
Definition no_lead (s : jsstring) : Prop :=
  match s with
  | [] => True
  | c :: _ => is_ws c = false
  end.

Definition no_trail (s : jsstring) : Prop := no_lead (rev s).

(** A descriptor the handler can use: a source, a url and a default genre,
    none empty. *)
Definition feed_wf (f : FeedDescriptor) : Prop :=
  f_source f <> [] /\ f_url f <> [] /\ defaultGenre f <> [].

Definition good_cache (fc : FeedsCache) : Prop :=
  fc_feeds fc <> [] /\ Forall feed_wf (fc_feeds fc).

(** The rows of cells that [parseCsv] reads before it builds objects: the
    scan and the flush of the tail. *)
Definition csv_rows (text : jsstring) : list (list jsstring) :=
  let st := csv_scan text
              {| cs_rows := []; cs_row := []; cs_cell := [];
                 inQuotes := false |} in
  if negb (is_nil (cs_cell st)) || negb (is_nil (cs_row st))
  then cs_rows st ++ [cs_row st ++ [cs_cell st]]
  else cs_rows st.

(** A data row that [parseCsv] does not skip as blank. *)
Definition row_not_blank (cols : list jsstring) : bool :=
  existsb (fun c => negb (is_empty (trim c))) cols.

(** A cell written between quotes, its quotes doubled; a line of such
    cells; a table of such lines, each ended by a line feed. *)
Definition csv_quote (s : jsstring) : jsstring :=
  34%N :: flat_map (fun c => if (c =? 34)%N then [34%N; 34%N] else [c]) s
  ++ [34%N].

Fixpoint csv_line (cells : list jsstring) : jsstring :=
  match cells with
  | [] => []
  | [c] => csv_quote c
  | c :: rest => csv_quote c ++ [44%N] ++ csv_line rest
  end.

Definition csv_table (rows : list (list jsstring)) : jsstring :=
  flat_map (fun r => csv_line r ++ [10%N]) rows.



(** The date fields of an entry in the order in which the handler tries
    them. *)
Definition date_fields (it : RawEntry) : list (option jsstring) :=
  [isoDate it; pubDate it; published it; updated it].

(** The same request with the feeds completing in another order. *)
Definition with_settle
    (s : list FeedDescriptor -> list (FeedDescriptor * FetchOutcome))
    (env : Env) : Env :=
  {| now_req := now_req env; now_feeds := now_feeds env;
     now_tl := now_tl env; now_resp := now_resp env;
     FEEDS_CSV_URL := FEEDS_CSV_URL env; csv := csv env;
     settle := s;
     DEEPL_AUTH_KEY := DEEPL_AUTH_KEY env; provider := provider env |}.

(** Some emitted object of the document has the url [w]. *)
Definition serves (doc : ResponseDoc) (w : jsstring) : Prop :=
  exists g l o,
    genres doc !! g = Some l /\ o ∈ l /\ get (u "url") o = Some (Some w).

(** The emitted object without its translation properties. *)
Definition strip_ja (o : obj) : obj :=
  rest_without (u "summaryJa") (rest_without (u "titleJa") o).

(** The pair of translations that the write-back loop takes from the
    provider's answer for the [j]-th submitted item. *)
Definition pair_at (out : list (option jsstring)) (j : nat)
  : option jsstring * option jsstring :=
  (out_or_null out (j * 2), out_or_null out (j * 2 + 1)).

(** The value of a string of decimal digits. *)
Definition decimal_value (s : jsstring) : Z :=
  fold_left (fun acc c => 10 * acc + (Z.of_N c - 48)) s 0.

Definition is_decimal_digit (c : N) : bool := ((48 <=? c) && (c <=? 57))%N.

(** A sheet with the four expected columns: its header, and the cell of a
    data row as [loadFeeds] reads it. *)
Definition sheet_header : list jsstring :=
  [u "enabled"; u "source"; u "url"; u "defaultGenre"].

Definition sheet_cell (cells : list jsstring) (i : nat) : jsstring :=
  trim (default [] (cells !! i)).

Definition sheet_enabled `{host : Host} (cells : list jsstring) : bool :=
  negb (bool_decide (toUpperCase (sheet_cell cells 0) = u "FALSE")).

Definition sheet_feed (cells : list jsstring) : FeedDescriptor :=
  {| f_source := sheet_cell cells 1;
     f_url := sheet_cell cells 2;
     defaultGenre :=
       if is_empty (sheet_cell cells 3) then u "Other"
       else sheet_cell cells 3 |}.

(* ===================================================================== *)
(** ** The page that shows the response *)
(* ===================================================================== *)

(** The pure parts of the component of [App.jsx].  [data] is the state that
    holds the parsed response: [None] before the first response arrives,
    then the [genres] object of the response.  [keys] stands for
    [Object.keys(data.genres)], an enumeration of the own keys of that
    object. *)
Module App.

Definition GENRE_ORDER : list jsstring :=
  map u [ "Techno"; "House"; "Drum & Bass"; "Dubstep"; "UK Garage";
          "Ambient"; "Experimental"; "Hip-Hop"; "Pop"; "Rock"; "Metal";
          "Japan"; "Other" ]%string.

(** [norm(s)]: [(s ?? "").toString().trim()] for a property that is absent
    ([None]), [null] ([Some None]) or a string. *)
Definition norm (s : option (option jsstring)) : jsstring :=
  trim (match s with Some (Some x) => x | _ => [] end).

(** The [genres] memo: [ordered], from [keys].  The default [sort()] orders
    strings by code units. *)
Definition ordered (keys : list jsstring) : list jsstring :=
  List.filter (fun k => bool_decide (k ∈ keys)) GENRE_ORDER
  ++ Array_sort IsoHost.compare_units
       (List.filter (fun k => negb (bool_decide (k ∈ GENRE_ORDER))) keys).

(** The filter of the [activeItems] memo. *)
Definition item_matches `{host : Host} (query : jsstring) (it : obj) : bool :=
  let t := toLowerCase (norm (get (u "title") it)) in
  let s := toLowerCase (norm (get (u "source") it)) in
  includes t query || includes s query.

(** The [activeItems] memo; [None] when the lookup of [activeGenre] finds a
    property inherited from [Object.prototype], which has no [slice]. *)
Definition activeItems `{host : Host} (data : option (gmap jsstring (list obj)))
    (activeGenre q : jsstring) : option (list obj) :=
  let query := toLowerCase (norm (Some (Some q))) in
  let shown (items : list obj) :=
    if is_empty query then items else List.filter (item_matches query) items in
  match data with
  | None => Some (shown [])
  | Some g =>
      match g !! activeGenre with
      | Some items => Some (shown items)
      | None =>
          if bool_decide (activeGenre ∈ Object_prototype_keys) then None
          else Some (shown [])
      end
  end.

(** The genre that [load] makes active once a response with the keys
    [keys] has arrived, [cur] being the active genre before. *)
Definition next_activeGenre (keys : list jsstring) (cur : jsstring)
  : jsstring :=
  match keys with
  | [] => cur
  | k0 :: _ =>
      let preferred :=
        match List.find (fun k => bool_decide (k ∈ keys)) GENRE_ORDER with
        | Some k => k
        | None => k0
        end in
      if bool_decide (cur ∈ keys) then cur else preferred
  end.

(** The [totalCount] memo, from [Object.values(data.genres)]. *)
Definition totalCount (values : list (list obj)) : nat :=
  foldl (fun acc arr => (acc + length arr)%nat) 0%nat values.

(** The buttons of the side bar: the names of [ordered], without those
    whose list is empty when [hideEmpty] is set.  Every name of [ordered]
    is an own key of the object. *)
Definition sidebar (hideEmpty : bool) (g : gmap jsstring (list obj))
    (keys : list jsstring) : list jsstring :=
  List.filter
    (fun k => negb hideEmpty || (0 <? length (default [] (g !! k)))%nat)
    (ordered keys).

(** [data?.genres?.[g] ?? []] for a name that is not inherited. *)
Definition listed (data : option (gmap jsstring (list obj))) (g : jsstring)
  : list obj :=
  match data with
  | Some gm => default [] (gm !! g)
  | None => []
  end.

End App.

(** The response data with the translation properties removed from every
    item. *)
Definition strip_data (data : option (gmap jsstring (list obj)))
  : option (gmap jsstring (list obj)) :=
  match data with
  | Some gm => Some (fmap (M := gmap jsstring) (fmap (M := list) strip_ja) gm)
  | None => None
  end.

(* ===================================================================== *)
(** ** Facts about numbers *)
(* ===================================================================== *)

Lemma ofZ_lt (a b : Z) : (ofZ a < ofZ b)%Qc <-> a < b.
Proof.
  unfold Qclt, ofZ; simpl. rewrite !Qred_correct.
  unfold Qlt; simpl. lia.
Qed.

Lemma ofZ_le (a b : Z) : (ofZ a <= ofZ b)%Qc <-> a <= b.
Proof.
  unfold Qcle, ofZ; simpl. rewrite !Qred_correct.
  unfold Qle; simpl. lia.
Qed.

Lemma num_ltb_Fin (p q : Qc) : num_ltb (Fin p) (Fin q) = bool_decide (p < q)%Qc.
Proof. reflexivity. Qed.

Lemma clamp_Fin (x : Qc) :
  Math_max (Fin (ofZ 1)) (Math_min (Fin (ofZ 72)) (Fin x)) = Fin (clampQ x).
Proof.
  unfold clampQ, Math_min, Math_max. rewrite num_ltb_Fin.
  destruct (bool_decide_reflect (x < ofZ 72)%Qc) as [H72|H72].
  - rewrite num_ltb_Fin.
    destruct (bool_decide_reflect (ofZ 1 < x)%Qc) as [H1|H1].
    + rewrite bool_decide_eq_false_2 by (apply Qcle_not_lt, Qclt_le_weak, H1).
      rewrite bool_decide_eq_false_2 by (apply Qcle_not_lt, Qclt_le_weak, H72).
      reflexivity.
    + apply Qcnot_lt_le in H1.
      destruct (bool_decide_reflect (x < ofZ 1)%Qc) as [Hx|Hx]; [reflexivity|].
      apply Qcnot_lt_le in Hx.
      rewrite bool_decide_eq_false_2 by (apply Qcle_not_lt, Qclt_le_weak, H72).
      f_equal. apply Qcle_antisym; assumption.
  - apply Qcnot_lt_le in H72.
    rewrite num_ltb_Fin.
    rewrite bool_decide_eq_true_2 by (apply ofZ_lt; lia).
    assert (H1 : (ofZ 1 < x)%Qc).
    { eapply Qclt_le_trans; [|exact H72]. apply ofZ_lt; lia. }
    rewrite bool_decide_eq_false_2 by (apply Qcle_not_lt, Qclt_le_weak, H1).
    destruct (bool_decide_reflect (ofZ 72 < x)%Qc) as [Hx|Hx]; [reflexivity|].
    apply Qcnot_lt_le in Hx. f_equal. apply Qcle_antisym; assumption.
Qed.

Lemma clampQ_range (x : Qc) : (ofZ 1 <= clampQ x)%Qc /\ (clampQ x <= ofZ 72)%Qc.
Proof.
  unfold clampQ.
  destruct (bool_decide_reflect (x < ofZ 1)%Qc) as [H1|H1].
  - split; [apply Qcle_refl | apply ofZ_le; lia].
  - apply Qcnot_lt_le in H1.
    destruct (bool_decide_reflect (ofZ 72 < x)%Qc) as [H2|H2].
    + split; [apply ofZ_le; lia | apply Qcle_refl].
    + apply Qcnot_lt_le in H2. split; assumption.
Qed.

Lemma clampQ_ofZ (n : Z) : clampQ (ofZ n) = ofZ (Z.max 1 (Z.min 72 n)).
Proof.
  unfold clampQ.
  destruct (bool_decide_reflect (ofZ n < ofZ 1)%Qc) as [H1|H1].
  - apply (proj1 (ofZ_lt _ _)) in H1.
    replace (Z.max 1 (Z.min 72 n)) with 1 by lia. reflexivity.
  - assert (H1' : ~ n < 1) by (intros H; apply H1, ofZ_lt, H).
    destruct (bool_decide_reflect (ofZ 72 < ofZ n)%Qc) as [H2|H2].
    + apply (proj1 (ofZ_lt _ _)) in H2.
      replace (Z.max 1 (Z.min 72 n)) with 72 by lia. reflexivity.
    + assert (H2' : ~ 72 < n) by (intros H; apply H2, ofZ_lt, H).
      replace (Z.max 1 (Z.min 72 n)) with n by lia. reflexivity.
Qed.

(** What the clamp makes of every possible conversion result. *)
Lemma hours_of_cases (q : qparam) :
  match Number_hours q with
  | NaN => hours_of q = NaN
  | NegInf => hours_of q = Fin (ofZ 1)
  | PosInf => hours_of q = Fin (ofZ 72)
  | Fin x => hours_of q = Fin (clampQ x)
  end.
Proof.
  unfold hours_of. destruct (Number_hours q) as [| | |x].
  - reflexivity.
  - reflexivity.
  - vm_compute. reflexivity.
  - apply clamp_Fin.
Qed.

(** A finite value of [hours] lies between 1 and 72. *)
Lemma hours_of_range (q : qparam) (h : Qc) :
  hours_of q = Fin h -> (ofZ 1 <= h)%Qc /\ (h <= ofZ 72)%Qc.
Proof.
  intros Hh. pose proof (hours_of_cases q) as Hc. rewrite Hh in Hc.
  destruct (Number_hours q) as [| | |x]; [discriminate Hc| | |];
    injection Hc as ->.
  - split; [apply Qcle_refl | apply ofZ_le; lia].
  - split; [apply ofZ_le; lia | apply Qcle_refl].
  - apply clampQ_range.
Qed.

Example hours_24 : hours_of (QStr (u "24")) = Fin (ofZ 24).
Proof. vm_compute. reflexivity. Qed.
Example hours_abs : hours_of QAbsent = Fin (ofZ 24).
Proof. vm_compute. reflexivity. Qed.
Example hours_100 : hours_of (QStr (u " 1e2 ")) = Fin (ofZ 72).
Proof. vm_compute. reflexivity. Qed.
Example hours_frac : hours_of (QStr (u "1.5")) = Fin (Q2Qc (3 # 2)).
Proof. vm_compute. reflexivity. Qed.
Example hours_hex : hours_of (QStr (u "0x10")) = Fin (ofZ 16).
Proof. vm_compute. reflexivity. Qed.
Example hours_neg : hours_of (QStr (u "-Infinity")) = Fin (ofZ 1).
Proof. vm_compute. reflexivity. Qed.

(* ===================================================================== *)
(** ** Rounding to binary64 *)
(* ===================================================================== *)

Lemma round_half_even_le (a b k : Z) :
  0 < b -> a <= k * b -> round_half_even a b <= k.
Proof.
  intros Hb Ha. unfold round_half_even.
  pose proof (Z.div_mod a b ltac:(lia)) as Hdm.
  pose proof (Z.mod_pos_bound a b Hb) as Hm.
  assert (Hfl : a / b <= k) by (apply Z.div_le_upper_bound; lia).
  assert (Hup : 0 < a mod b -> a / b + 1 <= k) by nia.
  destruct (2 * (a mod b) ?= b) eqn:E.
  - apply Z.compare_eq in E. destruct (Z.even (a / b)); lia.
  - exact Hfl.
  - apply Z.compare_gt_iff in E. lia.
Qed.

Lemma round_half_even_ge (a b k : Z) :
  0 < b -> k * b <= a -> k <= round_half_even a b.
Proof.
  intros Hb Ha. unfold round_half_even.
  assert (Hfl : k <= a / b) by (apply Z.div_le_lower_bound; lia).
  destruct (2 * (a mod b) ?= b); [destruct (Z.even (a / b))| |]; lia.
Qed.

Lemma ilog2_small (n d : Z) :
  0 < n -> 0 < d -> n < 2 ^ 53 * d -> ilog2 n d <= 52.
Proof.
  intros Hn Hd Hlt. unfold ilog2.
  pose proof (Z.log2_spec n Hn) as [Hn1 Hn2].
  pose proof (Z.log2_spec d Hd) as [Hd1 Hd2].
  pose proof (Z.log2_nonneg n) as Hln. pose proof (Z.log2_nonneg d) as Hld.
  set (k := Z.log2 n - Z.log2 d) in *.
  assert (Hk : k <= 53).
  { destruct (Z_le_gt_dec k 53) as [|Hgt]; [assumption|exfalso].
    assert (H54 : 2 ^ (54 + Z.log2 d) <= 2 ^ Z.log2 n)
      by (apply Z.pow_le_mono_r; lia).
    rewrite Z.pow_add_r in H54 by lia.
    rewrite Z.pow_succ_r in Hd2 by lia.
    change (2 ^ 54) with (2 * 2 ^ 53) in H54.
    assert (n < 2 ^ 53 * (2 * 2 ^ Z.log2 d)).
    { eapply Z.lt_trans; [exact Hlt|]. apply Z.mul_lt_mono_pos_l; lia. }
    lia. }
  destruct (Z.eq_dec k 53) as [E|]; [|destruct (if 0 <=? k then _ else _); lia].
  replace (0 <=? k) with true by (symmetry; apply Z.leb_le; lia).
  replace (d * 2 ^ k <=? n) with false; [lia|].
  symmetry. apply Z.leb_gt. rewrite E. lia.
Qed.

Lemma Qc_le_Q2Qc (a b : Q) : (Q2Qc a <= Q2Qc b)%Qc <-> (a <= b)%Q.
Proof. unfold Qcle; simpl. rewrite !Qred_correct. reflexivity. Qed.

Lemma Q2Qc_Qred (q : Q) : Q2Qc (Qred q) = Q2Qc q.
Proof. apply Qc_is_canon. simpl. rewrite !Qred_correct. reflexivity. Qed.

(** Rounding a positive rational that lies between two integers below
    [2^53] gives a finite value between them. *)
Lemma round64_pos_between (n d lo hi : Z) :
  0 < n -> 0 < d -> lo * d <= n -> n <= hi * d -> hi < 2 ^ 53 ->
  exists x, round64_pos n d = Fin x /\ (ofZ lo <= x)%Qc /\ (x <= ofZ hi)%Qc.
Proof.
  intros Hn Hd Hlo Hhi H53. unfold round64_pos.
  pose proof (ilog2_small n d Hn Hd ltac:(nia)) as Hl.
  set (e := Z.max (ilog2 n d - 52) (-1074)).
  assert (He : e <= 0) by (unfold e; lia).
  destruct (0 <=? e) eqn:E0.
  - apply Z.leb_le in E0. replace e with 0 by lia.
    change (2 ^ 0) with 1. rewrite !Z.mul_1_r.
    pose proof (round_half_even_le n d hi Hd Hhi).
    pose proof (round_half_even_ge n d lo Hd Hlo).
    replace (2 ^ 1024 <=? round_half_even n d) with false.
    + eexists. split; [reflexivity|]. split; apply ofZ_le; assumption.
    + symmetry. apply Z.leb_gt.
      assert (2 ^ 53 < 2 ^ 1024) by reflexivity. lia.
  - apply Z.leb_gt in E0.
    assert (Hp : 0 < 2 ^ (- e)) by (apply Z.pow_pos_nonneg; lia).
    set (p := 2 ^ (- e)) in *.
    pose proof (round_half_even_le (n * p) d (hi * p) Hd ltac:(nia)).
    pose proof (round_half_even_ge (n * p) d (lo * p) Hd ltac:(nia)).
    eexists. split; [reflexivity|]. rewrite Q2Qc_Qred.
    unfold ofZ. rewrite !Qc_le_Q2Qc. unfold Qle; simpl.
    rewrite Z2Pos.id by assumption. lia.
Qed.

Lemma Qc_num_zero (q : Qc) : Qnum q = 0 -> q = ofZ 0.
Proof.
  intros H. apply Qc_is_canon. destruct q as [[n d] c]; simpl in *.
  subst n. reflexivity.
Qed.

Lemma Qc_num_den (q : Qc) : (q == Qnum q # Qden q)%Q.
Proof. destruct q as [[n d] c]. reflexivity. Qed.

Lemma ofZ_le_Qc (k : Z) (q : Qc) :
  (ofZ k <= q)%Qc <-> k * Zpos (Qden q) <= Qnum q.
Proof.
  unfold Qcle, ofZ; simpl. rewrite Qred_correct.
  unfold Qle; simpl. lia.
Qed.

Lemma Qc_le_ofZ (k : Z) (q : Qc) :
  (q <= ofZ k)%Qc <-> Qnum q <= k * Zpos (Qden q).
Proof.
  unfold Qcle, ofZ; simpl. rewrite Qred_correct.
  unfold Qle; simpl. lia.
Qed.

Lemma ofZ_opp (k : Z) : (- ofZ k)%Qc = ofZ (- k).
Proof. apply Qc_is_canon. unfold ofZ; simpl. rewrite !Qred_correct. reflexivity. Qed.

(** Rounding stays between the integers around the value, as long as they
    are representable. *)
Lemma round64_between (q : Qc) (lo hi : Z) :
  - 2 ^ 53 < lo -> hi < 2 ^ 53 ->
  (ofZ lo <= q)%Qc -> (q <= ofZ hi)%Qc ->
  exists x, round64 q = Fin x /\ (ofZ lo <= x)%Qc /\ (x <= ofZ hi)%Qc.
Proof.
  intros Hlo Hhi Hl Hh. unfold round64.
  apply ofZ_le_Qc in Hl. apply Qc_le_ofZ in Hh.
  destruct (Qnum q) as [|n|n] eqn:En.
  - exists (ofZ 0). split; [reflexivity|]. split; apply ofZ_le; lia.
  - apply (round64_pos_between (Zpos n) (Zpos (Qden q)) lo hi); lia.
  - destruct (round64_pos_between (Zpos n) (Zpos (Qden q)) (- hi) (- lo))
      as [x [Hx [Hx1 Hx2]]]; try lia.
    rewrite Hx. exists (- x)%Qc. split; [reflexivity|].
    rewrite <- ofZ_opp in Hx1, Hx2.
    rewrite <- (Qcopp_involutive (ofZ lo)), <- (Qcopp_involutive (ofZ hi)).
    split; apply Qcopp_le_compat; assumption.
Qed.

(** The integers below [2^53] in size are binary64 values. *)
Lemma round64_ofZ (n : Z) :
  - 2 ^ 53 < n < 2 ^ 53 -> round64 (ofZ n) = Fin (ofZ n).
Proof.
  intros [H1 H2].
  destruct (round64_between (ofZ n) n n H1 H2) as [x [Hx [Hx1 Hx2]]];
    try apply Qcle_refl.
  rewrite Hx. f_equal. apply Qcle_antisym; assumption.
Qed.

Lemma ofZ_mul (a b : Z) : (ofZ a * ofZ b)%Qc = ofZ (a * b).
Proof.
  apply Qc_is_canon. unfold ofZ; simpl. rewrite !Qred_correct.
  unfold Qeq; simpl. lia.
Qed.

Lemma ofZ_sub (a b : Z) : (ofZ a - ofZ b)%Qc = ofZ (a - b).
Proof.
  apply Qc_is_canon. unfold ofZ, Qcminus, Qcplus, Qcopp; simpl.
  rewrite !Qred_correct. unfold Qeq; simpl. lia.
Qed.

Lemma ofZ_this (n : Z) : this (ofZ n) = inject_Z n.
Proof.
  unfold ofZ; simpl. apply Qred_identity. simpl. apply Z.gcd_1_r.
Qed.

(** An integer from [2^53] on rounds to a value that is no smaller than
    [2^53], or to infinity. *)
Lemma round64_large (n : Z) :
  2 ^ 53 <= n ->
  round64 (ofZ n) = PosInf
  \/ exists x, round64 (ofZ n) = Fin x /\ (ofZ (2 ^ 53) <= x)%Qc.
Proof.
  intros Hn. unfold round64. rewrite ofZ_this. simpl Qnum. simpl Qden.
  assert (H53 : 0 < 2 ^ 53) by reflexivity.
  destruct n as [|n|n]; try lia.
  unfold round64_pos, ilog2. change (Z.log2 1) with 0. rewrite Z.sub_0_r.
  pose proof (Z.log2_spec (Zpos n) ltac:(lia)) as [Hl1 Hl2].
  assert (HL : 53 <= Z.log2 (Zpos n)).
  { apply Z.log2_le_pow2; lia. }
  set (L := Z.log2 (Zpos n)) in *.
  replace (0 <=? L) with true by (symmetry; apply Z.leb_le; lia).
  replace (1 * 2 ^ L <=? Zpos n) with true by (symmetry; apply Z.leb_le; lia).
  replace (Z.max (L - 52) (-1074)) with (L - 52) by lia.
  replace (0 <=? L - 52) with true by (symmetry; apply Z.leb_le; lia).
  set (p := 2 ^ (L - 52)).
  assert (Hp : 2 <= p).
  { change 2 with (2 ^ 1). apply Z.pow_le_mono_r; lia. }
  assert (Hm : 2 ^ 52 <= round_half_even (Zpos n) (1 * p)).
  { apply round_half_even_ge; [lia|]. rewrite Z.mul_1_l.
    unfold p. rewrite <- Z.pow_add_r by lia.
    replace (52 + (L - 52)) with L by lia. exact Hl1. }
  destruct (2 ^ 1024 <=? _); [left; reflexivity|right].
  eexists. split; [reflexivity|]. apply ofZ_le.
  change (2 ^ 53) with (2 ^ 52 * 2).
  assert (0 < 2 ^ 52) by reflexivity. nia.
Qed.

(** The products and the difference of the time bound. *)
Lemma num_mul_between (x : Qc) (k lo hi : Z) :
  0 <= k -> - 2 ^ 53 < lo * k -> hi * k < 2 ^ 53 ->
  (ofZ lo <= x)%Qc -> (x <= ofZ hi)%Qc ->
  exists y, num_mul (Fin x) (Fin (ofZ k)) = Fin y
            /\ (ofZ (lo * k) <= y)%Qc /\ (y <= ofZ (hi * k))%Qc.
Proof.
  intros Hk H1 H2 Hl Hh. simpl.
  apply round64_between; try assumption.
  - rewrite <- ofZ_mul. apply Qcmult_le_compat_r; [assumption|].
    apply ofZ_le; assumption.
  - rewrite <- ofZ_mul. apply Qcmult_le_compat_r; [assumption|].
    apply ofZ_le; assumption.
Qed.

(** For a number of hours from 1 to 72 the bound is a finite instant, from
    72 hours to one hour before the request. *)
Lemma since_of_between (now : Z) (h : Qc) :
  time_value now -> (ofZ 1 <= h)%Qc -> (h <= ofZ 72)%Qc ->
  exists s, since_of now (Fin h) = Fin s
            /\ (ofZ (now - 72 * 3600000) <= s)%Qc
            /\ (s <= ofZ (now - 3600000))%Qc.
Proof.
  intros Hnow H1 H72. unfold since_of. unfold time_value in Hnow.
  assert (H53 : 2 ^ 53 = 9007199254740992) by reflexivity.
  destruct (num_mul_between h 60 1 72) as [a [-> [Ha1 Ha2]]];
    try assumption; try lia.
  destruct (num_mul_between a 60 (1 * 60) (72 * 60)) as [b [-> [Hb1 Hb2]]];
    try assumption; try lia.
  destruct (num_mul_between b 1000 (1 * 60 * 60) (72 * 60 * 60))
    as [c [-> [Hc1 Hc2]]]; try assumption; try lia.
  simpl num_sub.
  apply round64_between; try lia.
  - rewrite <- ofZ_sub. unfold Qcminus. apply Qcplus_le_compat;
      [apply Qcle_refl|]. apply Qcopp_le_compat. exact Hc2.
  - rewrite <- ofZ_sub. unfold Qcminus. apply Qcplus_le_compat;
      [apply Qcle_refl|]. apply Qcopp_le_compat.
    change 3600000 with (1 * 60 * 60 * 1000). exact Hc1.
Qed.

(** For a whole number of hours the bound is exact. *)
Lemma since_of_integer (now n : Z) :
  time_value now -> 1 <= n <= 72 ->
  since_of now (Fin (ofZ n)) = Fin (ofZ (now - n * 3600000)).
Proof.
  intros Hnow Hn. unfold since_of, time_value in *. simpl.
  assert (H53 : 2 ^ 53 = 9007199254740992) by reflexivity.
  rewrite ofZ_mul, round64_ofZ by lia. simpl.
  rewrite ofZ_mul, round64_ofZ by lia. simpl.
  rewrite ofZ_mul, round64_ofZ by lia. simpl.
  rewrite ofZ_sub, round64_ofZ by lia.
  do 2 f_equal. lia.
Qed.

(* ===================================================================== *)
(** ** The [hours] parameter *)
(* ===================================================================== *)


(** A parameter that is not a number leaves [hours] at [NaN]: the clamp does
    not catch it and the default of 24 applies to an absent parameter only. *)
Lemma hours_not_a_number :
  Number_hours (QStr (u "abc")) = NaN /\ hours_of (QStr (u "abc")) = NaN.
Proof. split; vm_compute; reflexivity. Qed.

(** An empty parameter converts to 0 and is clamped to 1. *)
Lemma hours_empty_string : hours_of (QStr []) = Fin (ofZ 1).
Proof. vm_compute. reflexivity. Qed.


(* ===================================================================== *)
(** ** The classifier *)
(* ===================================================================== *)

Lemma startsWith_spec (p s : jsstring) :
  startsWith p s = true <-> exists post, s = p ++ post.
Proof.
  revert s. induction p as [|a p IH]; intros s; simpl.
  - split; [intros _; exists s; reflexivity | reflexivity].
  - destruct s as [|b s].
    + split; [discriminate | intros [post H]; discriminate H].
    + rewrite andb_true_iff, N.eqb_eq, IH. split.
      * intros [-> [post ->]]. exists post. reflexivity.
      * intros [post H]. injection H as -> ->. split; [reflexivity|].
        exists post. reflexivity.
Qed.

Lemma includes_spec (s kw : jsstring) :
  includes s kw = true <-> occurs_in kw s.
Proof.
  unfold occurs_in. induction s as [|c s IH]; simpl.
  - rewrite orb_false_r, startsWith_spec. split.
    + intros [post H]. exists [], post. exact H.
    + intros [pre [post H]]. destruct pre as [|x pre]; [|discriminate H].
      exists post. exact H.
  - rewrite orb_true_iff, startsWith_spec, IH. split.
    + intros [[post H] | [pre [post H]]].
      * exists [], post. exact H.
      * exists (c :: pre), post. simpl. rewrite H. reflexivity.
    + intros [pre [post H]]. destruct pre as [|x pre].
      * left. exists post. exact H.
      * right. injection H as -> H. exists pre, post. exact H.
Qed.

(** What the laws of case mapping give for whole strings and prefixes. *)
Lemma toLowerCase_all_plain `{host : Host} (s : jsstring) :
  forallb plain s = true -> toLowerCase s = map lower_unit s.
Proof.
  intros H. destruct (toLowerCase_plain [] s [] H) as [pre [post [E [Hp Hq]]]].
  rewrite (Hp eq_refl), (Hq eq_refl) in E. simpl in E.
  rewrite !app_nil_r in E. exact E.
Qed.

Lemma toUpperCase_all_plain `{host : Host} (s : jsstring) :
  forallb plain s = true -> toUpperCase s = map upper_unit s.
Proof.
  intros H. destruct (toUpperCase_plain [] s [] H) as [pre [post [E [Hp Hq]]]].
  rewrite (Hp eq_refl), (Hq eq_refl) in E. simpl in E.
  rewrite !app_nil_r in E. exact E.
Qed.

Lemma toLowerCase_plain_prefix `{host : Host} (s post : jsstring) :
  forallb plain s = true ->
  exists post', toLowerCase (s ++ post) = map lower_unit s ++ post'.
Proof.
  intros H. destruct (toLowerCase_plain [] s post H) as [pre [post' [E [Hp _]]]].
  rewrite (Hp eq_refl) in E. exists post'. exact E.
Qed.

(** Such a string without capital letters is its own lower-case form. *)
Lemma toLowerCase_lower_plain `{host : Host} (s : jsstring) :
  lower_plain s = true -> toLowerCase s = s.
Proof.
  intros H. rewrite toLowerCase_all_plain.
  - induction s as [|c s IH]; [reflexivity|]. simpl in *.
    apply andb_true_iff in H as [Hc Hs]. apply andb_true_iff in Hc as [_ Hc].
    rewrite (IH Hs). unfold lower_unit.
    apply negb_true_iff in Hc. rewrite Hc. reflexivity.
  - unfold lower_plain in H. rewrite forallb_forall in *.
    intros c Hc. specialize (H c Hc). apply andb_true_iff in H as [H _].
    exact H.
Qed.

Section Classifier.
Context `{host : Host}.

Lemma scan_keywords_spec (text : jsstring) (kws : list jsstring) :
  scan_keywords text kws = true
  <-> exists kw, kw ∈ kws /\ occurs_in (toLowerCase kw) text.
Proof.
  induction kws as [|kw kws IH]; simpl.
  - split; [discriminate | intros [kw [H _]]; inversion H].
  - destruct (includes text (toLowerCase kw)) eqn:E.
    + split; [intros _ | reflexivity].
      exists kw. split; [left | apply includes_spec, E].
    + rewrite IH. split.
      * intros [kw' [Hin Hocc]]. exists kw'. split; [right; exact Hin | exact Hocc].
      * intros [kw' [Hin Hocc]]. inversion Hin; subst.
        -- apply includes_spec in Hocc. congruence.
        -- exists kw'. split; assumption.
Qed.

Lemma scan_rules_first (text : jsstring) (rules : list GenreRule)
    (i : nat) (g : GenreRule) :
  rules !! i = Some g ->
  rule_matches text g ->
  (forall j g', (j < i)%nat -> rules !! j = Some g' -> ~ rule_matches text g') ->
  scan_rules text rules = Some (name g).
Proof.
  revert i. induction rules as [|r rules IH]; intros i Hi Hm Hbefore.
  - discriminate Hi.
  - simpl. destruct i as [|i].
    + injection Hi as ->.
      rewrite (proj2 (scan_keywords_spec text (keywords g)) Hm). reflexivity.
    + destruct (scan_keywords text (keywords r)) eqn:E.
      * exfalso. apply (Hbefore 0%nat r); [lia | reflexivity |].
        apply scan_keywords_spec, E.
      * apply (IH i); [exact Hi | exact Hm |].
        intros j g' Hj Hg'. apply (Hbefore (S j) g'); [lia | exact Hg'].
Qed.

Lemma scan_rules_none (text : jsstring) (rules : list GenreRule) :
  (forall g, g ∈ rules -> ~ rule_matches text g) ->
  scan_rules text rules = None.
Proof.
  induction rules as [|r rules IH]; intros Hno; simpl; [reflexivity|].
  destruct (scan_keywords text (keywords r)) eqn:E.
  - exfalso. apply (Hno r); [left | apply scan_keywords_spec, E].
  - apply IH. intros g Hg. apply Hno. right. exact Hg.
Qed.

(** The result is the name of a rule or the fallback. *)
Lemma scan_rules_some (text : jsstring) (rules : list GenreRule) (n : jsstring) :
  scan_rules text rules = Some n ->
  exists g, g ∈ rules /\ name g = n /\ rule_matches text g.
Proof.
  induction rules as [|r rules IH]; simpl; [discriminate|].
  destruct (scan_keywords text (keywords r)) eqn:E.
  - intros H. injection H as <-. exists r.
    split; [left|]. split; [reflexivity | apply scan_keywords_spec, E].
  - intros H. destruct (IH H) as [g [Hg Hrest]].
    exists g. split; [right; exact Hg | exact Hrest].
Qed.

(** On a table of keywords made of plain code units the scan is the same
    under every engine. *)
Lemma scan_keywords_plain (text : jsstring) (kws : list jsstring) :
  forallb (forallb plain) kws = true ->
  scan_keywords text kws = scan_keywords (host := IsoHost.host) text kws.
Proof.
  induction kws as [|kw kws IH]; simpl; [reflexivity|].
  intros H. apply andb_true_iff in H as [Hkw Hkws].
  rewrite (toLowerCase_all_plain kw Hkw), (IH Hkws). reflexivity.
Qed.

Lemma scan_rules_plain (text : jsstring) (rules : list GenreRule) :
  forallb (fun g => forallb (forallb plain) (keywords g)) rules = true ->
  scan_rules text rules = scan_rules (host := IsoHost.host) text rules.
Proof.
  induction rules as [|g rules IH]; simpl; [reflexivity|].
  intros H. apply andb_true_iff in H as [Hg Hr].
  rewrite (scan_keywords_plain text _ Hg), (IH Hr). reflexivity.
Qed.

(** The keywords of [GENRES] are ASCII, kana and kanji. *)
Lemma GENRES_plain :
  forallb (fun g => forallb (forallb plain) (keywords g)) GENRES = true.
Proof. vm_compute. reflexivity. Qed.

(** So, on a title and a source of plain code units, the classification is
    the same under every engine. *)
Lemma pickGenre_plain (title source fallback : jsstring) :
  forallb plain (title ++ u " " ++ source) = true ->
  pickGenre title source fallback
  = pickGenre (host := IsoHost.host) title source fallback.
Proof.
  intros H. unfold pickGenre.
  rewrite (toLowerCase_all_plain _ H), (scan_rules_plain _ _ GENRES_plain).
  reflexivity.
Qed.

(** C4: [pickGenre] is a function of title, source and fallback.  On the
    lower-cased text "title source" it returns the name of the first rule of
    [GENRES], in declared order, one of whose keywords occurs in the text;
    when no keyword of any rule occurs it returns the fallback if that is
    not empty and "Other" otherwise; the title "Techno house crossover" is
    classified "Techno" whatever the source and the fallback.  Lower case
    is the engine's, whatever the characters of the title and the source. *)
Theorem pickGenre_first_match (title source fallback : jsstring) :
  let text := toLowerCase (title ++ u " " ++ source) in
  (forall i g,
      GENRES !! i = Some g ->
      rule_matches text g ->
      (forall j g', (j < i)%nat -> GENRES !! j = Some g' ->
                    ~ rule_matches text g') ->
      pickGenre title source fallback = name g)
  /\ ((forall g, g ∈ GENRES -> ~ rule_matches text g) ->
      pickGenre title source fallback
      = if is_empty fallback then u "Other" else fallback)
  /\ pickGenre (u "Techno house crossover") source fallback = u "Techno".
Proof.
  intros text. split; [|split].
  - intros i g Hi Hm Hbefore. unfold pickGenre. fold text.
    rewrite (scan_rules_first text GENRES i g Hi Hm Hbefore). reflexivity.
  - intros Hno. unfold pickGenre. fold text.
    rewrite (scan_rules_none text GENRES Hno). reflexivity.
  - unfold pickGenre.
    destruct (toLowerCase_plain_prefix (u "Techno house crossover")
                (u " " ++ source) eq_refl) as [post E].
    rewrite E.
    rewrite (scan_rules_first _ GENRES 0%nat
               {| name := u "Techno";
                  keywords := [u "techno"; [0x30C6; 0x30AF; 0x30CE]%N] |}).
    + reflexivity.
    + reflexivity.
    + exists (u "techno"). split; [left|].
      rewrite (toLowerCase_lower_plain (u "techno") eq_refl).
      exists [], (u " house crossover" ++ post). reflexivity.
    + intros j g' Hj. lia.
Qed.

Example pickGenre_quiet_jazz :
  pickGenre (u "Quiet jazz release") (u "Feed B") (u "Pop") = u "Pop".
Proof. rewrite pickGenre_plain by reflexivity. vm_compute. reflexivity. Qed.

Example pickGenre_no_fallback :
  pickGenre (u "Quiet jazz release") (u "Feed B") [] = u "Other".
Proof. rewrite pickGenre_plain by reflexivity. vm_compute. reflexivity. Qed.

(** Rule order decides: "house" occurs too, and "Techno" is declared first. *)
Example pickGenre_house_alone :
  pickGenre (u "House crossover") (u "Feed A") (u "Pop") = u "House".
Proof. rewrite pickGenre_plain by reflexivity. vm_compute. reflexivity. Qed.

End Classifier.

(* ===================================================================== *)
(** ** The feed table *)
(* ===================================================================== *)

Lemma upper_of_letter (X c : N) :
  is_upper X = true ->
  upper_unit c = X <-> same_letter X c.
Proof.
  unfold upper_unit, is_upper, is_lower, same_letter. intros HX.
  apply andb_true_iff in HX as [H1 H2].
  apply N.leb_le in H1. apply N.leb_le in H2.
  destruct (97 <=? c)%N eqn:E1; destruct (c <=? 122)%N eqn:E2; simpl;
    try apply N.leb_le in E1; try apply N.leb_le in E2;
    try apply N.leb_gt in E1; try apply N.leb_gt in E2; lia.
Qed.

Lemma upper_FALSE (s : jsstring) :
  map upper_unit s = u "FALSE" <-> spells_FALSE s.
Proof.
  unfold spells_FALSE.
  change (u "FALSE") with [70; 65; 76; 83; 69]%N.
  split.
  - intros H.
    destruct s as [|c1 [|c2 [|c3 [|c4 [|c5 [|c6 s]]]]]]; try discriminate H.
    simpl in H. injection H as H1 H2 H3 H4 H5.
    repeat (constructor;
            [apply upper_of_letter; [reflexivity | assumption] |]).
    constructor.
  - intros H.
    repeat match goal with
           | H : Forall2 _ _ _ |- _ => inversion H; subst; clear H
           end.
    simpl.
    repeat match goal with
           | H : same_letter _ _ |- _ =>
               apply upper_of_letter in H; [rewrite H; clear H | reflexivity]
           end.
    reflexivity.
Qed.

(** A spelling of FALSE is ASCII. *)
Lemma spells_FALSE_plain (s : jsstring) :
  spells_FALSE s -> forallb plain s = true.
Proof.
  unfold spells_FALSE. change (u "FALSE") with [70; 65; 76; 83; 69]%N.
  intros H.
  repeat match goal with
         | H : Forall2 _ _ _ |- _ => inversion H; subst; clear H
         end.
  repeat match goal with
         | H : same_letter _ _ |- _ => destruct H as [-> | ->]
         end; reflexivity.
Qed.

Section EnabledColumn.
Context `{host : Host}.

(** Among the strings of plain code units, the spellings of FALSE are those
    whose upper-case form is FALSE. *)
Lemma toUpperCase_FALSE (s : jsstring) :
  forallb plain s = true ->
  toUpperCase s = u "FALSE" <-> spells_FALSE s.
Proof.
  intros H. rewrite (toUpperCase_all_plain s H). apply upper_FALSE.
Qed.

Lemma spells_FALSE_upper (s : jsstring) :
  spells_FALSE s -> toUpperCase s = u "FALSE".
Proof.
  intros H. apply toUpperCase_FALSE; [apply spells_FALSE_plain|]; exact H.
Qed.

Lemma row_enabled_spec (r : gmap jsstring jsstring) :
  row_enabled r = true <-> toUpperCase (enabled_cell r) <> u "FALSE".
Proof.
  unfold row_enabled, enabled_cell.
  rewrite negb_true_iff, bool_decide_eq_false. reflexivity.
Qed.

End EnabledColumn.

Section FalseExample.
#[local] Existing Instance IsoHost.host.

(** C9, as stated, fails: a row whose [enabled] cell is the small-letter
    [false], which is not the literal FALSE, is excluded; the row with a
    blank cell is kept. *)
Lemma lowercase_false_excluded :
  map (fun r => r !! u "enabled") (parseCsv csv_example)
  = [Some (u "false"); Some []]
  /\ map row_enabled (parseCsv csv_example) = [false; true]
  /\ feeds_of_rows (parseCsv csv_example)
     = [ {| f_source := u "Feed B"; f_url := u "http://b.example/rss";
            defaultGenre := u "Rock" |} ].
Proof. vm_compute. repeat split. Qed.

End FalseExample.

Lemma is_empty_false (s : jsstring) : is_empty s = false <-> s <> [].
Proof. destruct s; simpl; split; congruence. Qed.

(** C9 (amended): when the feed table is loaded from the CSV, a row is
    excluded exactly when its [enabled] cell, trimmed and put in upper case,
    is FALSE: a cell that spells FALSE in any mix of capital and small
    letters excludes the row, and a cell of plain code units (ASCII, kana,
    kanji) excludes it only if it is such a spelling; a blank cell keeps the
    row, and the kept rows that lack a source or a url are then dropped. *)
Theorem enabled_column_filter `{host : Host} :
  (forall r, row_enabled r = false <-> toUpperCase (enabled_cell r) = u "FALSE")
  /\ (forall r, spells_FALSE (enabled_cell r) -> row_enabled r = false)
  /\ (forall r, forallb plain (enabled_cell r) = true ->
                row_enabled r = false -> spells_FALSE (enabled_cell r))
  /\ (forall r, enabled_cell r = [] -> row_enabled r = true)
  /\ (forall rows f,
        f ∈ feeds_of_rows rows
        <-> exists r, r ∈ rows
                      /\ toUpperCase (enabled_cell r) <> u "FALSE"
                      /\ f = row_feed r
                      /\ f_source f <> [] /\ f_url f <> [])
  /\ (forall now text fc,
        FEEDS_CACHE_MS <= now - fc_at fc ->
        (loadFeeds now true (CsvText text) fc).1
        = if is_nil (feeds_of_rows (parseCsv text)) then FEEDS_FALLBACK
          else feeds_of_rows (parseCsv text)).
Proof.
  assert (Hoff : forall r,
             row_enabled r = false <-> toUpperCase (enabled_cell r) = u "FALSE").
  { intros r. unfold row_enabled, enabled_cell.
    rewrite negb_false_iff, bool_decide_eq_true. reflexivity. }
  split; [exact Hoff|]. split; [|split; [|split; [|split]]].
  - intros r Hr. apply Hoff, spells_FALSE_upper, Hr.
  - intros r Hp Hr. apply (toUpperCase_FALSE _ Hp), Hoff, Hr.
  - intros r Hr. apply row_enabled_spec. rewrite Hr.
    rewrite (toUpperCase_all_plain [] eq_refl). discriminate.
  - intros rows f. unfold feeds_of_rows.
    rewrite list_elem_of_In, filter_In, in_map_iff.
    unfold feed_usable. rewrite andb_true_iff, !negb_true_iff, !is_empty_false.
    split.
    + intros [[r [<- Hr]] [Hs Hu]]. apply filter_In in Hr as [Hr He].
      exists r. apply list_elem_of_In in Hr. apply row_enabled_spec in He.
      repeat split; assumption.
    + intros [r [Hr [He [-> [Hs Hu]]]]]. split; [|split; assumption].
      exists r. split; [reflexivity|]. apply filter_In.
      split; [apply list_elem_of_In, Hr | apply row_enabled_spec, He].
  - intros now text fc Hexp. unfold loadFeeds.
    destruct (now - fc_at fc <? FEEDS_CACHE_MS) eqn:E.
    + apply Z.ltb_lt in E. lia.
    + simpl. destruct (feeds_of_rows (parseCsv text)); reflexivity.
Qed.

(* ===================================================================== *)
(** ** Sorting and de-duplication *)
(* ===================================================================== *)

Section Sorting.
Context {A : Type} (cmp : A -> A -> comparison).
Hypothesis cmp_antisym : forall a b, cmp b a = CompOpp (cmp a b).
Hypothesis cmp_trans :
  forall a b c, cmp a b <> Gt -> cmp b c <> Gt -> cmp a c <> Gt.

Lemma sort_insert_Permutation (x : A) (l : list A) :
  sort_insert cmp x l ≡ₚ x :: l.
Proof.
  induction l as [|y l IH]; simpl; [reflexivity|].
  destruct (cmp x y); try reflexivity.
  rewrite IH. apply perm_swap.
Qed.

Lemma Array_sort_Permutation (l : list A) : Array_sort cmp l ≡ₚ l.
Proof.
  induction l as [|x l IH]; simpl; [reflexivity|].
  rewrite sort_insert_Permutation, IH. reflexivity.
Qed.

Lemma sort_insert_sorted (x : A) (l : list A) :
  StronglySorted (not_after cmp) l ->
  StronglySorted (not_after cmp) (sort_insert cmp x l).
Proof.
  induction 1 as [|y l Hl IH Hy]; simpl.
  - repeat constructor.
  - assert (Hcons : StronglySorted (not_after cmp) (y :: l))
      by (constructor; assumption).
    destruct (cmp x y) eqn:E.
    + constructor; [exact Hcons|]. constructor.
      * unfold not_after. congruence.
      * eapply Forall_impl; [exact Hy|]. intros z Hz.
        apply (cmp_trans x y z); [congruence | exact Hz].
    + constructor; [exact Hcons|]. constructor.
      * unfold not_after. congruence.
      * eapply Forall_impl; [exact Hy|]. intros z Hz.
        apply (cmp_trans x y z); [congruence | exact Hz].
    + constructor; [exact IH|].
      rewrite sort_insert_Permutation. constructor; [|exact Hy].
      unfold not_after. rewrite (cmp_antisym x y), E. discriminate.
Qed.

Lemma Array_sort_sorted (l : list A) :
  StronglySorted (not_after cmp) (Array_sort cmp l).
Proof.
  induction l as [|x l IH]; simpl; [constructor|].
  apply sort_insert_sorted, IH.
Qed.

End Sorting.

Lemma StronglySorted_sublist {A} (R : relation A) (l1 l2 : list A) :
  sublist l1 l2 -> StronglySorted R l2 -> StronglySorted R l1.
Proof.
  induction 1 as [|x l1 l2 Hs IH|x l1 l2 Hs IH]; intros Hsorted.
  - constructor.
  - inversion Hsorted; subst. constructor; [apply IH; assumption|].
    apply Forall_forall. intros z Hz.
    match goal with
    | HF : Forall (R x) l2 |- _ =>
        apply (proj1 (Forall_forall _ _) HF);
        apply (elem_of_sublist l1 l2 z Hz Hs)
    end.
  - inversion Hsorted; subst. apply IH. assumption.
Qed.

(** In a sorted list, an element is related to every later one. *)
Lemma StronglySorted_app_cons {A} (R : relation A) (pre post : list A) (y x : A) :
  StronglySorted R (pre ++ y :: post) -> x ∈ post -> R y x.
Proof.
  induction pre as [|p pre IH]; simpl; intros Hs Hx.
  - inversion Hs; subst. eapply Forall_forall; [eassumption|].
    exact Hx.
  - inversion Hs; subst. apply IH; assumption.
Qed.

Section Dedupe.

Lemma dedupe_loop_sublist (seen : gset jsstring) (items : list Item) :
  sublist (dedupe_loop seen items) items.
Proof.
  revert seen. induction items as [|it items IH]; intros seen; simpl.
  - constructor.
  - destruct (decide (url it ∈ seen)).
    + apply sublist_cons, IH.
    + apply sublist_skip, IH.
Qed.

Lemma dedupe_loop_fresh (seen : gset jsstring) (items : list Item) (x : Item) :
  x ∈ dedupe_loop seen items -> url x ∉ seen.
Proof.
  revert seen. induction items as [|it items IH]; intros seen; simpl.
  - intros H. inversion H.
  - destruct (decide (url it ∈ seen)) as [Hin|Hnin].
    + apply IH.
    + intros H. apply elem_of_cons in H as [->|H]; [exact Hnin|].
      apply IH in H. intros Hs. apply H, elem_of_union. right. exact Hs.
Qed.

Lemma dedupe_loop_NoDup (seen : gset jsstring) (items : list Item) :
  NoDup (url <$> dedupe_loop seen items).
Proof.
  revert seen. induction items as [|it items IH]; intros seen; simpl.
  - constructor.
  - destruct (decide (url it ∈ seen)) as [Hin|Hnin]; [apply IH|].
    simpl. constructor; [|apply IH].
    intros Hin. apply list_elem_of_fmap in Hin as [y [Hy Hiny]].
    apply dedupe_loop_fresh in Hiny. apply Hiny, elem_of_union. left.
    apply elem_of_singleton. symmetry. exact Hy.
Qed.

(** The kept items are the first occurrences of the urls not yet seen. *)
Lemma dedupe_loop_spec (seen : gset jsstring) (items : list Item) (x : Item) :
  x ∈ dedupe_loop seen items
  <-> exists pre post,
        items = pre ++ x :: post
        /\ (url x ∉ seen)
        /\ forall z, z ∈ pre -> url z <> url x.
Proof.
  revert seen. induction items as [|it items IH]; intros seen; simpl.
  - split; [intros H; inversion H|].
    intros [pre [post [H _]]]. destruct pre; discriminate H.
  - destruct (decide (url it ∈ seen)) as [Hin|Hnin].
    + rewrite IH. split.
      * intros [pre [post [-> [Hx Hpre]]]].
        exists (it :: pre), post. split; [reflexivity|]. split; [exact Hx|].
        intros z Hz. apply elem_of_cons in Hz as [->|Hz]; [|apply Hpre, Hz].
        intros E. rewrite E in Hin. contradiction.
      * intros [pre [post [H [Hx Hpre]]]]. destruct pre as [|p pre].
        -- simpl in H. injection H as -> ->. contradiction.
        -- simpl in H. injection H as -> ->.
           exists pre, post. split; [reflexivity|]. split; [exact Hx|].
           intros z Hz. apply Hpre. right. exact Hz.
    + rewrite elem_of_cons, IH. split.
      * intros [->|[pre [post [-> [Hx Hpre]]]]].
        -- exists [], items. split; [reflexivity|]. split; [exact Hnin|].
           intros z Hz. inversion Hz.
        -- exists (it :: pre), post. split; [reflexivity|].
           split; [intros Hs; apply Hx, elem_of_union; right; exact Hs|].
           intros z Hz. apply elem_of_cons in Hz as [->|Hz]; [|apply Hpre, Hz].
           intros E. apply Hx, elem_of_union. left.
           apply elem_of_singleton. symmetry. exact E.
      * intros [pre [post [H [Hx Hpre]]]]. destruct pre as [|p pre].
        -- simpl in H. injection H as -> ->. left. reflexivity.
        -- simpl in H. injection H as -> ->. right.
           exists pre, post. split; [reflexivity|].
           split.
           ++ assert (NE : url p <> url x) by (apply Hpre; left).
              intros Hs. apply elem_of_union in Hs as [Hs|Hs].
              ** apply elem_of_singleton in Hs. congruence.
              ** contradiction.
           ++ intros z Hz. apply Hpre. right. exact Hz.
Qed.

(** Every url of the input keeps a representative. *)
Lemma dedupe_loop_covers (seen : gset jsstring) (items : list Item) (x : Item) :
  x ∈ items -> url x ∉ seen ->
  exists pre post y,
    items = pre ++ y :: post
    /\ url y = url x
    /\ (forall z, z ∈ pre -> url z <> url y)
    /\ (y ∈ dedupe_loop seen items)
    /\ (x = y \/ x ∈ post).
Proof.
  induction items as [|it items IH]; intros Hx Hseen; [inversion Hx|].
  destruct (decide (url it = url x)) as [E|NE].
  - exists [], items, it. split; [reflexivity|]. split; [exact E|].
    split; [intros z Hz; inversion Hz|]. split.
    + apply dedupe_loop_spec. exists [], items.
      split; [reflexivity|]. split; [rewrite E; exact Hseen|].
      intros z Hz. inversion Hz.
    + apply elem_of_cons in Hx as [->|Hx]; [left; reflexivity | right; exact Hx].
  - apply elem_of_cons in Hx as [->|Hx]; [contradiction|].
    destruct (IH Hx Hseen) as [pre [post [y [-> [Hy [Hpre [Hin Hpos]]]]]]].
    exists (it :: pre), post, y. split; [reflexivity|]. split; [exact Hy|].
    split.
    + intros z Hz. apply elem_of_cons in Hz as [->|Hz]; [congruence|].
      apply Hpre, Hz.
    + split; [|exact Hpos].
      apply dedupe_loop_spec in Hin as [pre' [post' [E' [Hs' Hp']]]].
      apply dedupe_loop_spec. exists (it :: pre), post.
      split; [reflexivity|]. split; [exact Hs'|].
      intros z Hz. apply elem_of_cons in Hz as [->|Hz]; [congruence|].
      apply Hpre, Hz.
Qed.

End Dedupe.

(* ===================================================================== *)
(** ** Translation leaves the items in place *)
(* ===================================================================== *)

Lemma base_alter (v : option jsstring * option jsstring) (p : nat)
    (items : list Item) :
  base <$> alter (set_ja v) p items = base <$> items.
Proof.
  rewrite (list_fmap_alter base (set_ja v) (fun x => x) items p).
  - apply list_alter_id. reflexivity.
  - apply Forall_forall. intros x _. reflexivity.
Qed.

Lemma scan_cache_base (c : gmap jsstring CacheEntry) (now : Z) (lt : list nat)
    (i : nat) (st : Scan) :
  base <$> sc_items (scan_cache c now i lt st) = base <$> sc_items st.
Proof.
  revert i st. induction lt as [|p lt IH]; intros i st; simpl; [reflexivity|].
  destruct (sc_items st !! p) as [t|]; [|apply IH].
  destruct (live_entry c now (cacheKey t)) as [hit|]; rewrite IH; simpl;
    [apply base_alter | reflexivity].
Qed.

Lemma write_back_base (now : Z) (out : list (option jsstring)) (lt : list nat)
    (idx : list (nat * jsstring)) (k : nat) (items : list Item)
    (c : gmap jsstring CacheEntry) :
  base <$> (write_back now out lt k idx items c).1 = base <$> items.
Proof.
  revert k items c. induction idx as [|[i key] idx IH]; intros k items c;
    simpl; [reflexivity|].
  rewrite IH. destruct (lt !! i); [apply base_alter | reflexivity].
Qed.

Lemma translate_base (key : bool) (prov : list jsstring -> ProviderOutcome)
    (now : Z) (c : gmap jsstring CacheEntry) (deduped : list Item) :
  base <$> tr_items (translate key prov now c deduped) = base <$> deduped.
Proof.
  unfold translate.
  set (st := scan_cache c now 0 (limitedTargets deduped) _).
  assert (Hst : base <$> sc_items st = base <$> deduped)
    by (unfold st; rewrite scan_cache_base; reflexivity).
  destruct (negb (is_nil (need st)) && key); [|exact Hst].
  destruct (deeplTranslateToJA key prov (need st)) as [[| |out] calls];
    try exact Hst.
  destruct out as [|o out]; [exact Hst|].
  pose proof (write_back_base now (o :: out) (limitedTargets deduped)
                (index st) 0 (sc_items st) c) as Hwb.
  destruct (write_back now (o :: out) (limitedTargets deduped) 0 (index st)
              (sc_items st) c) as [items cache].
  simpl in *. rewrite Hwb. exact Hst.
Qed.

(* ===================================================================== *)
(** ** Normalisation *)
(* ===================================================================== *)

Section Normalise.
Context `{host : Host}.

(** What an item that passes normalisation is made of. *)
Lemma normalize_inv (f : FeedDescriptor) (since : jsnum) (raw : RawEntry)
    (it : Item) :
  normalize f since raw = Some it ->
  exists ms,
    publishedMs raw = Some ms
    /\ num_ltb (Fin (ofZ ms)) since = false
    /\ title it = trim (or_empty (or_else (r_title raw) (Some [])))
    /\ title it <> []
    /\ url it = trim (or_empty (or_else (or_else (link raw) (guid raw))
                                        (Some [])))
    /\ url it <> []
    /\ publishedAt it = Some (Date_toISOString ms)
    /\ id it = f_source f ++ u "::" ++ url it
    /\ source it = f_source f
    /\ _fallbackGenre it = defaultGenre f
    /\ ja it = None.
Proof.
  unfold normalize. destruct (publishedMs raw) as [ms|] eqn:Ems; [|discriminate].
  destruct (num_ltb (Fin (ofZ ms)) since) eqn:Elt; [discriminate|].
  destruct (is_empty _ || is_empty _) eqn:Eemp; [discriminate|].
  apply orb_false_iff in Eemp as [Et Eu].
  apply is_empty_false in Et. apply is_empty_false in Eu.
  intros H. injection H as <-. simpl. exists ms.
  repeat split; try assumption.
  unfold publishedMs in Ems. unfold toIso.
  destruct (truthy (publishedRaw raw)); [|discriminate Ems].
  rewrite Ems. reflexivity.
Qed.

Lemma collect_spec (since : jsnum)
    (settled : list (FeedDescriptor * FetchOutcome)) (it : Item) :
  it ∈ collect since settled
  <-> exists f raws raw,
        (f, Fetched (Some raws)) ∈ settled
        /\ raw ∈ raws
        /\ normalize f since raw = Some it.
Proof.
  unfold collect. rewrite list_elem_of_In, in_concat. split.
  - intros [l [Hl Hit]]. apply in_map_iff in Hl as [[f o] [<- Hfo]].
    unfold feed_items in Hit. simpl in Hit.
    destruct o as [|[raws|]]; try (destruct Hit; fail).
    apply list_elem_of_In, list_elem_of_omap in Hit as [raw [Hraw Hn]].
    exists f, raws, raw. split; [apply list_elem_of_In, Hfo|].
    split; assumption.
  - intros [f [raws [raw [Hfo [Hraw Hn]]]]].
    exists (feed_items since (f, Fetched (Some raws))). split.
    + apply in_map_iff. exists (f, Fetched (Some raws)).
      split; [reflexivity | apply list_elem_of_In, Hfo].
    + unfold feed_items. simpl. apply list_elem_of_In, list_elem_of_omap.
      exists raw. split; assumption.
Qed.

Lemma collect_ja (since : jsnum)
    (settled : list (FeedDescriptor * FetchOutcome)) (it : Item) :
  it ∈ collect since settled -> base it = it.
Proof.
  intros H. apply collect_spec in H as [f [raws [raw [_ [_ Hn]]]]].
  apply normalize_inv in Hn as [ms Hn].
  destruct it; simpl in *. unfold base; simpl.
  repeat match goal with H : _ /\ _ |- _ => destruct H end.
  subst. reflexivity.
Qed.

End Normalise.

(* ===================================================================== *)
(** ** Emitted objects and grouping *)
(* ===================================================================== *)

(** The emitted object, property by property. *)
Lemma clean_eq (it : Item) :
  clean it
  = [ (u "id", Some (id it));
      (u "title", Some (title it));
      (u "url", Some (url it));
      (u "source", Some (source it));
      (u "publishedAt", publishedAt it);
      (u "summary", summary it) ]
    ++ match ja it with
       | None => []
       | Some (t, s) => [ (u "titleJa", t); (u "summaryJa", s) ]
       end.
Proof.
  destruct it as [i t l s p m f [[tj sj]|]]; vm_compute; reflexivity.
Qed.

Lemma get_url_clean (it : Item) : get (u "url") (clean it) = Some (Some (url it)).
Proof. rewrite clean_eq. reflexivity. Qed.

Lemma get_title_clean (it : Item) :
  get (u "title") (clean it) = Some (Some (title it)).
Proof. rewrite clean_eq. reflexivity. Qed.

Lemma get_publishedAt_clean (it : Item) :
  get (u "publishedAt") (clean it) = Some (publishedAt it).
Proof. rewrite clean_eq. reflexivity. Qed.

Lemma get_fallback_clean (it : Item) :
  get (u "_fallbackGenre") (clean it) = None.
Proof. rewrite clean_eq. destruct (ja it) as [[t s]|]; reflexivity. Qed.

Section Grouping.
Context `{host : Host}.

Lemma genre_of_base (it : Item) : genre_of (base it) = genre_of it.
Proof. reflexivity. Qed.

Lemma items_of_genre_elem (g : jsstring) (items : list Item) (it : Item) :
  it ∈ items_of_genre g items <-> it ∈ items /\ genre_of it = g.
Proof.
  unfold items_of_genre. rewrite !list_elem_of_In, filter_In, bool_decide_eq_true.
  reflexivity.
Qed.

Lemma items_of_genre_sublist (g : jsstring) (items : list Item) :
  sublist (items_of_genre g items) items.
Proof.
  unfold items_of_genre. induction items as [|it items IH]; simpl.
  - constructor.
  - destruct (bool_decide (genre_of it = g)).
    + apply sublist_skip, IH.
    + apply sublist_cons, IH.
Qed.

(** The grouping loop, key by key. *)
Lemma group_loop_spec (items : list Item) (gm0 gm : gmap jsstring (list obj)) :
  group_loop gm0 items = Some gm ->
  forall g, gm !! g = merge_group (gm0 !! g) (clean <$> items_of_genre g items).
Proof.
  revert gm0. induction items as [|it items IH]; intros gm0 H g.
  - simpl in H. injection H as <-. simpl.
    destruct (gm0 !! g) as [l|]; simpl; [rewrite app_nil_r|]; reflexivity.
  - simpl in H. destruct (group_step gm0 it) as [gm1|] eqn:E; [|discriminate H].
    rewrite (IH gm1 H g). clear IH H.
    unfold group_step in E. fold (genre_of it) in E.
    unfold items_of_genre. simpl. fold (items_of_genre g items).
    destruct (bool_decide_reflect (genre_of it = g)) as [Hg|Hg].
    + subst g. rewrite fmap_cons.
      destruct (gm0 !! genre_of it) as [l|] eqn:El.
      * injection E as <-. rewrite lookup_insert_eq. simpl.
        rewrite <- app_assoc. reflexivity.
      * destruct (bool_decide _); [discriminate E|].
        injection E as <-. rewrite lookup_insert_eq. reflexivity.
    + assert (Hlk : gm1 !! g = gm0 !! g).
      { destruct (gm0 !! genre_of it) as [l|].
        - injection E as <-. apply lookup_insert_ne, Hg.
        - destruct (bool_decide _); [discriminate E|].
          injection E as <-. apply lookup_insert_ne, Hg. }
      rewrite Hlk. reflexivity.
Qed.


Lemma group_empty (items : list Item) (gm : gmap jsstring (list obj)) (g : jsstring) :
  group_loop ∅ items = Some gm ->
  gm !! g = match items_of_genre g items with
            | [] => None
            | l => Some (clean <$> l)
            end.
Proof.
  intros H. rewrite (group_loop_spec items ∅ gm H g), lookup_empty. simpl.
  destruct (items_of_genre g items); reflexivity.
Qed.

(** Starting from keys that are not inherited names, the loop fails exactly
    when some item is classified under an inherited name. *)
Lemma group_loop_none (items : list Item) (gm0 : gmap jsstring (list obj)) :
  (forall g, g ∈ Object_prototype_keys -> gm0 !! g = None) ->
  group_loop gm0 items = None
  <-> exists it, it ∈ items /\ genre_of it ∈ Object_prototype_keys.
Proof.
  revert gm0. induction items as [|it items IH]; intros gm0 Hgm; simpl.
  - split; [discriminate | intros [it [H _]]; inversion H].
  - unfold group_step. fold (genre_of it).
    destruct (decide (genre_of it ∈ Object_prototype_keys)) as [Hin|Hout].
    + rewrite (Hgm _ Hin), bool_decide_eq_true_2 by exact Hin.
      split; [intros _ | reflexivity]. exists it. split; [left | exact Hin].
    + assert (Hstep : forall gm1,
                 (forall g, g ∈ Object_prototype_keys -> gm1 !! g = None) ->
                 group_loop gm1 items = None
                 <-> exists x, x ∈ it :: items
                               /\ genre_of x ∈ Object_prototype_keys).
      { intros gm1 Hgm1. rewrite (IH gm1 Hgm1). split.
        - intros [x [Hx Hg]]. exists x. split; [right; exact Hx | exact Hg].
        - intros [x [Hx Hg]]. apply elem_of_cons in Hx as [->|Hx];
            [contradiction|]. exists x. split; assumption. }
      destruct (gm0 !! genre_of it) as [l|] eqn:El.
      * apply Hstep. intros g Hg. rewrite lookup_insert_ne; [apply Hgm, Hg|].
        intros <-. contradiction.
      * rewrite bool_decide_eq_false_2 by exact Hout.
        apply Hstep. intros g Hg. rewrite lookup_insert_ne; [apply Hgm, Hg|].
        intros <-. contradiction.
Qed.

End Grouping.

(* ===================================================================== *)
(** ** The ISO host is lawful *)
(* ===================================================================== *)

Lemma compare_units_antisym (a b : jsstring) :
  IsoHost.compare_units b a = CompOpp (IsoHost.compare_units a b).
Proof.
  revert b. induction a as [|x a IH]; intros [|y b]; simpl; try reflexivity.
  rewrite (N.compare_antisym x y).
  destruct (x ?= y)%N; simpl; [apply IH | reflexivity | reflexivity].
Qed.

Lemma compare_units_trans (a b c : jsstring) :
  IsoHost.compare_units a b <> Gt -> IsoHost.compare_units b c <> Gt ->
  IsoHost.compare_units a c <> Gt.
Proof.
  revert b c. induction a as [|x a IH]; intros [|y b] [|z c]; simpl;
    try congruence.
  destruct (x ?= y)%N eqn:Exy; destruct (y ?= z)%N eqn:Eyz; try congruence.
  - apply N.compare_eq in Exy. apply N.compare_eq in Eyz. subst.
    rewrite N.compare_refl. apply IH.
  - apply N.compare_eq in Exy. subst. rewrite Eyz. congruence.
  - apply N.compare_eq in Eyz. subst. rewrite Exy. congruence.
  - assert (E : (x ?= z)%N = Lt).
    { apply N.compare_lt_iff. apply N.compare_lt_iff in Exy.
      apply N.compare_lt_iff in Eyz. exact (N.lt_trans _ _ _ Exy Eyz). }
    rewrite E. congruence.
Qed.

#[export] Instance iso_host_laws : HostLaws IsoHost.host.
Proof.
  split.
  - intros a b. apply compare_units_antisym.
  - intros a b c. apply compare_units_trans.
Qed.

Example iso_roundtrip :
  IsoHost.parse (u "2026-02-23T06:00:00.000Z") = Some Example.now
  /\ IsoHost.toISOString Example.now = u "2026-02-23T06:00:00.000Z".
Proof. vm_compute. split; reflexivity. Qed.

Example iso_rejects_other_formats :
  IsoHost.parse (u "Mon, 23 Feb 2026 06:00:00 GMT") = None
  /\ IsoHost.parse (u "2026-02-30T06:00:00.000Z") = None.
Proof. vm_compute. split; reflexivity. Qed.

(* ===================================================================== *)
(** ** The response, stage by stage *)
(* ===================================================================== *)

Lemma StronglySorted_fmap_inv {A B} (f : A -> B) (R1 : relation A)
    (R2 : relation B) (l : list A) :
  (forall x y, R2 (f x) (f y) -> R1 x y) ->
  StronglySorted R2 (f <$> l) -> StronglySorted R1 l.
Proof.
  intros HR. induction l as [|x l IH]; simpl; intros Hs; [constructor|].
  inversion Hs as [|? ? Hl Hx]; subst. constructor; [apply IH, Hl|].
  apply Forall_forall. intros y Hy. apply HR.
  apply (proj1 (Forall_forall _ _) Hx). apply list_elem_of_fmap_2, Hy.
Qed.

Lemma NoDup_fmap_eq {A B} (f : A -> B) (l : list A) (x y : A) :
  NoDup (f <$> l) -> x ∈ l -> y ∈ l -> f x = f y -> x = y.
Proof.
  induction l as [|a l IH]; simpl; intros Hnd Hx Hy E; [inversion Hx|].
  apply NoDup_cons in Hnd as [Ha Hnd].
  apply elem_of_cons in Hx as [->|Hx]; apply elem_of_cons in Hy as [->|Hy].
  - reflexivity.
  - exfalso. apply Ha. rewrite E. apply list_elem_of_fmap_2, Hy.
  - exfalso. apply Ha. rewrite <- E. apply list_elem_of_fmap_2, Hx.
  - apply IH; assumption.
Qed.

Section Response.
Context `{host : Host}.

Lemma handler_200 (q : qparam) (env : Env) (st st' : State)
    (doc : ResponseDoc) (calls : list (list jsstring)) :
  handler q env st = (R200 doc, st', calls) ->
  group_loop ∅ (final_items q env st) = Some (genres doc)
  /\ hours doc = hours_of q
  /\ generatedAt doc = Date_toISOString (now_resp env)
  /\ feedCount doc = length (feeds_of env st)
  /\ totalItems doc = length (request_items q env st)
  /\ feedsLoaded doc = feeds_of env st.
Proof.
  unfold handler, final_items, request_items, feeds_of.
  destruct (loadFeeds _ _ _ _) as [FEEDS fc]. simpl.
  destruct (group_loop ∅ _) as [gm|]; [|discriminate].
  intros H. injection H as <- _ _. simpl. repeat split; reflexivity.
Qed.

Lemma handler_total (q : qparam) (env : Env) (st : State) :
  (exists doc, group_loop ∅ (final_items q env st) = Some (genres doc)
               /\ exists st' calls, handler q env st = (R200 doc, st', calls))
  \/ (group_loop ∅ (final_items q env st) = None
      /\ exists st' calls, handler q env st = (R500, st', calls)).
Proof.
  unfold handler, final_items, request_items, feeds_of.
  destruct (loadFeeds _ _ _ _) as [FEEDS fc]. simpl.
  destruct (group_loop ∅ _) as [gm|].
  - left. eexists. split; [|eexists; eexists; reflexivity]. reflexivity.
  - right. split; [reflexivity|]. eexists; eexists; reflexivity.
Qed.

Lemma request_items_sublist (q : qparam) (env : Env) (st : State) :
  sublist (request_items q env st) (sorted_of q env st).
Proof. apply dedupe_loop_sublist. Qed.

Lemma sorted_of_elem (q : qparam) (env : Env) (st : State) (it : Item) :
  it ∈ sorted_of q env st
  <-> it ∈ collect (since q env) (settle env (feeds_of env st)).
Proof.
  unfold sorted_of. rewrite (Array_sort_Permutation byPublishedDesc).
  reflexivity.
Qed.

Lemma request_items_base (q : qparam) (env : Env) (st : State) :
  base <$> request_items q env st = request_items q env st.
Proof.
  assert (H : forall it, it ∈ request_items q env st -> base it = it).
  { intros it Hit. apply (collect_ja (since q env)
                                     (settle env (feeds_of env st))).
    apply sorted_of_elem.
    apply (elem_of_sublist _ _ _ Hit (request_items_sublist q env st)). }
  induction (request_items q env st) as [|x l IH]; simpl; [reflexivity|].
  rewrite (H x) by left. f_equal. apply IH.
  intros it Hit. apply H. right. exact Hit.
Qed.

Lemma final_items_base (q : qparam) (env : Env) (st : State) :
  base <$> final_items q env st = request_items q env st.
Proof.
  unfold final_items. rewrite translate_base. apply request_items_base.
Qed.

Lemma final_items_url (q : qparam) (env : Env) (st : State) :
  url <$> final_items q env st = url <$> request_items q env st.
Proof.
  rewrite <- (final_items_base q env st), <- list_fmap_compose.
  reflexivity.
Qed.

Lemma final_items_NoDup (q : qparam) (env : Env) (st : State) :
  NoDup (url <$> final_items q env st).
Proof. rewrite final_items_url. apply dedupe_loop_NoDup. Qed.

(** Every emitted object is the clean copy of an item of its genre. *)
Lemma emitted_lookup (q : qparam) (env : Env) (st st' : State)
    (doc : ResponseDoc) (calls : list (list jsstring))
    (g : jsstring) (l : list obj) :
  handler q env st = (R200 doc, st', calls) ->
  genres doc !! g = Some l ->
  l = clean <$> items_of_genre g (final_items q env st)
  /\ l <> [].
Proof.
  intros H Hg. apply handler_200 in H as [Hgm _].
  rewrite (group_empty _ _ g Hgm) in Hg.
  destruct (items_of_genre g (final_items q env st)) as [|x xs] eqn:E;
    [discriminate Hg|].
  injection Hg as <-. split; [reflexivity | discriminate].
Qed.

Lemma emitted_inv (q : qparam) (env : Env) (st st' : State)
    (doc : ResponseDoc) (calls : list (list jsstring))
    (g : jsstring) (l : list obj) (o : obj) :
  handler q env st = (R200 doc, st', calls) ->
  genres doc !! g = Some l -> o ∈ l ->
  exists it, o = clean it
             /\ it ∈ final_items q env st
             /\ genre_of it = g
             /\ base it ∈ request_items q env st.
Proof.
  intros H Hg Ho. destruct (emitted_lookup q env st st' doc calls g l H Hg)
    as [-> _].
  apply list_elem_of_fmap in Ho as [it [-> Hit]].
  apply items_of_genre_elem in Hit as [Hit Hgen].
  exists it. repeat split; try assumption.
  rewrite <- final_items_base. apply list_elem_of_fmap_2, Hit.
Qed.

(** Every item of the de-duplicated sequence is emitted, under its genre. *)
Lemma emitted_all (q : qparam) (env : Env) (st st' : State)
    (doc : ResponseDoc) (calls : list (list jsstring)) (y : Item) :
  handler q env st = (R200 doc, st', calls) ->
  y ∈ request_items q env st ->
  exists l y', genres doc !! genre_of y = Some l
               /\ base y' = y /\ clean y' ∈ l.
Proof.
  intros H Hy. rewrite <- final_items_base in Hy.
  apply list_elem_of_fmap in Hy as [y' [-> Hy']].
  pose proof H as H2. apply handler_200 in H2 as [Hgm _].
  pose proof (group_empty _ _ (genre_of (base y')) Hgm) as Hlk.
  assert (Hin : y' ∈ items_of_genre (genre_of (base y'))
                                    (final_items q env st))
    by (apply items_of_genre_elem; split; [exact Hy' | reflexivity]).
  destruct (items_of_genre _ _) as [|x xs] eqn:E; [inversion Hin|].
  exists (clean <$> (x :: xs)), y'. split; [exact Hlk|].
  split; [reflexivity|]. apply list_elem_of_fmap_2, Hin.
Qed.

End Response.

(* ===================================================================== *)
(** ** The value of [hours] in a request *)
(* ===================================================================== *)



(** Rounding at work: [hours=1.99999999999] is kept as the binary64 value
    next to it, below 2, and the bound of the window, computed from it in
    binary64, is the request time minus two hours exactly. *)
Example since_rounded :
  (exists h, hours_of (QStr (u "1.99999999999")) = Fin h /\ (h < ofZ 2)%Qc)
  /\ since (QStr (u "1.99999999999")) Example.env
     = Fin (ofZ (Example.now - 7200000)).
Proof.
  split; [|vm_compute; reflexivity].
  eexists. split; [vm_compute; reflexivity|]. reflexivity.
Qed.

(* ===================================================================== *)
(** ** De-duplication and order in the response *)
(* ===================================================================== *)

Section Order.
Context `{host : Host} `{!HostLaws host}.

Lemma byPublishedDesc_antisym (a b : Item) :
  byPublishedDesc b a = CompOpp (byPublishedDesc a b).
Proof. unfold byPublishedDesc. apply localeCompare_antisym. Qed.

Lemma byPublishedDesc_trans (a b c : Item) :
  byPublishedDesc a b <> Gt -> byPublishedDesc b c <> Gt ->
  byPublishedDesc a c <> Gt.
Proof.
  unfold byPublishedDesc. intros Hab Hbc.
  eapply localeCompare_trans; eassumption.
Qed.

Lemma byPublishedDesc_refl (a : Item) : byPublishedDesc a a <> Gt.
Proof.
  pose proof (byPublishedDesc_antisym a a) as H.
  destruct (byPublishedDesc a a); simpl in H; congruence.
Qed.

Lemma sorted_of_sorted (q : qparam) (env : Env) (st : State) :
  StronglySorted (not_after byPublishedDesc) (sorted_of q env st).
Proof.
  apply Array_sort_sorted;
    [apply byPublishedDesc_antisym | apply byPublishedDesc_trans].
Qed.

Lemma final_items_sorted (q : qparam) (env : Env) (st : State) :
  StronglySorted (not_after byPublishedDesc) (final_items q env st).
Proof.
  apply (StronglySorted_fmap_inv base _ (not_after byPublishedDesc)).
  - intros x y H. exact H.
  - rewrite final_items_base.
    eapply StronglySorted_sublist;
      [apply request_items_sublist | apply sorted_of_sorted].
Qed.

(** C2 (amended): in every response of this handler, the one that has the
    de-duplication loop, no two items have the same url; the items are the
    first occurrences of their urls in the sequence sorted by [publishedAt],
    newest first, so that the copy kept for a url is not older than any
    other copy of it. *)
Theorem urls_unique_newest_kept (q : qparam) (env : Env) (st st' : State)
    (doc : ResponseDoc) (calls : list (list jsstring)) :
  handler q env st = (R200 doc, st', calls) ->
  let sorted := sorted_of q env st in
  (forall g1 g2 l1 l2 i1 i2 o1 o2,
      genres doc !! g1 = Some l1 -> genres doc !! g2 = Some l2 ->
      l1 !! i1 = Some o1 -> l2 !! i2 = Some o2 ->
      get (u "url") o1 = get (u "url") o2 ->
      g1 = g2 /\ i1 = i2)
  /\ sorted ≡ₚ collect (since q env) (settle env (feeds_of env st))
  /\ StronglySorted (not_after byPublishedDesc) sorted
  /\ (forall x, x ∈ sorted ->
        exists pre post y,
          sorted = pre ++ y :: post
          /\ url y = url x
          /\ (forall z, z ∈ pre -> url z <> url y)
          /\ not_newer (publishedAt x) (publishedAt y)
          /\ exists l y', genres doc !! genre_of y = Some l
                          /\ base y' = y /\ clean y' ∈ l)
  /\ (forall g l o,
        genres doc !! g = Some l -> o ∈ l ->
        exists pre post y',
          sorted = pre ++ base y' :: post
          /\ o = clean y'
          /\ forall z, z ∈ pre -> url z <> url y').
Proof.
  intros H sorted. split; [|split; [|split; [|split]]].
  - intros g1 g2 l1 l2 i1 i2 o1 o2 Hg1 Hg2 Hi1 Hi2 Eurl.
    destruct (emitted_lookup q env st st' doc calls g1 l1 H Hg1) as [-> _].
    destruct (emitted_lookup q env st st' doc calls g2 l2 H Hg2) as [-> _].
    apply list_lookup_fmap_Some in Hi1 as [it1 [-> Hit1]].
    apply list_lookup_fmap_Some in Hi2 as [it2 [-> Hit2]].
    rewrite !get_url_clean in Eurl. injection Eurl as Eurl.
    assert (Hin1 : it1 ∈ items_of_genre g1 (final_items q env st))
      by (apply list_elem_of_lookup; exists i1; exact Hit1).
    assert (Hin2 : it2 ∈ items_of_genre g2 (final_items q env st))
      by (apply list_elem_of_lookup; exists i2; exact Hit2).
    apply items_of_genre_elem in Hin1 as [Hf1 Hgen1].
    apply items_of_genre_elem in Hin2 as [Hf2 Hgen2].
    assert (E : it1 = it2)
      by (apply (NoDup_fmap_eq url (final_items q env st));
          [apply final_items_NoDup | assumption..]).
    rewrite <- E in Hit2, Hgen2. clear E Hf2 Eurl.
    assert (Eg : g1 = g2) by (rewrite <- Hgen1; exact Hgen2).
    split; [exact Eg|]. revert Hit2. rewrite <- Eg. intros Hit2.
    assert (Hnd : NoDup (url <$> items_of_genre g1 (final_items q env st))).
    { apply (sublist_NoDup _ (url <$> final_items q env st));
        [apply final_items_NoDup
        | apply fmap_sublist, items_of_genre_sublist]. }
    apply (NoDup_lookup _ i1 i2 (url it1) Hnd);
      rewrite list_lookup_fmap; [rewrite Hit1 | rewrite Hit2]; reflexivity.
  - apply Array_sort_Permutation.
  - apply sorted_of_sorted.
  - intros x Hx.
    destruct (dedupe_loop_covers ∅ sorted x Hx (not_elem_of_empty _))
      as [pre [post [y [E [Hurl [Hpre [Hy Hpos]]]]]]].
    exists pre, post, y. split; [exact E|]. split; [exact Hurl|].
    split; [exact Hpre|]. split.
    + destruct Hpos as [->|Hpost]; [apply byPublishedDesc_refl|].
      pose proof (sorted_of_sorted q env st) as Hs. fold sorted in Hs.
      rewrite E in Hs.
      exact (StronglySorted_app_cons _ pre post y x Hs Hpost).
    + apply (emitted_all q env st st' doc calls y H). exact Hy.
  - intros g l o Hg Ho.
    destruct (emitted_inv q env st st' doc calls g l o H Hg Ho)
      as [it [-> [_ [_ Hb]]]].
    apply dedupe_loop_spec in Hb as [pre [post [E [_ Hpre]]]].
    exists pre, post, it. split; [exact E|]. split; [reflexivity|].
    exact Hpre.
Qed.

(** C10: in every 200 response each key of [genres] maps to a list that is
    not empty, and within each list the items stand in non-increasing
    [publishedAt] order. *)
Theorem genre_lists_nonempty_sorted (q : qparam) (env : Env) (st st' : State)
    (doc : ResponseDoc) (calls : list (list jsstring)) :
  handler q env st = (R200 doc, st', calls) ->
  forall g l,
    genres doc !! g = Some l ->
    l <> [] /\ StronglySorted emitted_in_order l.
Proof.
  intros H g l Hg.
  destruct (emitted_lookup q env st st' doc calls g l H Hg) as [-> Hne].
  split; [exact Hne|].
  apply (StronglySorted_fmap clean (not_after byPublishedDesc)).
  - intros x y Hxy. exists (publishedAt x), (publishedAt y).
    rewrite !get_publishedAt_clean. repeat split. exact Hxy.
  - eapply StronglySorted_sublist;
      [apply items_of_genre_sublist | apply final_items_sorted].
Qed.

End Order.

(* ===================================================================== *)
(** ** The translation stage *)
(* ===================================================================== *)

Lemma lookup_alter_set_ja (v : option jsstring * option jsstring)
    (p q : nat) (items : list Item) :
  alter (set_ja v) p items !! q
  = (fun t => if decide (p = q) then set_ja v t else t) <$> items !! q.
Proof.
  rewrite list_lookup_alter. destruct (decide (p = q)) as [->|NE].
  - reflexivity.
  - destruct (items !! q); reflexivity.
Qed.

Lemma misses_at_alter (c : gmap jsstring CacheEntry) (now : Z)
    (v : option jsstring * option jsstring) (p q : nat) (items : list Item) :
  misses_at c now (alter (set_ja v) p items) q = misses_at c now items q.
Proof.
  unfold misses_at. rewrite lookup_alter_set_ja.
  destruct (items !! q) as [t|]; simpl; [|reflexivity].
  destruct (decide (p = q)); reflexivity.
Qed.

Lemma texts_at_alter (v : option jsstring * option jsstring) (p q : nat)
    (items : list Item) :
  texts_at (alter (set_ja v) p items) q = texts_at items q.
Proof.
  unfold texts_at. rewrite lookup_alter_set_ja.
  destruct (items !! q) as [t|]; simpl; [|reflexivity].
  destruct (decide (p = q)); reflexivity.
Qed.

Lemma missing_alter (c : gmap jsstring CacheEntry) (now : Z)
    (v : option jsstring * option jsstring) (p : nat) (items : list Item)
    (lt : list nat) :
  missing c now (alter (set_ja v) p items) lt = missing c now items lt.
Proof.
  unfold missing. induction lt as [|q lt IH]; simpl; [reflexivity|].
  rewrite misses_at_alter, IH. reflexivity.
Qed.

Lemma flat_map_texts_alter (v : option jsstring * option jsstring) (p : nat)
    (items : list Item) (l : list nat) :
  flat_map (texts_at (alter (set_ja v) p items)) l
  = flat_map (texts_at items) l.
Proof.
  induction l as [|q l IH]; simpl; [reflexivity|].
  rewrite texts_at_alter, IH. reflexivity.
Qed.

(** [need] after the first loop: the texts of the missing items, in order. *)
Lemma scan_need (c : gmap jsstring CacheEntry) (now : Z) (lt : list nat)
    (i : nat) (st : Scan) :
  need (scan_cache c now i lt st)
  = need st ++ flat_map (texts_at (sc_items st))
                        (missing c now (sc_items st) lt).
Proof.
  revert i st. induction lt as [|p lt IH]; intros i st.
  - simpl. rewrite app_nil_r. reflexivity.
  - cbn [scan_cache]. unfold missing. cbn [List.filter].
    fold (missing c now (sc_items st) lt). unfold misses_at at 1.
    destruct (sc_items st !! p) as [t|] eqn:Et; [|apply IH].
    destruct (live_entry c now (cacheKey t)) as [hit|] eqn:El.
    + rewrite IH. cbn [sc_items need].
      rewrite missing_alter, flat_map_texts_alter. reflexivity.
    + rewrite IH. cbn [sc_items need flat_map].
      unfold texts_at at 2. rewrite Et, <- app_assoc. reflexivity.
Qed.

(** The items after the first loop, position by position. *)
Lemma scan_items (c : gmap jsstring CacheEntry) (now : Z) (lt : list nat)
    (i : nat) (st : Scan) (p : nat) :
  sc_items (scan_cache c now i lt st) !! p
  = match sc_items st !! p with
    | Some t =>
        if bool_decide (p ∈ lt) then
          match live_entry c now (cacheKey t) with
          | Some hit => Some (set_ja (c_titleJa hit, c_summaryJa hit) t)
          | None => Some t
          end
        else Some t
    | None => None
    end.
Proof.
  revert i st. induction lt as [|q lt IH]; intros i st.
  - simpl. destruct (sc_items st !! p); reflexivity.
  - cbn [scan_cache].
    assert (Hcons : bool_decide (p ∈ q :: lt)
                    = bool_decide (p = q) || bool_decide (p ∈ lt)).
    { rewrite <- bool_decide_or. apply bool_decide_ext, elem_of_cons. }
    rewrite Hcons. clear Hcons.
    destruct (sc_items st !! q) as [tq|] eqn:Eq.
    + destruct (live_entry c now (cacheKey tq)) as [hit|] eqn:El.
      * rewrite IH. cbn [sc_items]. rewrite lookup_alter_set_ja.
        destruct (sc_items st !! p) as [t|] eqn:Ep; simpl; [|reflexivity].
        destruct (decide (q = p)) as [->|NE].
        -- rewrite (bool_decide_eq_true_2 (p = p)) by reflexivity. simpl.
           assert (t = tq) by congruence. subst t.
           change (cacheKey (set_ja (c_titleJa hit, c_summaryJa hit) tq))
             with (cacheKey tq).
           rewrite El. destruct (bool_decide (p ∈ lt)); reflexivity.
        -- rewrite (bool_decide_eq_false_2 (p = q)) by congruence.
           reflexivity.
      * rewrite IH. cbn [sc_items].
        destruct (sc_items st !! p) as [t|] eqn:Ep; [|reflexivity].
        destruct (bool_decide_reflect (p = q)) as [->|NE]; simpl;
          [|reflexivity].
        assert (t = tq) by congruence. subst t. rewrite El.
        destruct (bool_decide (q ∈ lt)); reflexivity.
    + rewrite IH.
      destruct (sc_items st !! p) as [t|] eqn:Ep; [|reflexivity].
      destruct (bool_decide_reflect (p = q)) as [->|NE]; simpl;
        [congruence | reflexivity].
Qed.

(** Every entry of [index] stands for a missing item of [limitedTargets]. *)
Lemma scan_index_inv (c : gmap jsstring CacheEntry) (now : Z) (lt : list nat)
    (i : nat) (st : Scan) (k : nat) (key : jsstring) :
  (k, key) ∈ index (scan_cache c now i lt st) ->
  (k, key) ∈ index st
  \/ exists j p t,
       k = (i + j)%nat /\ lt !! j = Some p /\ sc_items st !! p = Some t
       /\ key = cacheKey t /\ live_entry c now key = None.
Proof.
  revert i st. induction lt as [|q lt IH]; intros i st; cbn [scan_cache].
  - intros H. left. exact H.
  - destruct (sc_items st !! q) as [tq|] eqn:Eq.
    + destruct (live_entry c now (cacheKey tq)) as [hit|] eqn:El.
      * intros H. apply IH in H as [H|[j [p [t [-> [Hj [Hp [-> Hl]]]]]]]];
          [left; exact H|].
        right. cbn [sc_items] in Hp. rewrite lookup_alter_set_ja in Hp.
        destruct (sc_items st !! p) as [t0|] eqn:Ep; [|discriminate Hp].
        simpl in Hp. injection Hp as <-.
        exists (S j), p, t0. split; [lia|]. split; [exact Hj|].
        split; [exact Ep|].
        destruct (decide (q = p)); split; try reflexivity; exact Hl.
      * intros H. apply IH in H as [H|[j [p [t [-> [Hj [Hp [-> Hl]]]]]]]].
        -- cbn [index] in H. apply elem_of_app in H as [H|H];
             [left; exact H|].
           apply list_elem_of_singleton in H. injection H as -> ->.
           right. exists 0%nat, q, tq. split; [lia|].
           repeat split; [exact Eq | exact El].
        -- right. exists (S j), p, t. split; [lia|].
           repeat split; [exact Hj | exact Hp | exact Hl].
    + intros H. apply IH in H as [H|[j [p [t [-> [Hj [Hp [-> Hl]]]]]]]];
        [left; exact H|].
      right. exists (S j), p, t. split; [lia|].
      repeat split; [exact Hj | exact Hp | exact Hl].
Qed.

Lemma scan_index_keeps (c : gmap jsstring CacheEntry) (now : Z)
    (lt : list nat) (i : nat) (st : Scan) (e : nat * jsstring) :
  e ∈ index st -> e ∈ index (scan_cache c now i lt st).
Proof.
  revert i st. induction lt as [|q lt IH]; intros i st H; cbn [scan_cache];
    [exact H|].
  destruct (sc_items st !! q) as [tq|]; [|apply IH, H].
  destruct (live_entry c now (cacheKey tq)); apply IH; cbn [index];
    [exact H | apply elem_of_app; left; exact H].
Qed.

(** Every missing item of [limitedTargets] has its entry in [index]. *)
Lemma scan_index_miss (c : gmap jsstring CacheEntry) (now : Z) (lt : list nat)
    (i : nat) (st : Scan) (j p : nat) (t : Item) :
  lt !! j = Some p -> sc_items st !! p = Some t ->
  live_entry c now (cacheKey t) = None ->
  ((i + j)%nat, cacheKey t) ∈ index (scan_cache c now i lt st).
Proof.
  revert i st j. induction lt as [|q lt IH]; intros i st j Hj Hp Hl;
    [discriminate Hj|].
  cbn [scan_cache]. destruct j as [|j].
  - simpl in Hj. injection Hj as ->. rewrite Hp, Hl.
    apply scan_index_keeps. cbn [index]. apply elem_of_app. right.
    rewrite Nat.add_0_r. apply list_elem_of_singleton. reflexivity.
  - simpl in Hj. replace (i + S j)%nat with (S i + j)%nat by lia.
    destruct (sc_items st !! q) as [tq|] eqn:Eq; [|apply IH; assumption].
    destruct (live_entry c now (cacheKey tq)) as [hit|] eqn:El.
    + destruct (decide (q = p)) as [->|NE].
      { assert (tq = t) by congruence. subst tq. congruence. }
      apply (IH (S i) _ j); [exact Hj | | exact Hl].
      cbn [sc_items]. rewrite lookup_alter_set_ja, Hp. simpl.
      destruct (decide (q = p)); [contradiction | reflexivity].
    + apply (IH (S i) _ j); assumption.
Qed.

(** The write-back loop touches only the positions its entries point to. *)
Lemma write_back_frame (now : Z) (out : list (option jsstring))
    (lt : list nat) (idx : list (nat * jsstring)) (k : nat)
    (items : list Item) (c : gmap jsstring CacheEntry) (p : nat) :
  (forall i key, (i, key) ∈ idx -> lt !! i <> Some p) ->
  (write_back now out lt k idx items c).1 !! p = items !! p.
Proof.
  revert k items c. induction idx as [|[i key] idx IH]; intros k items c Hno;
    [reflexivity|].
  cbn [write_back]. rewrite IH.
  - destruct (lt !! i) as [p'|] eqn:Ei; [|reflexivity].
    rewrite lookup_alter_set_ja. destruct (decide (p' = p)) as [->|NE].
    + exfalso. apply (Hno i key); [left | exact Ei].
    + destruct (items !! p); reflexivity.
  - intros i' key' Hin. apply (Hno i' key'). right. exact Hin.
Qed.

Lemma write_back_cache_frame (now : Z) (out : list (option jsstring))
    (lt : list nat) (idx : list (nat * jsstring)) (k : nat)
    (items : list Item) (c : gmap jsstring CacheEntry) (key : jsstring) :
  key ∉ idx.*2 ->
  (write_back now out lt k idx items c).2 !! key = c !! key.
Proof.
  revert k items c. induction idx as [|[i key'] idx IH]; intros k items c Hno;
    [reflexivity|].
  cbn [write_back]. rewrite IH.
  - apply lookup_insert_ne. intros ->. apply Hno. left.
  - intros Hin. apply Hno. right. exact Hin.
Qed.

(** Every key of [index] is refreshed with the time of the request. *)
Lemma write_back_cache_set (now : Z) (out : list (option jsstring))
    (lt : list nat) (idx : list (nat * jsstring)) (k : nat)
    (items : list Item) (c : gmap jsstring CacheEntry) (key : jsstring) :
  key ∈ idx.*2 ->
  exists e, (write_back now out lt k idx items c).2 !! key = Some e
            /\ c_t e = now.
Proof.
  revert k items c. induction idx as [|[i key'] idx IH]; intros k items c Hin;
    [inversion Hin|].
  cbn [write_back].
  destruct (decide (key ∈ idx.*2)) as [Hrest|Hrest].
  - apply IH, Hrest.
  - rewrite write_back_cache_frame by exact Hrest.
    rewrite fmap_cons in Hin. apply elem_of_cons in Hin as [->|Hin];
      [|contradiction].
    simpl. rewrite lookup_insert_eq. eexists. split; reflexivity.
Qed.

Section Translate.
Variables (key : bool) (prov : list jsstring -> ProviderOutcome) (now : Z)
          (c : gmap jsstring CacheEntry) (items : list Item).


Lemma scanned_need : need (scanned_of c now items) = need_of c now items.
Proof. unfold scanned_of. rewrite scan_need. reflexivity. Qed.

Lemma scanned_index_points (i : nat) (k' : jsstring) (p : nat) :
  (i, k') ∈ index (scanned_of c now items) -> limitedTargets items !! i = Some p ->
  misses_at c now items p = true /\ (exists t, items !! p = Some t
                                              /\ k' = cacheKey t).
Proof.
  intros Hin Hi. unfold scanned_of in Hin.
  apply scan_index_inv in Hin as [Hin|[j [p' [t [-> [Hj [Hp [-> Hl]]]]]]]];
    [inversion Hin|].
  simpl in Hi. rewrite Hi in Hj. injection Hj as <-. simpl in Hp.
  unfold misses_at. rewrite Hp, Hl. split; [reflexivity|].
  exists t. split; reflexivity.
Qed.

(** The provider is called at most once, with the texts of the missing
    items, and only when a key is configured. *)
Lemma translate_calls :
  tr_calls (translate key prov now c items)
  = if negb (is_nil (need_of c now items)) && key
    then [need_of c now items] else [].
Proof.
  unfold translate. fold (scan_start items).
  fold (scanned_of c now items). rewrite scanned_need.
  destruct (negb (is_nil (need_of c now items)) && key) eqn:E;
    [|reflexivity].
  apply andb_true_iff in E as [En ->].
  unfold deeplTranslateToJA. simpl.
  destruct (is_nil (need_of c now items)); [discriminate En|].
  destruct (prov (need_of c now items)) as [|[|o out]]; try reflexivity.
  destruct (write_back _ _ _ _ _ _ _). reflexivity.
Qed.

(** The items after the stage: those of the scan, except where the
    write-back loop stored a fresh translation. *)
Lemma translate_items_frame (p : nat) :
  misses_at c now items p = false ->
  tr_items (translate key prov now c items) !! p = sc_items (scanned_of c now items) !! p.
Proof.
  intros Hhit. unfold translate. fold (scan_start items).
  fold (scanned_of c now items).
  destruct (negb (is_nil (need (scanned_of c now items))) && key); [|reflexivity].
  destruct (deeplTranslateToJA key prov (need (scanned_of c now items))) as [[| |[|o out]] calls];
    try reflexivity.
  pose proof (write_back_frame now (o :: out) (limitedTargets items)
                (index (scanned_of c now items)) 0 (sc_items (scanned_of c now items)) c p) as Hf.
  destruct (write_back _ _ _ _ _ _ _) as [its cache]. simpl in *.
  apply Hf. intros i k' Hin Hi.
  destruct (scanned_index_points i k' p Hin Hi) as [Hm _]. congruence.
Qed.

(** A live entry is applied as stored. *)
Lemma translate_hit (p : nat) (t : Item) (hit : CacheEntry) :
  p ∈ limitedTargets items -> items !! p = Some t ->
  live_entry c now (cacheKey t) = Some hit ->
  tr_items (translate key prov now c items) !! p
  = Some (set_ja (c_titleJa hit, c_summaryJa hit) t).
Proof.
  intros Hp Ht Hl. rewrite translate_items_frame.
  - unfold scanned_of. rewrite scan_items. simpl. rewrite Ht, Hl.
    rewrite bool_decide_eq_true_2 by exact Hp. reflexivity.
  - unfold misses_at. rewrite Ht, Hl. reflexivity.
Qed.

(** Outside [limitedTargets] nothing changes. *)
Lemma translate_outside (p : nat) :
  p ∉ limitedTargets items ->
  tr_items (translate key prov now c items) !! p = items !! p.
Proof.
  intros Hp.
  assert (Hscan : sc_items (scanned_of c now items) !! p = items !! p).
  { unfold scanned_of. rewrite scan_items. simpl.
    destruct (items !! p); [|reflexivity].
    rewrite bool_decide_eq_false_2 by exact Hp. reflexivity. }
  rewrite <- Hscan. unfold translate. fold (scan_start items).
  fold (scanned_of c now items).
  destruct (negb (is_nil (need (scanned_of c now items))) && key); [|reflexivity].
  destruct (deeplTranslateToJA key prov (need (scanned_of c now items))) as [[| |[|o out]] calls];
    try reflexivity.
  pose proof (write_back_frame now (o :: out) (limitedTargets items)
                (index (scanned_of c now items)) 0 (sc_items (scanned_of c now items)) c p) as Hf.
  destruct (write_back _ _ _ _ _ _ _) as [its cache]. simpl in *.
  apply Hf. intros i k' Hin Hi. apply Hp.
  apply list_elem_of_lookup. exists i. exact Hi.
Qed.


(** A fresh translation refreshes the entry of every missing item. *)
Lemma translate_fresh (p : nat) (t : Item) (o : option jsstring)
    (out : list (option jsstring)) :
  key = true ->
  prov (need_of c now items) = ProviderReturns (o :: out) ->
  p ∈ limitedTargets items -> items !! p = Some t ->
  live_entry c now (cacheKey t) = None ->
  exists e, tr_cache (translate key prov now c items) !! cacheKey t = Some e
            /\ c_t e = now.
Proof.
  intros Hk Hprov Hp Ht Hl.
  apply list_elem_of_lookup in Hp as [j Hj].
  assert (Hin : (j, cacheKey t) ∈ index (scanned_of c now items)).
  { unfold scanned_of. apply (scan_index_miss c now _ 0 (scan_start items) j p t);
      [exact Hj | exact Ht | exact Hl]. }
  assert (Hneed : is_nil (need_of c now items) = false).
  { unfold need_of, submitted, missing.
    assert (Hsub : p ∈ List.filter (misses_at c now items)
                                   (limitedTargets items)).
    { apply list_elem_of_In, filter_In. split.
      - apply list_elem_of_In, list_elem_of_lookup. exists j. exact Hj.
      - unfold misses_at. rewrite Ht, Hl. reflexivity. }
    apply list_elem_of_In, in_split in Hsub as [l1 [l2 ->]].
    rewrite flat_map_app. simpl. unfold texts_at at 2. rewrite Ht.
    destruct (flat_map _ l1); reflexivity. }
  unfold translate. fold (scan_start items).
  fold (scanned_of c now items). rewrite scanned_need.
  rewrite Hneed, Hk. simpl. unfold deeplTranslateToJA. rewrite Hneed. simpl.
  rewrite Hprov.
  pose proof (write_back_cache_set now (o :: out) (limitedTargets items)
                (index (scanned_of c now items)) 0 (sc_items (scanned_of c now items)) c (cacheKey t)) as Hset.
  destruct (write_back _ _ _ _ _ _ _) as [its cache]. simpl in *.
  apply Hset. apply list_elem_of_fmap. exists (j, cacheKey t).
  split; [reflexivity | exact Hin].
Qed.

End Translate.

(* ===================================================================== *)
(** ** The items of a response *)
(* ===================================================================== *)

Lemma pickGenre_range `{host : Host} (t s f : jsstring) :
  pickGenre t s f = f
  \/ pickGenre t s f ∈ (u "Other" :: map name GENRES).
Proof.
  unfold pickGenre.
  destruct (scan_rules _ GENRES) as [n|] eqn:E.
  - right. apply scan_rules_some in E as [g [Hg [<- _]]].
    right. apply list_elem_of_In, in_map, list_elem_of_In, Hg.
  - destruct (is_empty f); [right; left | left; reflexivity].
Qed.

Lemma rule_names_own :
  forall n, n ∈ (u "Other" :: map name GENRES) -> n ∉ Object_prototype_keys.
Proof.
  apply Forall_forall.
  apply (bool_decide_unpack _). vm_compute. exact I.
Qed.

Lemma genre_of_own `{host : Host} (it : Item) :
  _fallbackGenre it ∉ Object_prototype_keys ->
  genre_of it ∉ Object_prototype_keys.
Proof.
  intros Hf. unfold genre_of.
  destruct (pickGenre_range (title it) (source it) (_fallbackGenre it))
    as [->|H]; [exact Hf | apply rule_names_own, H].
Qed.

Section Items.
Context `{host : Host}.

Lemma request_item_origin (q : qparam) (env : Env) (st : State) (it : Item) :
  it ∈ request_items q env st ->
  exists f raws raw,
    (f, Fetched (Some raws)) ∈ settle env (feeds_of env st)
    /\ raw ∈ raws
    /\ normalize f (since q env) raw = Some it.
Proof.
  intros H. apply collect_spec, sorted_of_elem.
  apply (elem_of_sublist _ _ _ H (request_items_sublist q env st)).
Qed.

(** Whatever the value of [hours], every emitted item has a title and a url
    that are not empty and a [publishedAt] that renders the instant parsed
    from the entry; the instant is not below the window bound in the
    comparison of the handler. *)
Lemma emitted_items_wellformed (q : qparam) (env : Env) (st st' : State)
    (doc : ResponseDoc) (calls : list (list jsstring)) :
  handler q env st = (R200 doc, st', calls) ->
  forall g l o,
    genres doc !! g = Some l -> o ∈ l ->
    exists t w ms,
      get (u "title") o = Some (Some t) /\ t <> []
      /\ get (u "url") o = Some (Some w) /\ w <> []
      /\ get (u "publishedAt") o = Some (Some (Date_toISOString ms))
      /\ num_ltb (Fin (ofZ ms)) (since q env) = false.
Proof.
  intros H g l o Hg Ho.
  destruct (emitted_inv q env st st' doc calls g l o H Hg Ho)
    as [it [-> [_ [_ Hb]]]].
  apply request_item_origin in Hb as [f [raws [raw [_ [_ Hn]]]]].
  apply normalize_inv in Hn
    as [ms [_ [Hlt [_ [Ht [_ [Hu [Hp _]]]]]]]].
  simpl in Ht, Hu, Hp.
  exists (title it), (url it), ms.
  rewrite get_title_clean, get_url_clean, get_publishedAt_clean.
  split; [reflexivity|]. split; [exact Ht|].
  split; [reflexivity|]. split; [exact Hu|].
  split; [rewrite <- Hp; reflexivity | exact Hlt].
Qed.

(** With a numeric [hours] the window is respected: the instant of every
    emitted item is not earlier than 72 hours before the request, and not
    earlier than the request time minus [n] hours when [hours] is the
    integer [n]. *)
Lemma window_respected_when_numeric (q : qparam) (env : Env) (st st' : State)
    (doc : ResponseDoc) (calls : list (list jsstring)) (h : Qc) :
  handler q env st = (R200 doc, st', calls) ->
  hours_of q = Fin h ->
  time_value (now_req env) ->
  forall g l o,
    genres doc !! g = Some l -> o ∈ l ->
    exists t w ms,
      get (u "title") o = Some (Some t) /\ t <> []
      /\ get (u "url") o = Some (Some w) /\ w <> []
      /\ get (u "publishedAt") o = Some (Some (Date_toISOString ms))
      /\ now_req env - 72 * 3600000 <= ms
      /\ (forall n, h = ofZ n -> now_req env - n * 3600000 <= ms).
Proof.
  intros H Hh Hnow g l o Hg Ho.
  destruct (emitted_items_wellformed q env st st' doc calls H g l o Hg Ho)
    as [t [w [ms [Ht [Hte [Hw [Hwe [Hp Hlt]]]]]]]].
  exists t, w, ms. repeat (split; [assumption|]).
  destruct (hours_of_range q h Hh) as [H1 H72].
  unfold since in Hlt. rewrite Hh in Hlt. split.
  - destruct (since_of_between (now_req env) h Hnow H1 H72)
      as [s [Hs [Hs1 _]]].
    rewrite Hs in Hlt. simpl in Hlt.
    apply bool_decide_eq_false in Hlt. apply Qcnot_lt_le in Hlt.
    apply ofZ_le. eapply Qcle_trans; eassumption.
  - intros n ->.
    rewrite since_of_integer in Hlt
      by (try exact Hnow; split; apply ofZ_le; assumption).
    simpl in Hlt. apply bool_decide_eq_false in Hlt.
    apply Qcnot_lt_le in Hlt. apply ofZ_le, Hlt.
Qed.

(** The handler answers 500 exactly when an item of the request is
    classified under a name inherited from [Object.prototype]. *)
Lemma handler_500_iff (q : qparam) (env : Env) (st : State) :
  (exists st' calls, handler q env st = (R500, st', calls))
  <-> exists it, it ∈ request_items q env st
                 /\ genre_of it ∈ Object_prototype_keys.
Proof.
  assert (Hnone : group_loop ∅ (final_items q env st) = None
                  <-> exists it, it ∈ request_items q env st
                                 /\ genre_of it ∈ Object_prototype_keys).
  { rewrite group_loop_none by (intros g _; apply lookup_empty).
    rewrite <- (final_items_base q env st). split.
    - intros [it [Hit Hg]]. exists (base it).
      split; [apply list_elem_of_fmap_2, Hit | exact Hg].
    - intros [it [Hit Hg]]. apply list_elem_of_fmap in Hit as [x [-> Hx]].
      exists x. split; [exact Hx | exact Hg]. }
  rewrite <- Hnone. clear Hnone.
  destruct (handler_total q env st)
    as [[doc [Hgm [st' [calls H]]]]|[Hgm [st' [calls H]]]].
  - split.
    + intros [st2 [calls2 H2]]. congruence.
    + intros Hn. congruence.
  - split; [intros _; exact Hgm|]. intros _. exists st', calls. exact H.
Qed.

End Items.

(** The worked request with [hours=24]: one item, the copy of the entry
    published by feed A, under "Techno". *)
Example run24_response :
  exists doc,
    Example.run24 = (R200 doc, Example.run24.1.2, Example.run24.2)
    /\ hours doc = Fin (ofZ 24)
    /\ totalItems doc = 1%nat
    /\ map_to_list (genres doc)
       = [ (u "Techno",
            [ [ (u "id", Some (u "Feed A::http://a.example/techno-ep"));
                (u "title", Some (u "New Techno EP"));
                (u "url", Some (u "http://a.example/techno-ep"));
                (u "source", Some (u "Feed A"));
                (u "publishedAt", Some (u "2026-02-23T05:00:00.000Z"));
                (u "summary", None) ] ]) ].
Proof.
  exists (Example.doc_of Example.run24). vm_compute. repeat split.
Qed.

(** C5 fails on the code: for the request [?hours=abc] the value of [hours]
    is [NaN], the window bound is [NaN], no entry compares below it, and the
    entry of 1 January is served on 23 February.  It is more than 72 hours
    older than the request, so it lies outside every window the clamp
    allows. *)
Theorem stale_item_served_when_hours_not_numeric :
  exists doc l o,
    Example.runabc = (R200 doc, Example.runabc.1.2, Example.runabc.2)
    /\ hours doc = NaN
    /\ since Example.qabc Example.env = NaN
    /\ genres doc !! u "Rock" = Some l
    /\ o ∈ l
    /\ get (u "title") o = Some (Some (u "Quiet jazz release"))
    /\ get (u "publishedAt") o = Some (Some (u "2026-01-01T00:00:00.000Z"))
    /\ exists ms,
         IsoHost.parse (u "2026-01-01T00:00:00.000Z") = Some ms
         /\ ms < now_req Example.env - 72 * 3600000.
Proof.
  exists (Example.doc_of Example.runabc).
  eexists. eexists.
  split; [vm_compute; reflexivity|].
  split; [vm_compute; reflexivity|].
  split; [vm_compute; reflexivity|].
  split; [vm_compute; reflexivity|].
  split; [left|].
  split; [vm_compute; reflexivity|].
  split; [vm_compute; reflexivity|].
  eexists. split; [vm_compute; reflexivity|]. vm_compute. reflexivity.
Qed.

(* ===================================================================== *)
(** ** Shape of the response and isolation of failures *)
(* ===================================================================== *)

Lemma clean_keys (it : Item) :
  (clean it).*1
  = map u [ "id"; "title"; "url"; "source"; "publishedAt"; "summary" ]%string
    ++ match ja it with
       | None => []
       | Some _ => map u [ "titleJa"; "summaryJa" ]%string
       end.
Proof.
  rewrite clean_eq. destruct (ja it) as [[t s]|]; reflexivity.
Qed.

Section Shape.
Context `{host : Host}.

Lemma handler_effects (q : qparam) (env : Env) (st st' : State)
    (r : Response) (calls : list (list jsstring)) :
  handler q env st = (r, st', calls) ->
  let tr := translate (DEEPL_AUTH_KEY env) (provider env) (now_tl env)
                      (tlCache st) (request_items q env st) in
  tlCache st' = tr_cache tr /\ calls = tr_calls tr.
Proof.
  unfold handler, request_items, feeds_of.
  destruct (loadFeeds _ _ _ _) as [FEEDS fc]. simpl.
  destruct (group_loop ∅ _) as [gm|]; intros H; injection H as _ <- <-;
    split; reflexivity.
Qed.

(** C8, as stated, fails: the document of the worked request has six
    properties, [feedCount], [totalItems] and [feedsLoaded] besides the three
    of the claim, and [feedsLoaded] shows the default genre of every feed. *)
Lemma response_has_more_fields :
  exists doc,
    Example.run24 = (R200 doc, Example.run24.1.2, Example.run24.2)
    /\ doc_keys doc <> map u [ "generatedAt"; "hours"; "genres" ]%string
    /\ doc_keys doc
       = map u [ "generatedAt"; "hours"; "feedCount"; "totalItems";
                 "feedsLoaded"; "genres" ]%string
    /\ map defaultGenre (feedsLoaded doc) = [u "Pop"; u "Rock"; u "Pop"].
Proof.
  exists (Example.doc_of Example.run24).
  split; [vm_compute; reflexivity|].
  split; [intros H; vm_compute in H; discriminate H|].
  split; vm_compute; reflexivity.
Qed.

(** C8 (amended): the 200 document consists of [generatedAt] (the ISO
    rendering of the instant of the response), the echoed [hours],
    [feedCount], [totalItems], [feedsLoaded] (the feed descriptors, default
    genres included) and [genres]; every emitted item has exactly the
    properties id, title, url, source, publishedAt and summary, followed or
    not by titleJa and summaryJa, and never [_fallbackGenre]. *)
Theorem response_document_shape (q : qparam) (env : Env) (st st' : State)
    (doc : ResponseDoc) (calls : list (list jsstring)) :
  handler q env st = (R200 doc, st', calls) ->
  doc_keys doc
  = map u [ "generatedAt"; "hours"; "feedCount"; "totalItems";
            "feedsLoaded"; "genres" ]%string
  /\ generatedAt doc = Date_toISOString (now_resp env)
  /\ hours doc = hours_of q
  /\ feedCount doc = length (feeds_of env st)
  /\ totalItems doc = length (request_items q env st)
  /\ feedsLoaded doc = feeds_of env st
  /\ forall g l o,
       genres doc !! g = Some l -> o ∈ l ->
       (o.*1 = map u [ "id"; "title"; "url"; "source"; "publishedAt";
                       "summary" ]%string
        \/ o.*1 = map u [ "id"; "title"; "url"; "source"; "publishedAt";
                          "summary"; "titleJa"; "summaryJa" ]%string)
       /\ get (u "_fallbackGenre") o = None.
Proof.
  intros H. pose proof (handler_200 q env st st' doc calls H)
    as [_ [Hh [Hg [Hc [Ht Hf]]]]].
  split; [reflexivity|]. split; [exact Hg|]. split; [exact Hh|].
  split; [exact Hc|]. split; [exact Ht|]. split; [exact Hf|].
  intros g l o Hl Ho.
  destruct (emitted_inv q env st st' doc calls g l o H Hl Ho)
    as [it [-> _]].
  split; [|apply get_fallback_clean].
  rewrite clean_keys. destruct (ja it); [right | left]; reflexivity.
Qed.


End Shape.

(* ===================================================================== *)
(** ** Bound and cache of the translation stage *)
(* ===================================================================== *)

Lemma looksEnglish_ratio (s : jsstring) :
  looksEnglish s = true <-> (45 # 100 < letter_ratio s)%Q.
Proof.
  unfold looksEnglish, letter_ratio.
  set (letters := count_if is_letter s).
  set (ns := match count_if (fun c => negb (is_ws c)) s with
             | 0%N => 1%N
             | n => n
             end).
  assert (Hns : (1 <= ns)%N).
  { unfold ns. destruct (count_if (fun c => negb (is_ws c)) s); lia. }
  rewrite N.ltb_lt. unfold Qlt. simpl.
  rewrite Z2Pos.id by lia. lia.
Qed.

Lemma positions_spec {A} (f : A -> bool) (l : list A) (i p : nat) :
  p ∈ positions f i l
  <-> (i <= p)%nat /\ exists x, l !! (p - i)%nat = Some x /\ f x = true.
Proof.
  revert i. induction l as [|a l IH]; intros i; simpl.
  - split; [intros H; inversion H | intros [_ [x [H _]]]; discriminate H].
  - assert (Hrest : p ∈ positions f (S i) l
                    <-> (S i <= p)%nat
                        /\ exists x, l !! (p - S i)%nat = Some x /\ f x = true)
      by apply IH.
    destruct (f a) eqn:Ea.
    + rewrite elem_of_cons, Hrest. split.
      * intros [->|[Hle [x [Hx Hf]]]].
        -- split; [lia|]. exists a. rewrite Nat.sub_diag. split; [reflexivity|exact Ea].
        -- split; [lia|]. exists x. split; [|exact Hf].
           replace (p - i)%nat with (S (p - S i)) by lia. exact Hx.
      * intros [Hle [x [Hx Hf]]].
        destruct (decide (p = i)) as [->|NE]; [left; reflexivity|].
        right. split; [lia|]. exists x. split; [|exact Hf].
        replace (p - i)%nat with (S (p - S i)) in Hx by lia. exact Hx.
    + rewrite Hrest. split.
      * intros [Hle [x [Hx Hf]]]. split; [lia|]. exists x. split; [|exact Hf].
        replace (p - i)%nat with (S (p - S i)) by lia. exact Hx.
      * intros [Hle [x [Hx Hf]]].
        destruct (decide (p = i)) as [->|NE].
        -- rewrite Nat.sub_diag in Hx. simpl in Hx. congruence.
        -- split; [lia|]. exists x. split; [|exact Hf].
           replace (p - i)%nat with (S (p - S i)) in Hx by lia. exact Hx.
Qed.

Lemma positions_sorted {A} (f : A -> bool) (l : list A) (i : nat) :
  StronglySorted lt (positions f i l).
Proof.
  revert i. induction l as [|a l IH]; intros i; simpl; [constructor|].
  destruct (f a); [|apply IH].
  constructor; [apply IH|].
  apply Forall_forall. intros p Hp. apply positions_spec in Hp as [Hle _].
  lia.
Qed.

Lemma StronglySorted_lt_NoDup (l : list nat) : StronglySorted lt l -> NoDup l.
Proof.
  induction 1 as [|x l Hs IH Hx]; constructor; [|exact IH].
  intros Hin. apply (proj1 (Forall_forall _ _) Hx) in Hin. lia.
Qed.

Lemma filter_sublist {A} (f : A -> bool) (l : list A) :
  sublist (List.filter f l) l.
Proof.
  induction l as [|a l IH]; simpl; [constructor|].
  destruct (f a); [apply sublist_skip | apply sublist_cons]; exact IH.
Qed.

Lemma cacheKey_eq (t : Item) :
  cacheKey t = title t ++ u "|||" ++ or_empty (summary t).
Proof.
  unfold cacheKey. destruct (summary t) as [[|c s]|]; reflexivity.
Qed.

Section Bound.
Context `{host : Host}.

Lemma handler_calls (q : qparam) (env : Env) (st : State) :
  (handler q env st).2
  = tr_calls (translate (DEEPL_AUTH_KEY env) (provider env) (now_tl env)
                        (tlCache st) (request_items q env st)).
Proof.
  destruct (handler q env st) as [[r st'] calls] eqn:E.
  apply handler_effects in E as [_ ->]. reflexivity.
Qed.

Lemma request_item_untranslated (q : qparam) (env : Env) (st : State)
    (p : nat) (t : Item) :
  request_items q env st !! p = Some t -> ja t = None.
Proof.
  intros Hp.
  assert (Hb : (base <$> request_items q env st) !! p = Some t)
    by (rewrite request_items_base; exact Hp).
  rewrite list_lookup_fmap, Hp in Hb. simpl in Hb. injection Hb as Hb.
  rewrite <- Hb. reflexivity.
Qed.

(** C7 (amended): in this handler, where [TRANSLATE_LIMIT] is 40, the
    candidates of a request are the items whose title has a letter ratio
    above 0.45, in the order of the de-duplicated sequence; the items
    submitted to the provider are among the first 40 candidates, so at most
    40, submitted in one call and in that order; a candidate beyond the 40th
    is not submitted and leaves the stage as it entered it, without
    [titleJa] and [summaryJa]. *)
Theorem translation_bounded (q : qparam) (env : Env) (st : State) :
  let items := request_items q env st in
  let sub := submitted (tlCache st) (now_tl env) items in
  let calls := (handler q env st).2 in
  (forall p, p ∈ targets items
             <-> exists t, items !! p = Some t
                           /\ (45 # 100 < letter_ratio (title t))%Q)
  /\ StronglySorted lt (targets items)
  /\ sublist sub (take 40 (targets items))
  /\ (length sub <= 40)%nat
  /\ (calls = [] \/ calls = [flat_map (texts_at items) sub])
  /\ (forall j p,
        targets items !! j = Some p -> (40 <= j)%nat ->
        (p ∉ sub)
        /\ exists t, final_items q env st !! p = Some t
                     /\ items !! p = Some t
                     /\ ja t = None).
Proof.
  intros items sub calls.
  assert (Hsub : sublist sub (take 40 (targets items)))
    by apply filter_sublist.
  assert (Hbeyond : forall j p, targets items !! j = Some p -> (40 <= j)%nat ->
                                p ∉ take 40 (targets items)).
  { intros j p Hj Hge Hin.
    apply list_elem_of_lookup in Hin as [j' Hj'].
    apply lookup_take_Some in Hj' as [Hj' Hlt].
    pose proof (StronglySorted_lt_NoDup _ (positions_sorted
                  (fun it => looksEnglish (title it)) items 0)) as Hnd.
    pose proof (NoDup_lookup _ j j' p Hnd Hj Hj'). lia. }
  split; [|split; [|split; [|split; [|split]]]].
  - intros p. unfold targets. rewrite positions_spec, Nat.sub_0_r. split.
    + intros [_ [t [Ht He]]]. exists t. split; [exact Ht|].
      apply looksEnglish_ratio, He.
    + intros [t [Ht He]]. split; [lia|]. exists t. split; [exact Ht|].
      apply looksEnglish_ratio, He.
  - apply positions_sorted.
  - exact Hsub.
  - apply sublist_length in Hsub. rewrite length_take in Hsub. lia.
  - unfold calls. rewrite handler_calls, translate_calls.
    destruct (negb _ && _); [right | left]; reflexivity.
  - intros j p Hj Hge. pose proof (Hbeyond j p Hj Hge) as Hout. split.
    + intros Hin. apply Hout. exact (elem_of_sublist _ _ _ Hin Hsub).
    + assert (Hp : p ∈ targets items)
        by (apply list_elem_of_lookup; exists j; exact Hj).
      unfold targets in Hp. apply positions_spec in Hp as [_ [t [Ht _]]].
      rewrite Nat.sub_0_r in Ht. exists t.
      split; [|split; [exact Ht|]].
      * unfold final_items. rewrite translate_outside by exact Hout.
        exact Ht.
      * exact (request_item_untranslated q env st p t Ht).
Qed.

(** C6: translation is cached under the key title|||summary for
    [TL_TTL_MS], six hours.  When a request has translated a pair by a
    provider call that succeeded, the entry of the pair carries the time of
    that call; a later request within the TTL finds the entry and does not
    submit the pair again: its item is the item of the feed with the
    [titleJa] and the [summaryJa] of the entry as its translation, and the
    object emitted for it in a 200 response has these two as its [titleJa]
    and [summaryJa] properties; a later request at or after the TTL finds
    no live entry, submits the pair, and a successful call overwrites the
    entry with the new time.  No request makes more than one call. *)
Theorem translation_cache_idempotent
    (q1 q2 : qparam) (env1 env2 : Env) (st0 st1 st2 : State)
    (r1 r2 : Response) (calls1 calls2 : list (list jsstring))
    (p1 p2 : nat) (t1 t2 : Item) :
  handler q1 env1 st0 = (r1, st1, calls1) ->
  handler q2 env2 st1 = (r2, st2, calls2) ->
  p1 ∈ limitedTargets (request_items q1 env1 st0) ->
  request_items q1 env1 st0 !! p1 = Some t1 ->
  p2 ∈ limitedTargets (request_items q2 env2 st1) ->
  request_items q2 env2 st1 !! p2 = Some t2 ->
  title t2 = title t1 -> summary t2 = summary t1 ->
  live_entry (tlCache st0) (now_tl env1) (cacheKey t1) = None ->
  DEEPL_AUTH_KEY env1 = true ->
  (exists o out,
      provider env1 (need_of (tlCache st0) (now_tl env1)
                             (request_items q1 env1 st0))
      = ProviderReturns (o :: out)) ->
  let key := title t1 ++ u "|||" ++ or_empty (summary t1) in
  let items2 := request_items q2 env2 st1 in
  let sub2 := submitted (tlCache st1) (now_tl env2) items2 in
  TL_TTL_MS = 6 * 60 * 60 * 1000
  /\ (length calls1 <= 1)%nat /\ (length calls2 <= 1)%nat
  /\ exists e,
       tlCache st1 !! key = Some e /\ c_t e = now_tl env1
       /\ (now_tl env2 - now_tl env1 < TL_TTL_MS ->
           (exists t2',
               final_items q2 env2 st1 !! p2 = Some t2'
               /\ base t2' = base t2
               /\ ja t2' = Some (c_titleJa e, c_summaryJa e)
               /\ get (u "titleJa") (clean t2') = Some (c_titleJa e)
               /\ get (u "summaryJa") (clean t2') = Some (c_summaryJa e)
               /\ forall doc,
                    r2 = R200 doc ->
                    exists l, genres doc !! genre_of t2 = Some l
                              /\ clean t2' ∈ l)
           /\ (p2 ∉ sub2)
           /\ (calls2 = [] \/ calls2 = [flat_map (texts_at items2) sub2]))
       /\ (TL_TTL_MS <= now_tl env2 - now_tl env1 ->
           (p2 ∈ sub2)
           /\ (DEEPL_AUTH_KEY env2 = true ->
               calls2 = [flat_map (texts_at items2) sub2]
               /\ title t2 ∈ flat_map (texts_at items2) sub2
               /\ forall o out,
                    provider env2 (flat_map (texts_at items2) sub2)
                    = ProviderReturns (o :: out) ->
                    exists e', tlCache st2 !! key = Some e'
                               /\ c_t e' = now_tl env2)).
Proof.
  intros H1 H2 Hp1 Ht1 Hp2 Ht2 Etitle Esummary Hmiss Hkey [o [out Hprov]]
         key items2 sub2.
  pose proof (handler_effects q1 env1 st0 st1 r1 calls1 H1) as [Hc1 Hcalls1].
  pose proof (handler_effects q2 env2 st1 st2 r2 calls2 H2) as [Hc2 Hcalls2].
  simpl in Hc1, Hcalls1, Hc2, Hcalls2.
  assert (Ekey1 : cacheKey t1 = key) by apply cacheKey_eq.
  assert (Ekey2 : cacheKey t2 = key).
  { rewrite cacheKey_eq, Etitle, Esummary. reflexivity. }
  assert (Hcalls2' : calls2 = [] \/ calls2 = [flat_map (texts_at items2) sub2]).
  { rewrite Hcalls2, translate_calls.
    destruct (negb _ && _); [right | left]; reflexivity. }
  split; [reflexivity|]. split.
  { rewrite Hcalls1, translate_calls. destruct (negb _ && _); simpl; lia. }
  split.
  { destruct Hcalls2' as [->| ->]; simpl; lia. }
  destruct (translate_fresh (DEEPL_AUTH_KEY env1) (provider env1)
              (now_tl env1) (tlCache st0) (request_items q1 env1 st0)
              p1 t1 o out Hkey Hprov Hp1 Ht1 Hmiss) as [e [He Het]].
  rewrite <- Hc1, Ekey1 in He.
  exists e. split; [exact He|]. split; [exact Het|]. split.
  - intros Hwithin.
    assert (Hlive : live_entry (tlCache st1) (now_tl env2) (cacheKey t2)
                    = Some e).
    { unfold live_entry. rewrite Ekey2, He, Het.
      destruct (now_tl env2 - now_tl env1 <? TL_TTL_MS) eqn:E;
        [reflexivity|]. apply Z.ltb_ge in E. lia. }
    split; [|split; [|exact Hcalls2']].
    + assert (Hfinal : final_items q2 env2 st1 !! p2
                       = Some (set_ja (c_titleJa e, c_summaryJa e) t2))
        by (unfold final_items; apply translate_hit; assumption).
      exists (set_ja (c_titleJa e, c_summaryJa e) t2).
      split; [exact Hfinal|]. split; [reflexivity|]. split; [reflexivity|].
      split; [rewrite clean_eq; reflexivity|].
      split; [rewrite clean_eq; reflexivity|].
      intros doc ->.
      pose proof (handler_200 q2 env2 st1 st2 doc calls2 H2) as [Hgm _].
      pose proof (group_empty _ _ (genre_of t2) Hgm) as Hg.
      assert (Hin : set_ja (c_titleJa e, c_summaryJa e) t2
                    ∈ items_of_genre (genre_of t2) (final_items q2 env2 st1)).
      { apply items_of_genre_elem. split; [|reflexivity].
        apply list_elem_of_lookup. exists p2. exact Hfinal. }
      destruct (items_of_genre (genre_of t2) (final_items q2 env2 st1))
        as [|x l]; [inversion Hin|].
      exists (clean <$> x :: l). split; [exact Hg|].
      apply list_elem_of_fmap. eexists. split; [reflexivity | exact Hin].
    + unfold sub2, submitted, missing. intros Hin.
      apply list_elem_of_In, filter_In in Hin as [_ Hm].
      unfold misses_at in Hm. fold items2 in Ht2. rewrite Ht2, Hlive in Hm.
      discriminate Hm.
  - intros Hexpired.
    assert (Hdead : live_entry (tlCache st1) (now_tl env2) (cacheKey t2)
                    = None).
    { unfold live_entry. rewrite Ekey2, He, Het.
      destruct (now_tl env2 - now_tl env1 <? TL_TTL_MS) eqn:E;
        [|reflexivity]. apply Z.ltb_lt in E. lia. }
    assert (Hin : p2 ∈ sub2).
    { unfold sub2, submitted, missing. apply list_elem_of_In, filter_In.
      split; [apply list_elem_of_In, Hp2|].
      unfold misses_at. fold items2 in Ht2. rewrite Ht2, Hdead. reflexivity. }
    split; [exact Hin|]. intros Hkey2.
    assert (Htext : title t2 ∈ flat_map (texts_at items2) sub2).
    { apply list_elem_of_In, in_flat_map. exists p2.
      split; [apply list_elem_of_In, Hin|].
      unfold texts_at. fold items2 in Ht2. rewrite Ht2. left. reflexivity. }
    split; [|split; [exact Htext|]].
    + rewrite Hcalls2, translate_calls, Hkey2.
      fold items2. unfold need_of. fold sub2.
      destruct (flat_map (texts_at items2) sub2); [inversion Htext|].
      reflexivity.
    + intros o' out' Hprov2.
      destruct (translate_fresh (DEEPL_AUTH_KEY env2) (provider env2)
                  (now_tl env2) (tlCache st1) items2 p2 t2 o' out'
                  Hkey2 Hprov2 Hp2 Ht2 Hdead) as [e' [He' Het']].
      unfold items2 in He'. rewrite <- Hc2, Ekey2 in He'.
      exists e'. split; assumption.
Qed.

End Bound.

(* ===================================================================== *)
(** ** Facts about [trim] *)
(* ===================================================================== *)

Lemma trimStart_no_lead (s : jsstring) : no_lead (trimStart s).
Proof.
  induction s as [|c s IH]; simpl; [exact I|].
  destruct (is_ws c) eqn:E; [exact IH | simpl; exact E].
Qed.

Lemma trimStart_fixed (s : jsstring) : no_lead s -> trimStart s = s.
Proof.
  destruct s as [|c s]; simpl; [reflexivity|]. intros ->. reflexivity.
Qed.

Lemma trimStart_suffix (s : jsstring) :
  exists ws, s = ws ++ trimStart s /\ Forall (fun c => is_ws c = true) ws.
Proof.
  induction s as [|c s [ws [E Hws]]]; simpl.
  - exists []. split; [reflexivity | constructor].
  - destruct (is_ws c) eqn:Ec.
    + exists (c :: ws). split; [simpl; rewrite <- E; reflexivity|].
      constructor; assumption.
    + exists []. split; [reflexivity | constructor].
Qed.

Lemma trimEnd_prefix (s : jsstring) :
  exists ws, s = trimEnd s ++ ws /\ Forall (fun c => is_ws c = true) ws.
Proof.
  unfold trimEnd. destruct (trimStart_suffix (rev s)) as [ws [E Hws]].
  exists (rev ws). split.
  - rewrite <- rev_app_distr, <- E, rev_involutive. reflexivity.
  - apply Forall_forall. intros c Hc. apply list_elem_of_In, in_rev in Hc.
    apply (proj1 (Forall_forall _ _) Hws), list_elem_of_In, Hc.
Qed.

Lemma trimEnd_no_trail (s : jsstring) : no_trail (trimEnd s).
Proof.
  unfold no_trail, trimEnd. rewrite rev_involutive. apply trimStart_no_lead.
Qed.

Lemma trimEnd_fixed (s : jsstring) : no_trail s -> trimEnd s = s.
Proof.
  unfold no_trail, trimEnd. intros H. rewrite (trimStart_fixed _ H).
  apply rev_involutive.
Qed.

Lemma trimEnd_no_lead (s : jsstring) : no_lead s -> no_lead (trimEnd s).
Proof.
  intros H. destruct (trimEnd_prefix s) as [ws [E _]].
  destruct (trimEnd s) as [|c r]; [exact I|].
  rewrite E in H. exact H.
Qed.

Lemma trim_no_lead (s : jsstring) : no_lead (trim s).
Proof. apply trimEnd_no_lead, trimStart_no_lead. Qed.

Lemma trim_no_trail (s : jsstring) : no_trail (trim s).
Proof. apply trimEnd_no_trail. Qed.

Lemma trim_fixed (s : jsstring) : no_lead s -> no_trail s -> trim s = s.
Proof.
  intros Hl Ht. unfold trim. rewrite (trimStart_fixed s Hl).
  apply trimEnd_fixed, Ht.
Qed.

Lemma trim_idem (s : jsstring) : trim (trim s) = trim s.
Proof. apply trim_fixed; [apply trim_no_lead | apply trim_no_trail]. Qed.

Lemma trim_ne_no_ws (s : jsstring) :
  trim s <> [] -> exists c, c ∈ s /\ is_ws c = false.
Proof.
  intros H. pose proof (trim_no_lead s) as Hl.
  destruct (trim s) as [|c r] eqn:E; [contradiction|].
  exists c. split; [|exact Hl].
  unfold trim in E. destruct (trimEnd_prefix (trimStart s)) as [ws1 [E1 _]].
  destruct (trimStart_suffix s) as [ws0 [E0 _]].
  rewrite E in E1. rewrite E0, E1.
  apply elem_of_app. right. left.
Qed.

(* ===================================================================== *)
(** ** Further properties of the feed table *)
(* ===================================================================== *)

Lemma fallback_feeds_wf : Forall feed_wf FEEDS_FALLBACK.
Proof.
  unfold FEEDS_FALLBACK.
  repeat (apply Forall_cons; split;
          [repeat split; discriminate|]).
  apply Forall_nil. exact I.
Qed.

Lemma row_feed_wf (r : gmap jsstring jsstring) :
  feed_usable (row_feed r) = true -> feed_wf (row_feed r).
Proof.
  unfold feed_usable. rewrite andb_true_iff, !negb_true_iff, !is_empty_false.
  intros [Hs Hu]. split; [exact Hs|]. split; [exact Hu|].
  simpl. destruct (is_empty (trim _)) eqn:E; [discriminate|].
  apply is_empty_false, E.
Qed.

Lemma feeds_of_rows_wf `{host : Host} (rows : list (gmap jsstring jsstring)) :
  Forall feed_wf (feeds_of_rows rows).
Proof.
  apply Forall_forall. intros f Hf. unfold feeds_of_rows in Hf.
  apply list_elem_of_In, filter_In in Hf as [Hin Hu].
  apply in_map_iff in Hin as [r [<- _]]. apply row_feed_wf, Hu.
Qed.

Lemma initial_cache_good : good_cache feedsCache0.
Proof. split; [discriminate | apply fallback_feeds_wf]. Qed.

Lemma handler_feedsCache `{host : Host} (q : qparam) (env : Env) (st : State) :
  feedsCache (handler q env st).1.2
  = (loadFeeds (now_feeds env) (FEEDS_CSV_URL env) (csv env)
               (feedsCache st)).2.
Proof.
  unfold handler. destruct (loadFeeds _ _ _ _) as [FEEDS fc']. simpl.
  destruct (group_loop ∅ _); reflexivity.
Qed.

Lemma loadFeeds_good `{host : Host} (now : Z) (csv_url : bool) (res : CsvOutcome)
    (fc : FeedsCache) :
  good_cache fc ->
  (loadFeeds now csv_url res fc).1
  = fc_feeds (loadFeeds now csv_url res fc).2
  /\ good_cache (loadFeeds now csv_url res fc).2.
Proof.
  intros Hgood.
  assert (Hfb : good_cache {| fc_at := now; fc_feeds := FEEDS_FALLBACK |})
    by (split; [discriminate | apply fallback_feeds_wf]).
  unfold loadFeeds.
  destruct (now - fc_at fc <? FEEDS_CACHE_MS); [split; [reflexivity|exact Hgood]|].
  destruct csv_url; simpl; [|split; [reflexivity | exact Hfb]].
  destruct res as [| |text]; try (split; [reflexivity | exact Hfb]).
  destruct (feeds_of_rows (parseCsv text)) as [|f fs] eqn:E; simpl;
    [split; [reflexivity | exact Hfb]|].
  split; [reflexivity|]. split; [discriminate|]. simpl. rewrite <- E.
  apply feeds_of_rows_wf.
Qed.

Lemma feeds_of_wf `{host : Host} (env : Env) (st : State) :
  good_cache (feedsCache st) ->
  feeds_of env st <> [] /\ Forall feed_wf (feeds_of env st).
Proof.
  intros H. unfold feeds_of.
  destruct (loadFeeds_good (now_feeds env) (FEEDS_CSV_URL env) (csv env)
              (feedsCache st) H) as [-> [Hne Hwf]].
  split; assumption.
Qed.

(** X1: [loadFeeds] never hands out an empty list, and every descriptor it
    hands out has a source, a url and a default genre that are not empty.
    This holds from the initial cache on, because each call keeps the cache
    in that state; the handler keeps it across requests, whatever its
    response. *)
Theorem loadFeeds_never_empty `{host : Host} (now : Z) (csv_url : bool) (res : CsvOutcome)
    (fc : FeedsCache) :
  good_cache fc ->
  (loadFeeds now csv_url res fc).1 <> []
  /\ Forall feed_wf (loadFeeds now csv_url res fc).1
  /\ (loadFeeds now csv_url res fc).1 = fc_feeds (loadFeeds now csv_url res fc).2
  /\ good_cache (loadFeeds now csv_url res fc).2
  /\ forall (host : Host) q env st,
       feedsCache st = fc ->
       good_cache (feedsCache (handler q env st).1.2).
Proof.
  intros Hgood.
  assert (Hfb : good_cache {| fc_at := now; fc_feeds := FEEDS_FALLBACK |})
    by (split; [discriminate | apply fallback_feeds_wf]).
  destruct (loadFeeds_good now csv_url res fc Hgood) as [E [Hne Hwf]].
  split; [rewrite E; exact Hne|]. split; [rewrite E; exact Hwf|].
  split; [exact E|]. split; [split; assumption|].
  intros host' q env st <-. rewrite handler_feedsCache.
  apply (loadFeeds_good (host := host') (now_feeds env) (FEEDS_CSV_URL env)
           (csv env) (feedsCache st) Hgood).
Qed.

Section NeverEmptyExample.
#[local] Existing Instance IsoHost.host.

Lemma loadFeeds_never_empty_witness :
  (loadFeeds 0 true CsvFails feedsCache0).1 <> []
  /\ good_cache (loadFeeds 0 true CsvFails feedsCache0).2.
Proof.
  destruct (loadFeeds_never_empty 0 true CsvFails feedsCache0)
    as [H [_ [_ [Hg _]]]].
  - split; [discriminate | apply fallback_feeds_wf].
  - split; assumption.
Defined.

End NeverEmptyExample.

(** X2: a refresh is pinned for ten minutes.  Once the cache has expired, a
    call stamps the cache with its own time, and every call made less than
    [FEEDS_CACHE_MS] later returns the same list and leaves the cache as it
    is, whatever the table has become.  A refresh that fails (no url set,
    fetch failed, status not ok) pins the static list, even when the cache
    held a loaded table before. *)
Theorem loadFeeds_refresh_pinned `{host : Host} (now1 now2 : Z) (u1 u2 : bool)
    (c1 c2 : CsvOutcome) (fc : FeedsCache) :
  FEEDS_CACHE_MS <= now1 - fc_at fc ->
  now2 - now1 < FEEDS_CACHE_MS ->
  fc_at (loadFeeds now1 u1 c1 fc).2 = now1
  /\ loadFeeds now2 u2 c2 (loadFeeds now1 u1 c1 fc).2
     = loadFeeds now1 u1 c1 fc
  /\ (u1 = false \/ c1 = CsvFails \/ c1 = CsvNotOk
      \/ (exists t, c1 = CsvText t /\ feeds_of_rows (parseCsv t) = []) ->
      (loadFeeds now1 u1 c1 fc).1 = FEEDS_FALLBACK).
Proof.
  intros Hexp Hnear.
  assert (Hshape : fc_at (loadFeeds now1 u1 c1 fc).2 = now1
                   /\ (loadFeeds now1 u1 c1 fc).1
                      = fc_feeds (loadFeeds now1 u1 c1 fc).2).
  { unfold loadFeeds.
    destruct (now1 - fc_at fc <? FEEDS_CACHE_MS) eqn:E;
      [apply Z.ltb_lt in E; lia|].
    destruct u1; simpl; [|split; reflexivity].
    destruct c1; split; reflexivity. }
  destruct Hshape as [Hat Hfeeds]. split; [exact Hat|]. split.
  - destruct (loadFeeds now1 u1 c1 fc) as [f1 fc1]. simpl in *.
    unfold loadFeeds. rewrite Hat.
    destruct (now2 - now1 <? FEEDS_CACHE_MS) eqn:E;
      [rewrite Hfeeds; reflexivity | apply Z.ltb_ge in E; lia].
  - intros Hfail. unfold loadFeeds.
    destruct (now1 - fc_at fc <? FEEDS_CACHE_MS) eqn:E;
      [apply Z.ltb_lt in E; lia|].
    destruct Hfail as [->|[->|[->|[t [-> Ht]]]]]; [reflexivity | | |];
      destruct u1; try reflexivity.
    simpl. rewrite Ht. reflexivity.
Qed.

Section RefreshPinnedExample.
#[local] Existing Instance IsoHost.host.

Lemma loadFeeds_refresh_pinned_witness :
  loadFeeds (Example.now + 1000) true (CsvText Example.table)
            (loadFeeds Example.now true CsvFails feedsCache0).2
  = loadFeeds Example.now true CsvFails feedsCache0.
Proof.
  apply (loadFeeds_refresh_pinned Example.now (Example.now + 1000) true true
           CsvFails (CsvText Example.table) feedsCache0).
  - vm_compute. discriminate.
  - vm_compute. reflexivity.
Defined.

End RefreshPinnedExample.

(* ===================================================================== *)
(** ** The CSV reader *)
(* ===================================================================== *)

Lemma parseCsv_rows (text : jsstring) :
  parseCsv text =
  match csv_rows text with
  | [] => []
  | row0 :: data =>
      map (fun cols => row_object (map trim row0) 0 cols ∅)
          (List.filter row_not_blank data)
  end.
Proof. reflexivity. Qed.

Lemma lookup_assign (h v : jsstring) (o : gmap jsstring jsstring)
    (k : jsstring) :
  assign h v o !! k
  = if bool_decide (k = h /\ h <> u "__proto__") then Some v else o !! k.
Proof.
  unfold assign. destruct (bool_decide_reflect (h = u "__proto__")) as [E|E].
  - rewrite bool_decide_eq_false_2 by tauto. reflexivity.
  - destruct (decide (k = h)) as [->|Hne].
    + rewrite bool_decide_eq_true_2 by tauto. apply lookup_insert_eq.
    + rewrite bool_decide_eq_false_2 by tauto.
      apply lookup_insert_ne. congruence.
Qed.

Lemma row_object_other (header : list jsstring) (c : nat)
    (cols : list jsstring) (o : gmap jsstring jsstring) (k : jsstring) :
  k ∉ header -> row_object header c cols o !! k = o !! k.
Proof.
  revert c o. induction header as [|h rest IH]; intros c o Hk; simpl;
    [reflexivity|].
  rewrite IH by (intros ?; apply Hk; right; assumption).
  rewrite lookup_assign, bool_decide_eq_false_2; [reflexivity|].
  intros [-> _]. apply Hk. left.
Qed.

Lemma row_object_last (header : list jsstring) (c : nat)
    (cols : list jsstring) (o : gmap jsstring jsstring) (j : nat)
    (h : jsstring) :
  h <> u "__proto__" ->
  header !! j = Some h ->
  (forall j', (j < j')%nat -> header !! j' <> Some h) ->
  row_object header c cols o !! h
  = Some (trim (default [] (cols !! (c + j)%nat))).
Proof.
  intros Hp.
  revert c o j. induction header as [|h0 rest IH]; intros c o j Hj Hlast;
    [discriminate|].
  simpl. destruct j as [|j]; simpl in Hj.
  - injection Hj as ->. rewrite row_object_other.
    + rewrite lookup_assign, bool_decide_eq_true_2, Nat.add_0_r by tauto.
      reflexivity.
    + intros Hin. apply list_elem_of_lookup in Hin as [j' Hj'].
      apply (Hlast (S j')); [lia | exact Hj'].
  - rewrite (IH (S c) _ j Hj).
    + replace (S c + j)%nat with (c + S j)%nat by lia. reflexivity.
    + intros j' Hlt. apply (Hlast (S j')). lia.
Qed.

Lemma row_object_dom (header : list jsstring) (c : nat)
    (cols : list jsstring) (k : jsstring) :
  is_Some (row_object header c cols ∅ !! k)
  <-> k ∈ header /\ k <> u "__proto__".
Proof.
  enough (H : forall o, is_Some (row_object header c cols o !! k)
                        <-> (k ∈ header /\ k <> u "__proto__")
                            \/ is_Some (o !! k)).
  { rewrite H, lookup_empty. split; [intros [?|[? ?]]|intros ?].
    - assumption.
    - discriminate.
    - left; assumption. }
  revert c. induction header as [|h rest IH]; intros c o; simpl.
  - rewrite elem_of_nil. tauto.
  - rewrite IH, elem_of_cons, lookup_assign.
    destruct (bool_decide_reflect (k = h /\ h <> u "__proto__"))
      as [[-> Hp]|Hn].
    + split; [intros _|intros _].
      * left. split; [left; reflexivity | exact Hp].
      * right. eexists; reflexivity.
    + split; [tauto|]. intros [[[->|Hin] Hp]|Ho]; [|tauto|tauto].
      exfalso. apply Hn. split; [reflexivity | exact Hp].
Qed.

Lemma row_object_trimmed (header : list jsstring) (c : nat)
    (cols : list jsstring) (o : gmap jsstring jsstring) :
  (forall k v, o !! k = Some v -> trim v = v) ->
  forall k v, row_object header c cols o !! k = Some v -> trim v = v.
Proof.
  revert c o. induction header as [|h rest IH]; intros c o Ho k v; simpl.
  - apply Ho.
  - apply IH. intros k' v'. rewrite lookup_assign.
    destruct (bool_decide _); [|apply Ho].
    intros [= <-]. apply trim_idem.
Qed.

(** X3: what [parseCsv] returns.  Every object comes from a data row that
    has a cell which is not blank; its keys are the trimmed names of the
    first row other than [__proto__], whatever the number of cells of the
    data row (missing cells read as the empty string, cells beyond the
    header are dropped); every value is trimmed; and a name other than
    [__proto__] that heads several columns takes the cell of the last of
    them.  A text without rows, or with a header only, gives no object.
    Under the name [__proto__] nothing is stored: the assignment reaches
    the accessor inherited from [Object.prototype], which ignores a
    string. *)
Theorem parseCsv_objects (text : jsstring) :
  (length (csv_rows text) <= 1 -> parseCsv text = [])%nat
  /\ forall o, o ∈ parseCsv text ->
     exists row0 data cols,
       csv_rows text = row0 :: data
       /\ cols ∈ data
       /\ (exists c, c ∈ cols /\ trim c <> [])
       /\ (forall k, is_Some (o !! k)
                     <-> k ∈ map trim row0 /\ k <> u "__proto__")
       /\ (forall k v, o !! k = Some v -> trim v = v)
       /\ (forall j h, map trim row0 !! j = Some h ->
             h <> u "__proto__" ->
             (forall j', (j < j')%nat -> map trim row0 !! j' <> Some h) ->
             o !! h = Some (trim (default [] (cols !! j)))).
Proof.
  rewrite parseCsv_rows. split.
  - destruct (csv_rows text) as [|row0 [|r data]]; simpl; intros H;
      [reflexivity | reflexivity | lia].
  - intros o Ho. destruct (csv_rows text) as [|row0 data];
      [apply elem_of_nil in Ho; contradiction|].
    apply list_elem_of_fmap in Ho as [cols [-> Hcols]].
    apply list_elem_of_In, filter_In in Hcols as [Hin Hnb].
    exists row0, data, cols. split; [reflexivity|].
    split; [apply list_elem_of_In; exact Hin|]. split; [|split; [|split]].
    + unfold row_not_blank in Hnb. apply existsb_exists in Hnb as [c [Hc Hne]].
      exists c. split; [apply list_elem_of_In; exact Hc|].
      apply negb_true_iff, is_empty_false in Hne. exact Hne.
    + intros k. apply row_object_dom.
    + apply row_object_trimmed. intros k v. rewrite lookup_empty. discriminate.
    + intros j h Hj Hp Hlast.
      apply (row_object_last _ 0 cols ∅ j h Hp Hj Hlast).
Qed.

(** The scan of a quoted cell. *)
Lemma csv_scan_in_quotes (s rest : jsstring) (st : CsvScan) :
  inQuotes st = true ->
  head rest <> Some 34%N ->
  csv_scan (flat_map (fun c => if (c =? 34)%N then [34%N; 34%N] else [c]) s
            ++ 34%N :: rest) st
  = csv_scan rest {| cs_rows := cs_rows st; cs_row := cs_row st;
                     cs_cell := cs_cell st ++ s; inQuotes := false |}.
Proof.
  intros Hq Hrest. revert st Hq.
  induction s as [|c s IH]; intros st Hq.
  - cbn [flat_map app csv_scan]. rewrite Hq, N.eqb_refl, app_nil_r.
    destruct rest as [|c rest]; [reflexivity|].
    destruct (decide (c = 34%N)) as [->|Hne]; [simpl in Hrest; congruence|].
    destruct c as [|p]; [reflexivity|].
    repeat (destruct p as [p|p|]; try reflexivity). congruence.
  - cbn [flat_map]. destruct (c =? 34)%N eqn:E.
    + apply N.eqb_eq in E. subst c. cbn [app csv_scan].
      rewrite Hq, N.eqb_refl. rewrite IH by reflexivity. cbn.
      rewrite <- app_assoc. reflexivity.
    + cbn [app csv_scan]. rewrite Hq, E. rewrite IH by reflexivity. cbn.
      rewrite <- app_assoc. reflexivity.
Qed.

Lemma csv_scan_quote (s rest : jsstring) (st : CsvScan) :
  inQuotes st = false ->
  head rest <> Some 34%N ->
  csv_scan (csv_quote s ++ rest) st
  = csv_scan rest {| cs_rows := cs_rows st; cs_row := cs_row st;
                     cs_cell := cs_cell st ++ s; inQuotes := false |}.
Proof.
  intros Hq Hrest. unfold csv_quote.
  cbn [app csv_scan]. rewrite Hq.
  change ((34 =? 34)%N) with true. cbv iota.
  rewrite <- app_assoc. cbn [app].
  rewrite csv_scan_in_quotes by (reflexivity || assumption). reflexivity.
Qed.

Lemma csv_scan_line (cells : list jsstring) (rest : jsstring)
    (rows : list (list jsstring)) (row : list jsstring) :
  cells <> [] ->
  csv_scan (csv_line cells ++ 10%N :: rest)
    {| cs_rows := rows; cs_row := row; cs_cell := []; inQuotes := false |}
  = csv_scan rest
      {| cs_rows := rows ++ [row ++ cells]; cs_row := []; cs_cell := [];
         inQuotes := false |}.
Proof.
  revert row. induction cells as [|c cells IH]; intros row Hne;
    [congruence|].
  destruct cells as [|c2 cells].
  - cbn [csv_line]. rewrite csv_scan_quote by (simpl; congruence).
    reflexivity.
  - change (csv_line (c :: c2 :: cells))
      with (csv_quote c ++ [44%N] ++ csv_line (c2 :: cells)).
    rewrite <- !app_assoc.
    rewrite csv_scan_quote by (simpl; congruence).
    cbn [app cs_rows cs_row cs_cell]. 
    change (csv_scan (44%N :: ?t) ?st) with (csv_scan (44%N :: t) st).
    cbn [csv_scan inQuotes cs_rows cs_row cs_cell].
    change ((44 =? 34)%N) with false. change ((44 =? 44)%N) with true.
    cbv iota. rewrite IH by congruence.
    rewrite <- app_assoc. reflexivity.
Qed.

Lemma csv_scan_table (table : list (list jsstring))
    (rows : list (list jsstring)) :
  Forall (fun r => r <> []) table ->
  csv_scan (csv_table table)
    {| cs_rows := rows; cs_row := []; cs_cell := []; inQuotes := false |}
  = {| cs_rows := rows ++ table; cs_row := []; cs_cell := [];
       inQuotes := false |}.
Proof.
  intros H. revert rows. induction H as [|r table Hr _ IH]; intros rows.
  - simpl. rewrite app_nil_r. reflexivity.
  - unfold csv_table. cbn [flat_map]. rewrite <- app_assoc. cbn [app].
    rewrite csv_scan_line by exact Hr.
    fold (csv_table table). rewrite IH, <- app_assoc. reflexivity.
Qed.

(** X4: quoting round trip.  A table whose cells are written between double
    quotes, inner quotes doubled, cells separated by commas and every line
    ended by a line feed, is read back cell for cell, whatever the cells
    contain (commas, quotes, line feeds, carriage returns, blanks). *)
Theorem csv_quoted_round_trip (table : list (list jsstring)) :
  Forall (fun r => r <> []) table ->
  csv_rows (csv_table table) = table.
Proof.
  intros H. unfold csv_rows. rewrite (csv_scan_table table [] H).
  reflexivity.
Qed.

Lemma csv_quoted_round_trip_witness :
  csv_rows (csv_table [[u "a,b"; [34; 13; 10]%N]; [[]; u " x "]])
  = [[u "a,b"; [34; 13; 10]%N]; [[]; u " x "]].
Proof.
  apply csv_quoted_round_trip. repeat constructor; discriminate.
Defined.

Lemma csv_scan_cr (text : jsstring) (st : CsvScan) :
  inQuotes st = false ->
  34%N ∉ text ->
  csv_scan (List.filter (fun c => negb (c =? 13)%N) text) st
  = csv_scan text st.
Proof.
  revert st. induction text as [|c text IH]; intros st Hq Hno;
    [reflexivity|].
  assert (Hc : (c =? 34)%N = false).
  { apply N.eqb_neq. intros ->. apply Hno. left. }
  assert (Ht : 34%N ∉ text) by (intros ?; apply Hno; right; assumption).
  cbn [List.filter]. destruct (c =? 13)%N eqn:E13; cbn [negb].
  - apply N.eqb_eq in E13. subst c. cbn [csv_scan]. rewrite Hq.
    change ((13 =? 34)%N) with false. change ((13 =? 44)%N) with false.
    change ((13 =? 10)%N) with false. change ((13 =? 13)%N) with true.
    cbv iota. apply IH; assumption.
  - cbn [csv_scan]. rewrite Hq, Hc, E13.
    destruct (c =? 44)%N; [apply IH; [reflexivity|assumption]|].
    destruct (c =? 10)%N; apply IH; (reflexivity || assumption).
Qed.

(** X5: outside quotes a carriage return is skipped.  For a text without
    any double quote, the rows read are those of the text with its carriage
    returns removed, so CRLF and LF line ends give the same table. *)
Theorem csv_carriage_returns_ignored (text : jsstring) :
  34%N ∉ text ->
  csv_rows (List.filter (fun c => negb (c =? 13)%N) text) = csv_rows text
  /\ parseCsv (List.filter (fun c => negb (c =? 13)%N) text) = parseCsv text.
Proof.
  intros H. assert (E : csv_rows (List.filter (fun c => negb (c =? 13)%N) text)
                        = csv_rows text).
  { unfold csv_rows. rewrite csv_scan_cr by (reflexivity || assumption).
    reflexivity. }
  split; [exact E|]. rewrite !parseCsv_rows, E. reflexivity.
Qed.

Lemma csv_carriage_returns_ignored_witness :
  parseCsv (List.filter (fun c => negb (c =? 13)%N)
              (u "source,url" ++ [13; 10]%N ++ u "a,b" ++ [13; 10]%N))
  = parseCsv (u "source,url" ++ [13; 10]%N ++ u "a,b" ++ [13; 10]%N).
Proof.
  apply csv_carriage_returns_ignored.
  vm_compute. intros H.
  repeat (apply elem_of_cons in H as [H|H]; [discriminate|]).
  apply elem_of_nil in H. exact H.
Defined.

(* ===================================================================== *)
(** ** Entries: dates, links and summaries *)
(* ===================================================================== *)










Section EntryEdges.
Context `{host : Host}.

Lemma publishedRaw_first (raw : RawEntry) (i : nat) (d : jsstring) :
  date_fields raw !! i = Some (Some d) ->
  d <> [] ->
  (forall j o, (j < i)%nat -> date_fields raw !! j = Some o ->
               truthy o = false) ->
  publishedRaw raw = Some d.
Proof.
  intros Hi Hd Hbefore. unfold date_fields in *.
  destruct d as [|c d]; [congruence|].
  unfold publishedRaw, or_else.
  destruct i as [|[|[|[|i]]]]; simpl in Hi; try discriminate Hi;
    injection Hi as Hi.
  - rewrite Hi. reflexivity.
  - rewrite (Hbefore 0%nat (isoDate raw)) by (lia || reflexivity).
    cbv iota. rewrite Hi. reflexivity.
  - rewrite (Hbefore 0%nat (isoDate raw)) by (lia || reflexivity).
    cbv iota.
    rewrite (Hbefore 1%nat (pubDate raw)) by (lia || reflexivity).
    cbv iota. rewrite Hi. reflexivity.
  - rewrite (Hbefore 0%nat (isoDate raw)) by (lia || reflexivity).
    cbv iota.
    rewrite (Hbefore 1%nat (pubDate raw)) by (lia || reflexivity).
    cbv iota.
    rewrite (Hbefore 2%nat (published raw)) by (lia || reflexivity).
    cbv iota. exact Hi.
Qed.

(** X7: the first present field decides, without falling through.  The
    date of an entry is read from the first of [isoDate], [pubDate],
    [published], [updated] that is a non-empty string: when that string is
    not a date the entry is dropped, whatever the later fields hold, and an
    accepted item carries the ISO rendering of that instant, never [null].
    Likewise a [link] that is a non-empty string is the url, trimmed, and
    when it is blank the entry is dropped even if [guid] holds a url; [guid]
    is used only when [link] is missing or empty. *)
Theorem first_present_field_decides (f : FeedDescriptor) (since : jsnum)
    (raw : RawEntry) :
  (forall i d,
      date_fields raw !! i = Some (Some d) -> d <> [] ->
      (forall j o, (j < i)%nat -> date_fields raw !! j = Some o ->
                   truthy o = false) ->
      (Date_parse d = None -> normalize f since raw = None)
      /\ forall it, normalize f since raw = Some it ->
           exists ms, Date_parse d = Some ms
                      /\ publishedAt it = Some (Date_toISOString ms)
                      /\ num_ltb (Fin (ofZ ms)) since = false)
  /\ ((forall o, o ∈ date_fields raw -> truthy o = false) ->
      normalize f since raw = None)
  /\ (forall l, link raw = Some l -> l <> [] ->
        (trim l = [] -> normalize f since raw = None)
        /\ forall it, normalize f since raw = Some it -> url it = trim l)
  /\ (truthy (link raw) = false ->
      forall it, normalize f since raw = Some it ->
        exists g, guid raw = Some g /\ url it = trim g).
Proof.
  split; [|split; [|split]].
  - intros i d Hi Hd Hbefore.
    pose proof (publishedRaw_first raw i d Hi Hd Hbefore) as Hraw.
    assert (Hms : publishedMs raw = Date_parse d).
    { unfold publishedMs. rewrite Hraw. destruct d; [congruence|].
      reflexivity. }
    split.
    + intros Hp. unfold normalize. rewrite Hms, Hp. reflexivity.
    + intros it Hn. apply normalize_inv in Hn
        as [ms [Hm [Hlt [_ [_ [_ [_ [Hpub _]]]]]]]].
      exists ms. rewrite <- Hms. repeat split; assumption.
  - intros Hall. unfold normalize, publishedMs, publishedRaw, or_else.
    unfold date_fields in Hall.
    rewrite (Hall (isoDate raw)) by (left).
    rewrite (Hall (pubDate raw)) by (right; left).
    rewrite (Hall (published raw)) by (right; right; left).
    rewrite (Hall (updated raw)) by (right; right; right; left).
    reflexivity.
  - intros l Hl Hne.
    assert (Hu : trim (or_empty (or_else (or_else (link raw) (guid raw))
                                         (Some []))) = trim l).
    { rewrite Hl. unfold or_else. destruct l; [congruence|]. reflexivity. }
    split.
    + intros Hblank. unfold normalize.
      destruct (publishedMs raw) as [ms|]; [|reflexivity].
      destruct (num_ltb _ _); [reflexivity|].
      rewrite Hu, Hblank. rewrite orb_true_r. reflexivity.
    + intros it Hn. apply normalize_inv in Hn
        as [ms [_ [_ [_ [_ [Hurl _]]]]]].
      rewrite Hurl. exact Hu.
  - intros Hlink it Hn. apply normalize_inv in Hn
      as [ms [_ [_ [_ [_ [Hurl [Hne _]]]]]]].
    unfold or_else in Hurl at 2. rewrite Hlink in Hurl.
    unfold or_else in Hurl.
    destruct (guid raw) as [[|c g]|] eqn:Eg; simpl in Hurl.
    + rewrite Hurl in Hne. exfalso. apply Hne. reflexivity.
    + exists (c :: g). split; [reflexivity | exact Hurl].
    + rewrite Hurl in Hne. exfalso. apply Hne. reflexivity.
Qed.

End EntryEdges.

(* ===================================================================== *)
(** ** Further properties of the response *)
(* ===================================================================== *)

Lemma get_id_clean (it : Item) : get (u "id") (clean it) = Some (Some (id it)).
Proof. rewrite clean_eq. reflexivity. Qed.

Lemma get_source_clean (it : Item) :
  get (u "source") (clean it) = Some (Some (source it)).
Proof. rewrite clean_eq. reflexivity. Qed.

Lemma settled_feed (env : Env) (feeds : list FeedDescriptor)
    (f : FeedDescriptor) (o : FetchOutcome) :
  Settles env -> (f, o) ∈ settle env feeds -> f ∈ feeds.
Proof.
  intros Hs Hin. rewrite <- (Hs feeds).
  apply list_elem_of_fmap. exists (f, o). split; [reflexivity | exact Hin].
Qed.

Lemma collect_Permutation `{host : Host} (since : jsnum)
    (s1 s2 : list (FeedDescriptor * FetchOutcome)) :
  s1 ≡ₚ s2 -> collect since s1 ≡ₚ collect since s2.
Proof.
  unfold collect. induction 1 as [|x l1 l2 _ IH|x y l|l1 l2 l3 _ IH1 _ IH2];
    simpl.
  - reflexivity.
  - rewrite IH. reflexivity.
  - rewrite !app_assoc. apply Permutation_app_tail, Permutation_app_comm.
  - rewrite IH1. exact IH2.
Qed.

Section Emitted.
Context `{host : Host}.

(** The urls of the de-duplicated sequence are those of the collected
    items. *)
Lemma request_urls (q : qparam) (env : Env) (st : State) (w : jsstring) :
  w ∈ url <$> request_items q env st
  <-> w ∈ url <$> collect (since q env) (settle env (feeds_of env st)).
Proof.
  rewrite !list_elem_of_fmap. split.
  - intros [y [-> Hy]]. exists y. split; [reflexivity|].
    apply sorted_of_elem.
    apply (elem_of_sublist _ _ _ Hy (request_items_sublist q env st)).
  - intros [x [-> Hx]]. apply sorted_of_elem in Hx.
    destruct (dedupe_loop_covers ∅ (sorted_of q env st) x Hx)
      as [pre [post [y [_ [Hu [_ [Hy _]]]]]]];
      [apply not_elem_of_empty|].
    exists y. split; [symmetry; exact Hu | exact Hy].
Qed.

Lemma serves_spec (q : qparam) (env : Env) (st st' : State)
    (doc : ResponseDoc) (calls : list (list jsstring)) (w : jsstring) :
  handler q env st = (R200 doc, st', calls) ->
  serves doc w <-> w ∈ url <$> request_items q env st.
Proof.
  intros H. split.
  - intros [g [l [o [Hg [Ho Hw]]]]].
    destruct (emitted_inv q env st st' doc calls g l o H Hg Ho)
      as [it [-> [_ [_ Hb]]]].
    rewrite get_url_clean in Hw. injection Hw as <-.
    apply list_elem_of_fmap. exists (base it). split; [reflexivity | exact Hb].
  - intros Hw. apply list_elem_of_fmap in Hw as [y [-> Hy]].
    destruct (emitted_all q env st st' doc calls y H Hy)
      as [l [y' [Hl [Hb Hin]]]].
    exists (genre_of y), l, (clean y'). split; [exact Hl|].
    split; [exact Hin|]. rewrite get_url_clean, <- Hb. reflexivity.
Qed.

(** X8: what an emitted item is made of.  Its [source] is the name of one
    of the feeds listed in [feedsLoaded], its [id] is that name, two colons
    and its url, and its title and url are trimmed and not empty. *)
Theorem emitted_item_identity (q : qparam) (env : Env) (st st' : State)
    (doc : ResponseDoc) (calls : list (list jsstring)) :
  Settles env ->
  handler q env st = (R200 doc, st', calls) ->
  forall g l o,
    genres doc !! g = Some l -> o ∈ l ->
    exists f t w,
      f ∈ feedsLoaded doc
      /\ get (u "source") o = Some (Some (f_source f))
      /\ get (u "title") o = Some (Some t) /\ trim t = t /\ t <> []
      /\ get (u "url") o = Some (Some w) /\ trim w = w /\ w <> []
      /\ get (u "id") o = Some (Some (f_source f ++ u "::" ++ w)).
Proof.
  intros Hs H g l o Hg Ho.
  destruct (emitted_inv q env st st' doc calls g l o H Hg Ho)
    as [it [-> [_ [_ Hb]]]].
  apply request_item_origin in Hb as [f [raws [raw [Hf [_ Hn]]]]].
  apply normalize_inv in Hn
    as [ms [_ [_ [Ht [Hte [Hu [Hue [_ [Hid [Hsrc _]]]]]]]]]].
  simpl in Ht, Hte, Hu, Hue, Hid, Hsrc.
  exists f, (title it), (url it).
  rewrite get_source_clean, get_title_clean, get_url_clean, get_id_clean.
  apply handler_200 in H as [_ [_ [_ [_ [_ ->]]]]].
  split; [exact (settled_feed env _ f _ Hs Hf)|].
  split; [rewrite Hsrc; reflexivity|].
  split; [reflexivity|]. split; [rewrite Ht; apply trim_idem|].
  split; [exact Hte|]. split; [reflexivity|].
  split; [rewrite Hu; apply trim_idem|]. split; [exact Hue|].
  rewrite Hid. reflexivity.
Qed.

(** X9: the keys of [genres].  With a feed list that went through
    [loadFeeds] from a sound cache, every key is the name of one of the
    twelve rules or the default genre of a feed of [feedsLoaded]; it is
    never the empty string. *)
Theorem genre_keys_known (q : qparam) (env : Env) (st st' : State)
    (doc : ResponseDoc) (calls : list (list jsstring)) :
  Settles env ->
  good_cache (feedsCache st) ->
  handler q env st = (R200 doc, st', calls) ->
  forall g l,
    genres doc !! g = Some l ->
    g <> []
    /\ (g ∈ map name GENRES
        \/ exists f, f ∈ feedsLoaded doc /\ g = defaultGenre f).
Proof.
  intros Hs Hgood H g l Hg.
  destruct (emitted_lookup q env st st' doc calls g l H Hg) as [-> Hne].
  destruct (items_of_genre g (final_items q env st)) as [|it its] eqn:E;
    [contradiction|].
  assert (Hit : it ∈ items_of_genre g (final_items q env st))
    by (rewrite E; left).
  apply items_of_genre_elem in Hit as [Hit Hgen].
  assert (Hb : base it ∈ request_items q env st)
    by (rewrite <- final_items_base; apply list_elem_of_fmap_2, Hit).
  apply request_item_origin in Hb as [f [raws [raw [Hf [_ Hn]]]]].
  apply normalize_inv in Hn
    as [ms [_ [_ [_ [_ [_ [_ [_ [_ [_ [Hfb _]]]]]]]]]]].
  simpl in Hfb.
  pose proof (settled_feed env _ f _ Hs Hf) as Hfin.
  destruct (feeds_of_wf env st Hgood) as [_ Hwf].
  assert (Hdg : defaultGenre f <> []).
  { rewrite Forall_forall in Hwf. destruct (Hwf f Hfin) as [_ [_ Hd]].
    exact Hd. }
  apply handler_200 in H as [_ [_ [_ [_ [_ Hfl]]]]].
  assert (Hcase : g ∈ map name GENRES \/ g = defaultGenre f).
  { rewrite <- Hgen. unfold genre_of, pickGenre. rewrite Hfb.
    destruct (scan_rules _ GENRES) as [n|] eqn:Es.
    - left. apply scan_rules_some in Es as [r [Hr [<- _]]].
      apply list_elem_of_In, in_map, list_elem_of_In, Hr.
    - right. destruct (defaultGenre f); [congruence | reflexivity]. }
  split.
  - destruct Hcase as [Hc| ->]; [|exact Hdg].
    intros ->. revert Hc. apply (bool_decide_unpack _). vm_compute. exact I.
  - destruct Hcase as [Hc| ->]; [left; exact Hc|].
    right. exists f. rewrite Hfl. split; [exact Hfin | reflexivity].
Qed.

(** X10: the order in which the fetches complete does not decide what is
    served.  Two runs of the same request that differ only in that order
    serve the same set of urls and report the same [totalItems] (which copy
    of a url is kept, and so under which genre, may differ when the copies
    carry the same date). *)
Theorem completion_order_irrelevant (q : qparam) (env : Env) (st : State)
    (s2 : list FeedDescriptor -> list (FeedDescriptor * FetchOutcome))
    (doc1 doc2 : ResponseDoc) (st1 st2 : State)
    (calls1 calls2 : list (list jsstring)) :
  (forall feeds, s2 feeds ≡ₚ settle env feeds) ->
  handler q env st = (R200 doc1, st1, calls1) ->
  handler q (with_settle s2 env) st = (R200 doc2, st2, calls2) ->
  (forall w, serves doc1 w <-> serves doc2 w)
  /\ totalItems doc1 = totalItems doc2
  /\ feedsLoaded doc1 = feedsLoaded doc2.
Proof.
  intros Hperm H1 H2.
  assert (Hurls : forall w, w ∈ url <$> request_items q env st
                            <-> w ∈ url <$> request_items q (with_settle s2 env) st).
  { intros w. rewrite !request_urls.
    change (since q (with_settle s2 env)) with (since q env).
    change (feeds_of (with_settle s2 env) st) with (feeds_of env st).
    change (settle (with_settle s2 env)) with s2.
    rewrite (collect_Permutation _ _ _ (Hperm (feeds_of env st))).
    reflexivity. }
  split; [|split].
  - intros w. rewrite (serves_spec q env st st1 doc1 calls1 w H1).
    rewrite (serves_spec q _ st st2 doc2 calls2 w H2). apply Hurls.
  - apply handler_200 in H1 as [_ [_ [_ [_ [-> _]]]]].
    apply handler_200 in H2 as [_ [_ [_ [_ [-> _]]]]].
    rewrite <- (length_fmap url (request_items q env st)).
    rewrite <- (length_fmap url (request_items q (with_settle s2 env) st)).
    apply Permutation_length, NoDup_Permutation.
    + apply dedupe_loop_NoDup.
    + apply dedupe_loop_NoDup.
    + exact Hurls.
  - apply handler_200 in H1 as [_ [_ [_ [_ [_ ->]]]]].
    apply handler_200 in H2 as [_ [_ [_ [_ [_ ->]]]]]. reflexivity.
Qed.

(** X11: the age of what is served.  When the [hours] parameter is absent
    or converts to a number, the value used is between 1 and 72, and the
    instant of every emitted item is not below the bound that the handler
    computes from it in binary64.  At a request time that is a time value,
    that instant is never more than 72 hours back, not more than [n] hours
    back when the value is the integer [n], and so at most 24 hours back
    without the parameter. *)
Theorem window_bounds (q : qparam) (env : Env) (st st' : State)
    (doc : ResponseDoc) (calls : list (list jsstring)) :
  handler q env st = (R200 doc, st', calls) ->
  Number_hours q <> NaN ->
  time_value (now_req env) ->
  exists h,
    hours doc = Fin h /\ (ofZ 1 <= h)%Qc /\ (h <= ofZ 72)%Qc
    /\ (q = QAbsent -> h = ofZ 24)
    /\ forall g l o,
         genres doc !! g = Some l -> o ∈ l ->
         exists ms,
           get (u "publishedAt") o = Some (Some (Date_toISOString ms))
           /\ num_ltb (Fin (ofZ ms)) (since_of (now_req env) (Fin h)) = false
           /\ now_req env - 72 * 3600000 <= ms
           /\ (forall n, h = ofZ n -> now_req env - n * 3600000 <= ms)
           /\ (q = QAbsent -> now_req env - 24 * 3600000 <= ms).
Proof.
  intros H Hnum Hnow.
  assert (Hh : exists h, hours_of q = Fin h /\ (ofZ 1 <= h)%Qc
                         /\ (h <= ofZ 72)%Qc
                         /\ (q = QAbsent -> h = ofZ 24)).
  { pose proof (hours_of_cases q) as Hc.
    destruct (Number_hours q) as [| | |x] eqn:E; [congruence | | |].
    - exists (ofZ 1). split; [exact Hc|].
      split; [apply Qcle_refl|]. split; [apply ofZ_le; lia|].
      intros ->. discriminate E.
    - exists (ofZ 72). split; [exact Hc|].
      split; [apply ofZ_le; lia|]. split; [apply Qcle_refl|].
      intros ->. discriminate E.
    - exists (clampQ x). split; [exact Hc|].
      destruct (clampQ_range x) as [H1 H72]. split; [exact H1|].
      split; [exact H72|]. intros ->. simpl in E. injection E as <-.
      rewrite (clampQ_ofZ 24). reflexivity. }
  destruct Hh as [h [Hh [H1 [H72 H24]]]]. exists h.
  pose proof H as H'. apply handler_200 in H' as [_ [-> _]].
  split; [exact Hh|]. split; [exact H1|]. split; [exact H72|].
  split; [exact H24|]. intros g l o Hg Ho.
  destruct (emitted_items_wellformed q env st st' doc calls H g l o Hg Ho)
    as [_ [_ [ms' [_ [_ [_ [_ [Hp' Hlt]]]]]]]].
  exists ms'. split; [exact Hp'|].
  unfold since in Hlt. rewrite Hh in Hlt. split; [exact Hlt|].
  destruct (since_of_between (now_req env) h Hnow H1 H72) as [s [Hs [Hs1 _]]].
  rewrite Hs in Hlt. simpl in Hlt. apply bool_decide_eq_false in Hlt.
  apply Qcnot_lt_le in Hlt.
  split; [apply ofZ_le; eapply Qcle_trans; eassumption|].
  assert (Hn : forall n, h = ofZ n -> now_req env - n * 3600000 <= ms').
  { intros n ->.
    rewrite since_of_integer in Hs
      by (try exact Hnow; split; apply ofZ_le; assumption).
    injection Hs as <-. apply ofZ_le, Hlt. }
  split; [exact Hn|]. intros Hq. apply Hn, H24, Hq.
Qed.

(** X12: when the handler answers 500.  It does so exactly when an item
    of the request matches no keyword rule and comes from a feed whose
    default genre is a property name that every object inherits
    ([constructor], [toString], ...): [genres[g]] is then truthy without
    being a list.  With the built-in feed list it never happens. *)
Theorem internal_error_cause (q : qparam) (env : Env) (st : State) :
  ((exists st' calls, handler q env st = (R500, st', calls))
   <-> exists it, it ∈ request_items q env st
                  /\ genre_of it = _fallbackGenre it
                  /\ _fallbackGenre it ∈ Object_prototype_keys)
  /\ (Settles env ->
      feeds_of env st = FEEDS_FALLBACK ->
      exists doc st' calls, handler q env st = (R200 doc, st', calls)).
Proof.
  assert (Hiff : (exists st' calls, handler q env st = (R500, st', calls))
     <-> exists it, it ∈ request_items q env st
                    /\ genre_of it = _fallbackGenre it
                    /\ _fallbackGenre it ∈ Object_prototype_keys).
  { rewrite handler_500_iff. split.
    - intros [it [Hit Hg]]. exists it. split; [exact Hit|].
      destruct (pickGenre_range (title it) (source it) (_fallbackGenre it))
        as [E|Hr].
      + split; [exact E|]. unfold genre_of in Hg. rewrite E in Hg. exact Hg.
      + exfalso. apply (rule_names_own _ Hr). exact Hg.
    - intros [it [Hit [E Hg]]]. exists it. split; [exact Hit|].
      rewrite E. exact Hg. }
  split; [exact Hiff|].
  intros Hs Hfb.
  destruct (handler_total q env st)
    as [[doc [_ [st' [calls H]]]]|[_ [st' [calls H]]]].
  - exists doc, st', calls. exact H.
  - exfalso.
    assert (H5 : exists st' calls, handler q env st = (R500, st', calls))
      by (exists st', calls; exact H).
    apply Hiff in H5 as [it [Hit [_ Hg]]].
    apply request_item_origin in Hit as [f [raws [raw [Hf [_ Hn]]]]].
    apply normalize_inv in Hn
      as [ms [_ [_ [_ [_ [_ [_ [_ [_ [_ [Hfg _]]]]]]]]]]].
    simpl in Hfg. rewrite Hfg in Hg.
    pose proof (settled_feed env _ f _ Hs Hf) as Hfin. rewrite Hfb in Hfin.
    assert (Hall : Forall (fun f => defaultGenre f ∉ Object_prototype_keys)
                          FEEDS_FALLBACK)
      by (apply (bool_decide_unpack _); vm_compute; exact I).
    rewrite Forall_forall in Hall. exact (Hall f Hfin Hg).
Qed.

End Emitted.

(* ===================================================================== *)
(** ** Further properties of the classifier *)
(* ===================================================================== *)

Lemma scan_rules_app `{host : Host} (text : jsstring) (l1 l2 : list GenreRule) :
  scan_rules text (l1 ++ l2)
  = match scan_rules text l1 with
    | Some n => Some n
    | None => scan_rules text l2
    end.
Proof.
  induction l1 as [|g l1 IH]; simpl; [reflexivity|].
  destruct (scan_keywords text (keywords g)); [reflexivity | exact IH].
Qed.

Lemma scan_rules_hit `{host : Host} (text : jsstring) (rules : list GenreRule)
    (g : GenreRule) :
  g ∈ rules -> rule_matches text g ->
  exists n, scan_rules text rules = Some n /\ n ∈ map name rules.
Proof.
  intros Hg Hm. destruct (scan_rules text rules) as [n|] eqn:E.
  - exists n. split; [reflexivity|].
    apply scan_rules_some in E as [r [Hr [<- _]]].
    apply list_elem_of_In, in_map, list_elem_of_In, Hr.
  - exfalso. revert g Hg Hm. induction rules as [|r rules IH];
      intros g Hg Hm; [inversion Hg|].
    simpl in E. destruct (scan_keywords text (keywords r)) eqn:Ek;
      [discriminate E|].
    apply elem_of_cons in Hg as [->|Hg].
    + apply scan_keywords_spec in Hm. congruence.
    + apply (IH E g Hg Hm).
Qed.

Lemma occurs_in_part (a b c text : jsstring) :
  occurs_in (a ++ b ++ c) text -> occurs_in b text.
Proof.
  intros [pre [post ->]]. exists (pre ++ a), (c ++ post).
  rewrite <- !app_assoc. reflexivity.
Qed.

(** X13: the keyword [j-pop] never decides.  A text that contains it
    contains [pop], which belongs to the rule Pop, declared before the rule
    Japan: such an item is filed under one of the first eleven rules.  An
    item is filed under Japan only when its text contains one of the four
    kanji keywords of the rule and no earlier rule matches, or when no rule
    matches and Japan is the default genre of its feed. *)
Theorem jpop_keyword_never_decides `{host : Host} (title source fallback : jsstring) :
  let text := toLowerCase (title ++ u " " ++ source) in
  (occurs_in (u "j-pop") text ->
   pickGenre title source fallback ∈ map name (take 11 GENRES))
  /\ (pickGenre title source fallback = u "Japan" ->
      (forall g, g ∈ take 11 GENRES -> ~ rule_matches text g)
      /\ ((exists kw,
              kw ∈ [[0x65E5; 0x672C]; [0x6771; 0x4EAC]; [0x6E0B; 0x8C37];
                    [0x90A6; 0x697D]]%N
              /\ occurs_in kw text)
          \/ fallback = u "Japan")).
Proof.
  intros text.
  assert (Hsplit : GENRES = take 11 GENRES ++ drop 11 GENRES)
    by (symmetry; apply take_drop).
  assert (Hpop : occurs_in (u "pop") text ->
                 exists n, scan_rules text (take 11 GENRES) = Some n
                           /\ n ∈ map name (take 11 GENRES)).
  { intros Hocc.
    apply (scan_rules_hit text _
             {| name := u "Pop";
                keywords := [u "pop"; [0x30A2; 0x30A4; 0x30C9; 0x30EB]%N;
                             [0x30B7; 0x30F3; 0x30B0; 0x30EB]%N; u "mv";
                             u "music video"] |}).
    - vm_compute. do 10 right. left.
    - exists (u "pop"). split; [left|].
      rewrite (toLowerCase_lower_plain (u "pop") eq_refl). exact Hocc. }
  split.
  - intros Hj.
    destruct Hpop as [n [Hn Hin]].
    { apply (occurs_in_part (u "j-") (u "pop") []).
      rewrite app_nil_r. exact Hj. }
    unfold pickGenre. fold text. rewrite Hsplit, scan_rules_app, Hn.
    exact Hin.
  - unfold pickGenre. fold text. rewrite Hsplit, scan_rules_app.
    destruct (scan_rules text (take 11 GENRES)) as [n|] eqn:E11.
    + intros ->. exfalso.
      apply scan_rules_some in E11 as [g [Hg [Hname _]]].
      assert (Hall : Forall (fun g => name g <> u "Japan") (take 11 GENRES))
        by (apply (bool_decide_unpack _); vm_compute; exact I).
      rewrite Forall_forall in Hall. exact (Hall g Hg Hname).
    + intros Hres.
      assert (Hnone : forall g, g ∈ take 11 GENRES -> ~ rule_matches text g).
      { intros g Hg Hm.
        destruct (scan_rules_hit text _ g Hg Hm) as [n [Hn _]]. congruence. }
      split; [exact Hnone|].
      change (drop 11 GENRES)
        with [ {| name := u "Japan";
                  keywords := [[0x65E5; 0x672C]%N; [0x6771; 0x4EAC]%N;
                               [0x6E0B; 0x8C37]%N; u "j-pop";
                               [0x90A6; 0x697D]%N] |} ] in Hres.
      cbn [scan_rules keywords name] in Hres.
      destruct (scan_keywords text _) eqn:Ek.
      * left. apply scan_keywords_spec in Ek as [kw [Hkw Hocc]].
        repeat (apply elem_of_cons in Hkw as [->|Hkw]);
          try rewrite toLowerCase_lower_plain in Hocc by reflexivity.
        -- exists [0x65E5; 0x672C]%N. split; [left | exact Hocc].
        -- exists [0x6771; 0x4EAC]%N. split; [right; left | exact Hocc].
        -- exists [0x6E0B; 0x8C37]%N. split; [do 2 right; left | exact Hocc].
        -- exfalso. destruct Hpop as [n [Hn _]]; [|congruence].
           apply (occurs_in_part (u "j-") (u "pop") []).
           rewrite app_nil_r. exact Hocc.
        -- exists [0x90A6; 0x697D]%N. split; [do 3 right; left | exact Hocc].
        -- inversion Hkw.
      * right. destruct (is_empty fallback); [|exact Hres].
        exfalso. revert Hres. vm_compute. discriminate.
Qed.

(* ===================================================================== *)
(** ** Further properties of the translation stage *)
(* ===================================================================== *)

Lemma letter_not_ws (c : N) : is_letter c = true -> is_ws c = false.
Proof.
  unfold is_letter, is_upper, is_lower, is_ws. intros H.
  apply orb_true_iff in H.
  repeat (apply orb_false_iff; split);
    try (apply N.eqb_neq; intros ->; destruct H as [H|H]; discriminate H).
  apply andb_false_iff.
  destruct H as [H|H]; apply andb_true_iff in H as [_ H];
    apply N.leb_le in H; left; apply N.leb_gt; lia.
Qed.

Lemma filter_filter_implied {A} (p q : A -> bool) (l : list A) :
  (forall x, p x = true -> q x = true) ->
  List.filter p (List.filter q l) = List.filter p l.
Proof.
  intros H. induction l as [|x l IH]; simpl; [reflexivity|].
  destruct (q x) eqn:Eq; simpl.
  - rewrite IH. reflexivity.
  - destruct (p x) eqn:Ep; [|exact IH].
    rewrite (H x Ep) in Eq. discriminate Eq.
Qed.

Lemma filter_ext_Forall {A} (p q : A -> bool) (l : list A) :
  Forall (fun x => p x = q x) l -> List.filter p l = List.filter q l.
Proof.
  induction 1 as [|x l Hx _ IH]; simpl; [reflexivity|].
  rewrite Hx, IH. reflexivity.
Qed.

(** X14: edges of [looksEnglish].  White space does not count: removing it
    from a title does not change the verdict.  A title without any letter
    A-Z or a-z (the empty title, a title in kana and kanji) is never a
    candidate for translation; a title made of such letters and white space
    only, with a letter at least, always is. *)
Theorem looksEnglish_edges (s : jsstring) :
  looksEnglish (List.filter (fun c => negb (is_ws c)) s) = looksEnglish s
  /\ (Forall (fun c => is_letter c = false) s -> looksEnglish s = false)
  /\ (Forall (fun c => is_letter c = true \/ is_ws c = true) s ->
      Exists (fun c => is_letter c = true) s ->
      looksEnglish s = true).
Proof.
  split; [|split].
  - unfold looksEnglish, count_if.
    rewrite (filter_filter_implied is_letter).
    + rewrite (filter_filter_implied (fun c => negb (is_ws c))); [reflexivity|].
      intros x Hx. exact Hx.
    + intros x Hx. rewrite (letter_not_ws x Hx). reflexivity.
  - intros H. unfold looksEnglish, count_if.
    assert (E : List.filter is_letter s = []).
    { induction H as [|c s Hc _ IH]; simpl; [reflexivity|].
      rewrite Hc. exact IH. }
    rewrite E. simpl. apply N.ltb_ge. lia.
  - intros Hall Hex. unfold looksEnglish, count_if.
    rewrite (filter_ext_Forall (fun c => negb (is_ws c)) is_letter).
    + assert (Hpos : (0 < length (List.filter is_letter s))%nat).
      { apply Exists_exists in Hex as [c [Hc Hl]].
        assert (Hin : In c (List.filter is_letter s))
          by (apply filter_In; split; [apply list_elem_of_In, Hc | exact Hl]).
        destruct (List.filter is_letter s); [destruct Hin | simpl; lia]. }
      destruct (N.of_nat (length (List.filter is_letter s))) eqn:E; [lia|].
      apply N.ltb_lt. lia.
    + eapply Forall_impl; [exact Hall|]. intros c [Hl|Hw]; simpl.
      * rewrite Hl, (letter_not_ws c Hl). reflexivity.
      * rewrite Hw. simpl. destruct (is_letter c) eqn:El; [|reflexivity].
        rewrite (letter_not_ws c El) in Hw. discriminate Hw.
Qed.

Lemma looksEnglish_edges_witness :
  looksEnglish (u "New Techno EP") = true.
Proof.
  apply (proj2 (proj2 (looksEnglish_edges (u "New Techno EP")))).
  - apply (bool_decide_unpack _). vm_compute. exact I.
  - apply Exists_cons_hd. reflexivity.
Defined.

Lemma tr_cache_lookup (key : bool) (prov : list jsstring -> ProviderOutcome)
    (now : Z) (c : gmap jsstring CacheEntry) (items : list Item)
    (k : jsstring) :
  tr_cache (translate key prov now c items) !! k = c !! k
  \/ exists e, tr_cache (translate key prov now c items) !! k = Some e
               /\ c_t e = now
               /\ k ∈ (index (scanned_of c now items)).*2.
Proof.
  unfold translate. fold (scan_start items). fold (scanned_of c now items).
  destruct (negb (is_nil (need (scanned_of c now items))) && key);
    [|left; reflexivity].
  destruct (deeplTranslateToJA key prov (need (scanned_of c now items)))
    as [[| |[|o out]] calls]; try (left; reflexivity).
  pose proof (write_back_cache_frame now (o :: out) (limitedTargets items)
                (index (scanned_of c now items)) 0
                (sc_items (scanned_of c now items)) c k) as Hframe.
  pose proof (write_back_cache_set now (o :: out) (limitedTargets items)
                (index (scanned_of c now items)) 0
                (sc_items (scanned_of c now items)) c k) as Hset.
  destruct (write_back _ _ _ _ _ _ _) as [its cache]. simpl in *.
  destruct (decide (k ∈ (index (scanned_of c now items)).*2)) as [Hin|Hnin].
  - right. destruct (Hset Hin) as [e [He Ht]]. exists e.
    split; [exact He|]. split; [exact Ht | exact Hin].
  - left. apply Hframe, Hnin.
Qed.

Section CacheGrowth.
Context `{host : Host}.

(** X15: the translation cache only grows.  A request removes no entry,
    and an entry that has not expired is left as it is, so its six hours
    count from the call that stored it, not from its last use.  Every entry
    that a request adds or replaces carries the time of that request and
    stands under the key of an item of the request whose title looks
    English and which had no live entry. *)
Theorem tlCache_only_grows (q : qparam) (env : Env) (st st' : State)
    (r : Response) (calls : list (list jsstring)) :
  handler q env st = (r, st', calls) ->
  (forall k e, tlCache st !! k = Some e ->
     exists e', tlCache st' !! k = Some e'
                /\ (e' = e
                    \/ (c_t e' = now_tl env
                        /\ TL_TTL_MS <= now_tl env - c_t e)))
  /\ (forall k e', tlCache st' !! k = Some e' ->
        tlCache st !! k = Some e'
        \/ (c_t e' = now_tl env
            /\ live_entry (tlCache st) (now_tl env) k = None
            /\ exists t, t ∈ request_items q env st
                         /\ k = cacheKey t
                         /\ looksEnglish (title t) = true)).
Proof.
  intros H. apply handler_effects in H as [Hc _]. rewrite Hc. clear Hc.
  set (c := tlCache st). set (now := now_tl env).
  set (items := request_items q env st).
  assert (Hidx : forall k, k ∈ (index (scanned_of c now items)).*2 ->
            live_entry c now k = None
            /\ exists t, t ∈ items /\ k = cacheKey t
                         /\ looksEnglish (title t) = true).
  { intros k Hk. apply list_elem_of_fmap in Hk as [[i k'] [-> Hin]].
    unfold scanned_of in Hin.
    apply scan_index_inv in Hin as [Hin|[j [p [t [_ [Hj [Hp [-> Hl]]]]]]]];
      [inversion Hin|].
    simpl in Hp. split; [exact Hl|]. exists t.
    split; [apply list_elem_of_lookup; exists p; exact Hp|].
    split; [reflexivity|].
    assert (Hpt : p ∈ targets items).
    { apply list_elem_of_lookup_2 in Hj. unfold limitedTargets in Hj.
      apply (elem_of_sublist _ _ _ Hj). apply sublist_take. }
    unfold targets in Hpt. apply positions_spec in Hpt as [_ [x [Hx He]]].
    rewrite Nat.sub_0_r, Hp in Hx. injection Hx as <-. exact He. }
  split.
  - intros k e He.
    destruct (tr_cache_lookup (DEEPL_AUTH_KEY env) (provider env) now c items k)
      as [Hsame|[e' [He' [Ht Hin]]]].
    + exists e. rewrite Hsame. split; [exact He | left; reflexivity].
    + exists e'. split; [exact He'|]. right. split; [exact Ht|].
      destruct (Hidx k Hin) as [Hl _]. unfold live_entry in Hl.
      rewrite He in Hl.
      destruct (now - c_t e <? TL_TTL_MS) eqn:E; [discriminate Hl|].
      apply Z.ltb_ge, E.
  - intros k e' He'.
    destruct (tr_cache_lookup (DEEPL_AUTH_KEY env) (provider env) now c items k)
      as [Hsame|[e2 [He2 [Ht Hin]]]].
    + left. rewrite <- Hsame. exact He'.
    + right. rewrite He' in He2. injection He2 as <-.
      split; [exact Ht|]. apply Hidx, Hin.
Qed.

(** X17: translation only adds two fields.  Whatever the provider and the
    cache do, the lists of [genres] with the [titleJa] and [summaryJa]
    properties removed are the lists of the untranslated items of each
    genre, in the order of the de-duplicated sequence: titles, genres and
    order never depend on the translation. *)
Theorem translation_only_adds_fields (q : qparam) (env : Env) (st st' : State)
    (doc : ResponseDoc) (calls : list (list jsstring)) :
  handler q env st = (R200 doc, st', calls) ->
  forall g,
    (fmap strip_ja <$> genres doc !! g)
    = match items_of_genre g (request_items q env st) with
      | [] => None
      | l => Some (clean <$> l)
      end.
Proof.
  intros H g. apply handler_200 in H as [Hgm _].
  rewrite (group_empty _ _ g Hgm).
  assert (Hstrip : forall it, strip_ja (clean it) = clean (base it)).
  { intros it. rewrite !clean_eq. destruct (ja it) as [[t s]|]; reflexivity. }
  assert (Hg : clean <$> items_of_genre g (request_items q env st)
               = strip_ja <$> (clean <$> items_of_genre g (final_items q env st))).
  { rewrite <- (final_items_base q env st).
    assert (Hgen : forall its,
              clean <$> items_of_genre g (base <$> its)
              = strip_ja <$> (clean <$> items_of_genre g its)).
    { clear -Hstrip. unfold items_of_genre.
      induction its as [|it its IH]; [reflexivity|].
      rewrite fmap_cons. simpl. rewrite genre_of_base.
      destruct (bool_decide (genre_of it = g)); [|exact IH].
      rewrite !fmap_cons, Hstrip. f_equal. exact IH. }
    apply Hgen. }
  destruct (items_of_genre g (final_items q env st)) as [|x xs];
    destruct (items_of_genre g (request_items q env st)) as [|y ys];
    try discriminate Hg; [reflexivity|].
  change (Some (strip_ja <$> (clean <$> x :: xs)) = Some (clean <$> y :: ys)).
  rewrite <- Hg. reflexivity.
Qed.

End CacheGrowth.

(* ===================================================================== *)
(** ** The write-back of fresh translations *)
(* ===================================================================== *)

(** [index] after the first loop, entry by entry: one entry for each
    missing item, in order, with its place in [limitedTargets] and its
    key. *)
Lemma scan_index_shape (c : gmap jsstring CacheEntry) (now : Z)
    (lt : list nat) (i : nat) (st : Scan) :
  exists idx,
    index (scan_cache c now i lt st) = index st ++ idx
    /\ Forall2 (fun e p => exists j t,
                  e.1 = (i + j)%nat /\ lt !! j = Some p
                  /\ sc_items st !! p = Some t /\ e.2 = cacheKey t)
               idx (missing c now (sc_items st) lt).
Proof.
  revert i st. induction lt as [|q lt IH]; intros i st.
  - exists []. split; [simpl; rewrite app_nil_r; reflexivity | constructor].
  - cbn [scan_cache]. unfold missing. cbn [List.filter].
    fold (missing c now (sc_items st) lt). unfold misses_at at 1.
    destruct (sc_items st !! q) as [tq|] eqn:Eq.
    + destruct (live_entry c now (cacheKey tq)) as [hit|] eqn:El.
      * destruct (IH (S i)
                    {| sc_items := alter (set_ja (c_titleJa hit, c_summaryJa hit))
                                         q (sc_items st);
                       need := need st; index := index st |})
          as [idx [E HF]].
        exists idx. split; [exact E|].
        cbn [sc_items] in HF. rewrite missing_alter in HF.
        eapply Forall2_impl; [exact HF|].
        intros e p [j [t [He [Hj [Hp Hk]]]]].
        rewrite lookup_alter_set_ja in Hp.
        destruct (sc_items st !! p) as [t0|] eqn:Ep; [|discriminate Hp].
        simpl in Hp. injection Hp as <-.
        exists (S j), t0. split; [lia|]. split; [exact Hj|].
        split; [reflexivity|]. rewrite Hk.
        destruct (decide (q = p)); reflexivity.
      * destruct (IH (S i)
                    {| sc_items := sc_items st;
                       need := need st ++ texts_of tq;
                       index := index st ++ [(i, cacheKey tq)] |})
          as [idx [E HF]].
        exists ((i, cacheKey tq) :: idx). split.
        -- rewrite E. cbn [index]. rewrite <- app_assoc. reflexivity.
        -- constructor.
           ++ exists 0%nat, tq. split; [simpl; lia|].
              split; [reflexivity|]. split; [exact Eq | reflexivity].
           ++ cbn [sc_items] in HF. eapply Forall2_impl; [exact HF|].
              intros e p [j [t [He [Hj [Hp Hk]]]]].
              exists (S j), t. split; [lia|]. split; [exact Hj|].
              split; [exact Hp | exact Hk].
    + destruct (IH (S i) st) as [idx [E HF]].
      exists idx. split; [exact E|].
      eapply Forall2_impl; [exact HF|].
      intros e p [j [t [He [Hj [Hp Hk]]]]].
      exists (S j), t. split; [lia|]. split; [exact Hj|].
      split; [exact Hp | exact Hk].
Qed.

(** The write-back loop gives the [j]-th entry of [index] the [j]-th pair
    of the answer. *)
Lemma write_back_items_paired (now : Z) (out : list (option jsstring))
    (lt : list nat) (idx : list (nat * jsstring)) (sub : list nat) :
  Forall2 (fun e p => lt !! e.1 = Some p) idx sub ->
  NoDup sub ->
  forall (k : nat) (items : list Item) (c : gmap jsstring CacheEntry)
         (j p : nat),
    sub !! j = Some p ->
    (write_back now out lt k idx items c).1 !! p
    = set_ja (pair_at out (k + j)) <$> items !! p.
Proof.
  induction 1 as [|[i key] p0 idx sub Hi HF IH]; intros Hnd k items c j p Hj;
    [discriminate Hj|].
  apply NoDup_cons in Hnd as [Hp0 Hnd]. simpl in Hi.
  cbn [write_back]. rewrite Hi. destruct j as [|j]; simpl in Hj.
  - injection Hj as <-. rewrite write_back_frame.
    + rewrite lookup_alter_set_ja, Nat.add_0_r.
      destruct (items !! p0); simpl; [|reflexivity].
      destruct (decide (p0 = p0)); [reflexivity | contradiction].
    + intros i' key' Hin Hl.
      apply list_elem_of_lookup in Hin as [n Hn].
      destruct (Forall2_lookup_l _ _ _ _ _ HF Hn) as [p' [Hp' Hr]].
      simpl in Hr. rewrite Hl in Hr. injection Hr as <-.
      apply Hp0, list_elem_of_lookup. exists n. exact Hp'.
  - rewrite (IH Hnd (S k) _ _ j p Hj).
    rewrite lookup_alter_set_ja.
    replace (S k + j)%nat with (k + S j)%nat by lia.
    destruct (items !! p); simpl; [|reflexivity].
    destruct (decide (p0 = p)) as [->|_]; [|reflexivity].
    exfalso. apply Hp0, list_elem_of_lookup. exists j. exact Hj.
Qed.

(** The entry stored under a key is that of the last entry of [index] with
    that key. *)
Lemma write_back_cache_paired (now : Z) (out : list (option jsstring))
    (lt : list nat) (idx : list (nat * jsstring)) (k : nat)
    (items : list Item) (c : gmap jsstring CacheEntry)
    (j i : nat) (key : jsstring) :
  idx !! j = Some (i, key) ->
  (forall j' e, (j < j')%nat -> idx !! j' = Some e -> e.2 <> key) ->
  (write_back now out lt k idx items c).2 !! key
  = Some {| c_t := now; c_titleJa := (pair_at out (k + j)).1;
            c_summaryJa := (pair_at out (k + j)).2 |}.
Proof.
  revert k items c j. induction idx as [|[i0 key0] idx IH];
    intros k items c j Hj Hlast; [discriminate Hj|].
  cbn [write_back]. destruct j as [|j]; simpl in Hj.
  - injection Hj as -> ->. rewrite write_back_cache_frame.
    + rewrite lookup_insert_eq, Nat.add_0_r. reflexivity.
    + intros Hin. apply list_elem_of_fmap in Hin as [e [He Hin]].
      apply list_elem_of_lookup in Hin as [n Hn].
      apply (Hlast (S n) e); [lia | exact Hn | symmetry; exact He].
  - rewrite (IH (S k) _ _ j Hj).
    + replace (S k + j)%nat with (k + S j)%nat by lia. reflexivity.
    + intros j' e Hlt He. apply (Hlast (S j') e); [lia | exact He].
Qed.

Lemma flat_map_pairs {A B} (f : A -> list B) (l : list A) (j : nat)
    (x : A) (a b : B) :
  (forall y, y ∈ l -> length (f y) = 2%nat) ->
  l !! j = Some x -> f x = [a; b] ->
  flat_map f l !! (j * 2)%nat = Some a
  /\ flat_map f l !! (j * 2 + 1)%nat = Some b.
Proof.
  revert j. induction l as [|y l IH]; intros j Hlen Hj Hx; [discriminate Hj|].
  simpl. destruct j as [|j]; simpl in Hj.
  - injection Hj as ->. rewrite Hx. split; reflexivity.
  - assert (Hy : length (f y) = 2%nat) by (apply Hlen; left).
    destruct (f y) as [|a0 [|b0 [|]]]; try discriminate Hy.
    destruct (IH j) as [H1 H2]; [|exact Hj|exact Hx|].
    + intros z Hz. apply Hlen. right. exact Hz.
    + split; [exact H1 | exact H2].
Qed.

(** [out[k] || null]: the text at place [k] when there is one and it is not
    empty, [null] otherwise. *)
Lemma out_or_null_spec (out : list (option jsstring)) (k : nat) :
  (forall s, out !! k = Some (Some s) -> s <> [] -> out_or_null out k = Some s)
  /\ (out !! k = None \/ out !! k = Some None \/ out !! k = Some (Some []) ->
      out_or_null out k = None).
Proof.
  unfold out_or_null. split.
  - intros s -> Hs. destruct s; [congruence | reflexivity].
  - intros [H | [H | H]]; unfold jsstring in *; rewrite H; reflexivity.
Qed.

Section Pairing.
Context `{host : Host}.

(** X16: translations are matched with items by position only.  When the
    provider answers, the texts of the [j]-th submitted item stand at the
    places [2j] and [2j+1] of the call, and the item, otherwise as the feed
    gave it, receives as [titleJa] and [summaryJa] what the answer holds at
    those two places: the text there when it is not empty, and [null] when
    the answer is too short or holds [null] or an empty text there; nothing
    compares the answer with the request.  The emitted object has the two
    as its [titleJa] and [summaryJa] properties.  The same pair is stored
    in the cache under the key of the item, with the time of the request
    (when several submitted items share a key, the last one's pair
    stays). *)
Theorem translations_paired_by_position (q : qparam) (env : Env) (st : State)
    (o : option jsstring) (out : list (option jsstring))
    (j p : nat) (t : Item) :
  let items := request_items q env st in
  let sub := submitted (tlCache st) (now_tl env) items in
  let need := need_of (tlCache st) (now_tl env) items in
  let answer := o :: out in
  DEEPL_AUTH_KEY env = true ->
  provider env need = ProviderReturns answer ->
  sub !! j = Some p ->
  items !! p = Some t ->
  need !! (j * 2)%nat = Some (title t)
  /\ need !! (j * 2 + 1)%nat
     = Some (slice0 400 (or_empty (or_else (summary t) (Some []))))
  /\ exists t' titleJa summaryJa,
       final_items q env st !! p = Some t'
       /\ base t' = t
       /\ ja t' = Some (titleJa, summaryJa)
       /\ get (u "titleJa") (clean t') = Some titleJa
       /\ get (u "summaryJa") (clean t') = Some summaryJa
       /\ (forall s, answer !! (j * 2)%nat = Some (Some s) -> s <> [] ->
                     titleJa = Some s)
       /\ (answer !! (j * 2)%nat = None
           \/ answer !! (j * 2)%nat = Some None
           \/ answer !! (j * 2)%nat = Some (Some []) ->
           titleJa = None)
       /\ (forall s, answer !! (j * 2 + 1)%nat = Some (Some s) -> s <> [] ->
                     summaryJa = Some s)
       /\ (answer !! (j * 2 + 1)%nat = None
           \/ answer !! (j * 2 + 1)%nat = Some None
           \/ answer !! (j * 2 + 1)%nat = Some (Some []) ->
           summaryJa = None)
       /\ ((forall j' p' t', (j < j')%nat -> sub !! j' = Some p' ->
                             items !! p' = Some t' ->
                             cacheKey t' <> cacheKey t) ->
           tlCache (handler q env st).1.2 !! cacheKey t
           = Some {| c_t := now_tl env;
                     c_titleJa := titleJa;
                     c_summaryJa := summaryJa |}).
Proof.
  intros items sub need answer Hkey Hprov Hj Ht. unfold answer in *.
  set (c := tlCache st) in *. set (now := now_tl env) in *.
  assert (Hsubitem : forall y, y ∈ sub -> exists ty,
             items !! y = Some ty /\ live_entry c now (cacheKey ty) = None
             /\ y ∈ limitedTargets items).
  { intros y Hy. unfold sub, submitted, missing in Hy.
    apply list_elem_of_In, filter_In in Hy as [Hin Hm].
    unfold misses_at in Hm. destruct (items !! y) as [ty|]; [|discriminate Hm].
    exists ty. split; [reflexivity|].
    split; [|apply list_elem_of_In, Hin].
    destruct (live_entry c now (cacheKey ty)); [discriminate Hm | reflexivity]. }
  assert (Hpairs : need !! (j * 2)%nat = Some (title t)
                   /\ need !! (j * 2 + 1)%nat
                      = Some (slice0 400 (or_empty (or_else (summary t)
                                                            (Some []))))).
  { unfold need, need_of. fold sub.
    apply (flat_map_pairs (texts_at items) sub j p).
    - intros y Hy. destruct (Hsubitem y Hy) as [ty [Hty _]].
      unfold texts_at. rewrite Hty. reflexivity.
    - exact Hj.
    - unfold texts_at. rewrite Ht. reflexivity. }
  split; [exact (proj1 Hpairs)|]. split; [exact (proj2 Hpairs)|].
  assert (Hneed : is_nil need = false).
  { destruct Hpairs as [H1 _]. destruct need; [discriminate H1 | reflexivity]. }
  destruct (scan_index_shape c now (limitedTargets items) 0 (scan_start items))
    as [idx [Eidx HF]].
  fold (scanned_of c now items) in Eidx. simpl in Eidx.
  cbn [scan_start sc_items] in HF. fold (submitted c now items) in HF.
  fold sub in HF.
  assert (Hnd : NoDup sub).
  { apply (sublist_NoDup sub (targets items)).
    - apply StronglySorted_lt_NoDup, positions_sorted.
    - unfold sub, submitted, missing, limitedTargets.
      etransitivity; [apply filter_sublist | apply sublist_take]. }
  assert (HF1 : Forall2 (fun e p => limitedTargets items !! e.1 = Some p)
                        idx sub).
  { eapply Forall2_impl; [exact HF|].
    intros e y [j0 [t0 [He [Hl _]]]]. rewrite He. exact Hl. }
  assert (Hscan : sc_items (scanned_of c now items) !! p = Some t).
  { destruct (Hsubitem p) as [tp [Htp [Hl Hin]]];
      [apply list_elem_of_lookup; exists j; exact Hj|].
    assert (tp = t) by congruence. subst tp.
    unfold scanned_of. rewrite scan_items. simpl. rewrite Ht, Hl.
    destruct (bool_decide (p ∈ limitedTargets items)); reflexivity. }
  assert (Htr : translate true (provider env) now c items
                = let '(its, cache) :=
                    write_back now (o :: out) (limitedTargets items) 0 idx
                      (sc_items (scanned_of c now items)) c in
                  {| tr_items := its; tr_cache := cache;
                     tr_calls := [need] |}).
  { unfold translate. fold (scan_start items). fold (scanned_of c now items).
    rewrite scanned_need. fold need. rewrite Hneed. simpl.
    unfold deeplTranslateToJA. rewrite Hneed. simpl. rewrite Hprov.
    rewrite Eidx. reflexivity. }
  assert (Hbase : base t = t).
  { assert (Hb : (base <$> items) !! p = Some t)
      by (unfold items; rewrite request_items_base; exact Ht).
    rewrite list_lookup_fmap, Ht in Hb. simpl in Hb. injection Hb as Hb.
    exact Hb. }
  exists (set_ja (pair_at (o :: out) j) t),
         (out_or_null (o :: out) (j * 2)),
         (out_or_null (o :: out) (j * 2 + 1)).
  split; [|split; [exact Hbase|split; [reflexivity|]]].
  { unfold final_items. fold items. fold c. fold now. rewrite Hkey, Htr.
    pose proof (write_back_items_paired now (o :: out) (limitedTargets items)
                  idx sub HF1 Hnd 0 (sc_items (scanned_of c now items)) c
                  j p Hj) as Hw.
    destruct (write_back _ _ _ _ _ _ _) as [its cache]. simpl in *.
    rewrite Hw, Hscan. reflexivity. }
  split; [rewrite clean_eq; reflexivity|].
  split; [rewrite clean_eq; reflexivity|].
  split; [apply out_or_null_spec|]. split; [apply out_or_null_spec|].
  split; [apply out_or_null_spec|]. split; [apply out_or_null_spec|].
  - intros Hlast.
    destruct (handler q env st) as [[r st'] calls] eqn:Eh.
    apply handler_effects in Eh as [Hc _]. simpl. rewrite Hc.
    fold items. fold c. fold now. rewrite Hkey, Htr.
    destruct (Forall2_lookup_r _ _ _ _ _ HF Hj) as [[i key] [Hidx Hr]].
    destruct Hr as [j0 [t0 [_ [_ [Ht0 Hk]]]]]. simpl in Ht0, Hk.
    assert (t0 = t) by congruence. subst t0. subst key.
    pose proof (write_back_cache_paired now (o :: out) (limitedTargets items)
                  idx 0 (sc_items (scanned_of c now items)) c j i
                  (cacheKey t) Hidx) as Hw.
    destruct (write_back _ _ _ _ _ _ _) as [its cache]. simpl in *.
    apply Hw. intros j' e Hlt He.
    destruct (Forall2_lookup_l _ _ _ _ _ HF He) as [p' [Hp' Hr]].
    destruct Hr as [j1 [t1 [_ [_ [Ht1 Hk1]]]]]. rewrite Hk1.
    apply (Hlast j' p' t1 Hlt Hp' Ht1).
Qed.

End Pairing.

(* ===================================================================== *)
(** ** The page and the response *)
(* ===================================================================== *)

Lemma compare_units_eq (a b : jsstring) :
  IsoHost.compare_units a b = Eq -> a = b.
Proof.
  revert b. induction a as [|x a IH]; intros [|y b]; simpl; try discriminate;
    [reflexivity|].
  destruct (x ?= y)%N eqn:E; try discriminate.
  apply N.compare_eq in E. intros H. rewrite E, (IH b H). reflexivity.
Qed.

Lemma units_order_antisym :
  AntiSymm eq (not_after IsoHost.compare_units).
Proof.
  intros a b Hab Hba. unfold not_after in *.
  rewrite compare_units_antisym in Hba.
  destruct (IsoHost.compare_units a b) eqn:E; simpl in Hba;
    [apply compare_units_eq, E | congruence | congruence].
Qed.

Lemma filter_split_Permutation {A} (p : A -> bool) (l : list A) :
  List.filter p l ++ List.filter (fun x => negb (p x)) l ≡ₚ l.
Proof.
  induction l as [|x l IH]; simpl; [reflexivity|].
  destruct (p x); simpl.
  - rewrite IH. reflexivity.
  - rewrite <- Permutation_middle, IH. reflexivity.
Qed.

Lemma filter_Permutation {A} (p : A -> bool) (l1 l2 : list A) :
  l1 ≡ₚ l2 -> List.filter p l1 ≡ₚ List.filter p l2.
Proof.
  induction 1 as [|x l1 l2 _ IH|x y l|l1 l2 l3 _ IH1 _ IH2]; simpl.
  - reflexivity.
  - destruct (p x); rewrite IH; reflexivity.
  - destruct (p x), (p y); try reflexivity. apply perm_swap.
  - rewrite IH1. exact IH2.
Qed.

Lemma filter_ext_elem {A} (p q : A -> bool) (l : list A) :
  (forall x, x ∈ l -> p x = q x) -> List.filter p l = List.filter q l.
Proof.
  induction l as [|x l IH]; intros H; simpl; [reflexivity|].
  rewrite (H x) by left. rewrite IH; [reflexivity|].
  intros y Hy. apply H. right. exact Hy.
Qed.

Lemma NoDup_filter_bool {A} (p : A -> bool) (l : list A) :
  NoDup l -> NoDup (List.filter p l).
Proof.
  intros H. apply (sublist_NoDup _ l); [exact H | apply filter_sublist].
Qed.

Lemma GENRE_ORDER_NoDup : NoDup App.GENRE_ORDER.
Proof. apply (bool_decide_unpack _). vm_compute. exact I. Qed.

Lemma ordered_Permutation (keys : list jsstring) :
  NoDup keys -> App.ordered keys ≡ₚ keys.
Proof.
  intros Hnd. unfold App.ordered.
  transitivity
    (List.filter (fun k => bool_decide (k ∈ App.GENRE_ORDER)) keys
     ++ List.filter (fun k => negb (bool_decide (k ∈ App.GENRE_ORDER))) keys);
    [|apply filter_split_Permutation].
  apply Permutation_app;
    [|apply (Array_sort_Permutation IsoHost.compare_units)].
  apply NoDup_Permutation.
  - apply NoDup_filter_bool, GENRE_ORDER_NoDup.
  - apply NoDup_filter_bool, Hnd.
  - intros k. rewrite !list_elem_of_In, !filter_In, !bool_decide_eq_true.
    rewrite !list_elem_of_In. tauto.
Qed.

(** X18: the order of the side bar.  The names shown are the keys of the
    response, each once: first those of [GENRE_ORDER], in that order, then
    the others sorted by code units.  The list does not depend on the order
    in which the engine enumerates the keys. *)
Theorem sidebar_order (keys : list jsstring) :
  NoDup keys ->
  App.ordered keys ≡ₚ keys
  /\ (exists rest,
        App.ordered keys
        = List.filter (fun k => bool_decide (k ∈ keys)) App.GENRE_ORDER ++ rest
        /\ StronglySorted (not_after IsoHost.compare_units) rest
        /\ forall k, k ∈ rest <-> k ∈ keys /\ k ∉ App.GENRE_ORDER)
  /\ forall keys', keys' ≡ₚ keys -> App.ordered keys' = App.ordered keys.
Proof.
  intros Hnd. split; [|split].
  - apply ordered_Permutation, Hnd.
  - eexists. split; [reflexivity|]. split.
    + apply Array_sort_sorted.
      * apply compare_units_antisym.
      * apply compare_units_trans.
    + intros k. rewrite (Array_sort_Permutation IsoHost.compare_units).
      rewrite list_elem_of_In, filter_In, negb_true_iff, bool_decide_eq_false.
      rewrite <- list_elem_of_In. reflexivity.
  - intros keys' Hperm. unfold App.ordered. f_equal.
    + apply filter_ext_elem. intros k _. apply bool_decide_ext.
      rewrite Hperm. reflexivity.
    + apply (@StronglySorted_unique _ (not_after IsoHost.compare_units)
               units_order_antisym).
      * apply Array_sort_sorted;
          [apply compare_units_antisym | apply compare_units_trans].
      * apply Array_sort_sorted;
          [apply compare_units_antisym | apply compare_units_trans].
      * rewrite !(Array_sort_Permutation IsoHost.compare_units).
        apply filter_Permutation, Hperm.
Qed.

Lemma sidebar_order_witness :
  App.ordered (map u ["Zydeco"; "Rock"; "Jazz"; "Techno"]%string)
  ≡ₚ map u ["Zydeco"; "Rock"; "Jazz"; "Techno"]%string.
Proof.
  apply sidebar_order. apply (bool_decide_unpack _). vm_compute. exact I.
Defined.

Lemma get_rest_without (k k' : jsstring) (o : obj) :
  k <> k' -> get k (rest_without k' o) = get k o.
Proof.
  intros Hne. unfold get, rest_without.
  induction o as [|[a v] o IH]; simpl; [reflexivity|].
  destruct (bool_decide_reflect (a = k')) as [->|Ha]; simpl.
  - rewrite IH. rewrite bool_decide_eq_false_2 by congruence. reflexivity.
  - destruct (bool_decide (a = k)); [reflexivity | exact IH].
Qed.

Lemma item_matches_strip `{host : Host} (query : jsstring) (o : obj) :
  App.item_matches query (strip_ja o) = App.item_matches query o.
Proof.
  unfold App.item_matches, strip_ja.
  rewrite !get_rest_without by (intros H; vm_compute in H; discriminate H).
  reflexivity.
Qed.

(** X19: the search box.  The items shown are a subsequence of the list of
    the active genre, in the order of the response; a query that is empty
    or blank shows the whole list; any other query shows exactly the items
    whose [title] or [source], trimmed and put in lower case, contains the
    query, trimmed and put in lower case; and the filter reads [title] and
    [source] only, so that it gives the same items whether or not they
    carry the translated title that the page displays. *)
Theorem search_filter `{host : Host}
    (data : option (gmap jsstring (list obj))) (activeGenre q : jsstring) :
  (forall shown, App.activeItems data activeGenre q = Some shown ->
     sublist shown (App.listed data activeGenre)
     /\ (trim q = [] -> shown = App.listed data activeGenre)
     /\ (toLowerCase (trim q) = [] -> shown = App.listed data activeGenre)
     /\ (toLowerCase (trim q) <> [] ->
         forall o,
           o ∈ shown
           <-> o ∈ App.listed data activeGenre
               /\ (occurs_in (toLowerCase (trim q))
                             (toLowerCase (App.norm (get (u "title") o)))
                   \/ occurs_in (toLowerCase (trim q))
                                (toLowerCase (App.norm (get (u "source") o))))))
  /\ App.activeItems (strip_data data) activeGenre q
     = fmap (M := option) (fmap (M := list) strip_ja)
            (App.activeItems data activeGenre q).
Proof.
  assert (Hq : is_empty (toLowerCase (App.norm (Some (Some q)))) = true
               <-> toLowerCase (trim q) = []).
  { unfold App.norm. destruct (toLowerCase (trim q)); simpl; split; congruence. }
  assert (Hblank : trim q = [] -> toLowerCase (trim q) = []).
  { intros ->. apply (toLowerCase_all_plain [] eq_refl). }
  split.
  - intros shown H. unfold App.activeItems in H.
    set (query := toLowerCase (App.norm (Some (Some q)))) in *.
    assert (Hshown : forall items,
               let res := if is_empty query then items
                          else List.filter (App.item_matches query) items in
               sublist res items
               /\ (trim q = [] -> res = items)
               /\ (toLowerCase (trim q) = [] -> res = items)
               /\ (toLowerCase (trim q) <> [] ->
                   forall o,
                     o ∈ res
                     <-> o ∈ items
                         /\ (occurs_in (toLowerCase (trim q))
                               (toLowerCase (App.norm (get (u "title") o)))
                             \/ occurs_in (toLowerCase (trim q))
                                  (toLowerCase (App.norm (get (u "source") o)))))).
    { intros items res. subst res. destruct (is_empty query) eqn:E.
      - split; [reflexivity|]. split; [reflexivity|]. split; [reflexivity|].
        intros Hne. exfalso. apply Hne, Hq. reflexivity.
      - assert (Hne : toLowerCase (trim q) <> []).
        { intros Hb. apply Hq in Hb. congruence. }
        split; [apply filter_sublist|]. split; [|split].
        + intros Hb. exfalso. apply Hne, Hblank, Hb.
        + intros Hb. contradiction.
        + intros _ o. rewrite !list_elem_of_In, filter_In.
          unfold App.item_matches. rewrite orb_true_iff, !includes_spec.
          reflexivity. }
    destruct data as [g|]; simpl.
    + destruct (g !! activeGenre) as [items|]; simpl.
      * injection H as <-. apply Hshown.
      * destruct (bool_decide _); [discriminate H|]. injection H as <-.
        apply (Hshown []).
    + injection H as <-. apply (Hshown []).
  - unfold App.activeItems.
    set (query := toLowerCase (App.norm (Some (Some q)))).
    assert (Hmap : forall items,
               (if is_empty query then strip_ja <$> items
                else List.filter (App.item_matches query) (strip_ja <$> items))
               = strip_ja <$> (if is_empty query then items
                               else List.filter (App.item_matches query) items)).
    { intros items. destruct (is_empty query); [reflexivity|].
      induction items as [|o items IH]; [reflexivity|].
      rewrite fmap_cons. simpl. rewrite item_matches_strip.
      destruct (App.item_matches query o); [|exact IH].
      rewrite fmap_cons, IH. reflexivity. }
    destruct data as [g|]; simpl.
    + rewrite lookup_fmap. destruct (g !! activeGenre) as [items|]; simpl.
      * rewrite Hmap. reflexivity.
      * destruct (bool_decide _); [reflexivity|]. simpl.
        destruct (is_empty query); reflexivity.
    + destruct (is_empty query); reflexivity.
Qed.

Lemma group_sum `{host : Host} (items : list Item) (gm0 gm : gmap jsstring (list obj)) :
  group_loop gm0 items = Some gm ->
  sum_list_with length (map_to_list gm).*2
  = (sum_list_with length (map_to_list gm0).*2 + length items)%nat.
Proof.
  revert gm0. induction items as [|it items IH]; intros gm0 H.
  - simpl in H. injection H as <-. cbn [length]. rewrite Nat.add_0_r.
    reflexivity.
  - simpl in H. destruct (group_step gm0 it) as [gm1|] eqn:E; [|discriminate H].
    rewrite (IH gm1 H). clear IH H. simpl.
    enough (Hstep : sum_list_with length (map_to_list gm1).*2
                    = S (sum_list_with length (map_to_list gm0).*2)) by lia.
    unfold group_step in E.
    set (g := pickGenre (title it) (source it) (_fallbackGenre it)) in E.
    destruct (gm0 !! g) as [l|] eqn:El.
    + injection E as <-.
      rewrite <- (insert_delete_eq gm0 g (l ++ [clean it])).
      rewrite (map_to_list_insert (delete g gm0) g (l ++ [clean it]))
        by apply lookup_delete_eq.
      rewrite <- (map_to_list_delete gm0 g l El).
      rewrite !fmap_cons. cbn [sum_list_with snd]. rewrite length_app.
      cbn [length]. lia.
    + destruct (bool_decide (g ∈ Object_prototype_keys)); [discriminate E|].
      injection E as <-.
      rewrite (map_to_list_insert gm0 g [clean it] El).
      rewrite fmap_cons. cbn [sum_list_with snd length]. lia.
Qed.

Lemma totalCount_sum (values : list (list obj)) :
  App.totalCount values = sum_list_with length values.
Proof.
  unfold App.totalCount.
  enough (H : forall a, foldl (fun acc arr => (acc + length arr)%nat) a values
                        = (a + sum_list_with length values)%nat)
    by (rewrite H; reflexivity).
  induction values as [|v values IH]; intros a; simpl; [lia|].
  rewrite IH. lia.
Qed.

Lemma filter_all {A} (p : A -> bool) (l : list A) :
  (forall x, x ∈ l -> p x = true) -> List.filter p l = l.
Proof.
  induction l as [|x l IH]; intros H; simpl; [reflexivity|].
  rewrite (H x) by left. rewrite IH; [reflexivity|].
  intros y Hy. apply H. right. exact Hy.
Qed.

Lemma next_activeGenre_in (keys : list jsstring) (cur : jsstring) :
  keys <> [] -> App.next_activeGenre keys cur ∈ keys.
Proof.
  destruct keys as [|k0 keys]; [congruence|]. intros _.
  unfold App.next_activeGenre.
  destruct (bool_decide_reflect (cur ∈ k0 :: keys)) as [Hc|_]; [exact Hc|].
  destruct (List.find _ App.GENRE_ORDER) as [k|] eqn:E.
  - apply find_some in E as [_ E]. apply bool_decide_eq_true in E. exact E.
  - left.
Qed.

Section Page.
Context `{host : Host}.

(** X20: the page after a response of the handler.  The total shown is
    [totalItems]; every key has a button, whether or not empty genres are
    hidden, since no list of the response is empty; and when the response
    has an item, the genre made active is a key of the response (the one
    that was active if it still is a key, else the first of [GENRE_ORDER]
    that is one, else the first key), whose list, not empty, is what an
    empty search shows. *)
Theorem page_after_response (q : qparam) (env : Env) (st st' : State)
    (doc : ResponseDoc) (calls : list (list jsstring))
    (keys : list jsstring) (values : list (list obj)) (cur : jsstring) :
  handler q env st = (R200 doc, st', calls) ->
  keys ≡ₚ (map_to_list (genres doc)).*1 ->
  values ≡ₚ (map_to_list (genres doc)).*2 ->
  App.totalCount values = totalItems doc
  /\ (forall hideEmpty,
        App.sidebar hideEmpty (genres doc) keys = App.ordered keys)
  /\ App.ordered keys ≡ₚ keys
  /\ (totalItems doc <> 0%nat ->
      App.next_activeGenre keys cur ∈ keys
      /\ (cur ∈ keys -> App.next_activeGenre keys cur = cur)
      /\ exists l,
           genres doc !! App.next_activeGenre keys cur = Some l
           /\ l <> []
           /\ App.activeItems (Some (genres doc))
                              (App.next_activeGenre keys cur) []
              = Some l).
Proof.
  intros H Hkeys Hvalues.
  pose proof (handler_200 q env st st' doc calls H)
    as [Hgm [_ [_ [_ [Htotal _]]]]].
  assert (Hsum : App.totalCount values = totalItems doc).
  { rewrite totalCount_sum, Hvalues, (group_sum _ _ _ Hgm).
    rewrite map_to_list_empty. simpl. rewrite Htotal.
    rewrite <- (final_items_base q env st), length_fmap. reflexivity. }
  assert (Hnd : NoDup keys).
  { rewrite Hkeys. apply NoDup_fst_map_to_list. }
  assert (Hkey : forall k, k ∈ keys ->
                   exists l, genres doc !! k = Some l /\ l <> []).
  { intros k Hk. rewrite Hkeys in Hk.
    apply list_elem_of_fmap in Hk as [[k' l] [-> Hin]].
    apply elem_of_map_to_list in Hin. simpl. exists l.
    split; [exact Hin|].
    apply (emitted_lookup q env st st' doc calls k' l H Hin). }
  pose proof (ordered_Permutation keys Hnd) as Hperm.
  split; [exact Hsum|]. split; [|split; [exact Hperm|]].
  - intros hideEmpty. unfold App.sidebar. apply filter_all.
    intros k Hk. rewrite Hperm in Hk.
    destruct (Hkey k Hk) as [l [-> Hne]]. simpl.
    destruct l; [congruence|]. apply orb_true_r.
  - intros Hpos.
    assert (Hne : keys <> []).
    { intros ->. apply Hpos. rewrite <- Hsum, totalCount_sum, Hvalues.
      symmetry in Hkeys. apply Permutation_nil_r in Hkeys.
      apply fmap_nil_inv in Hkeys. rewrite Hkeys. reflexivity. }
    pose proof (next_activeGenre_in keys cur Hne) as Hin.
    split; [exact Hin|]. split.
    + intros Hc. unfold App.next_activeGenre.
      destruct keys as [|k0 keys']; [reflexivity|].
      rewrite bool_decide_eq_true_2 by exact Hc. reflexivity.
    + destruct (Hkey _ Hin) as [l [Hl Hlne]]. exists l.
      split; [exact Hl|]. split; [exact Hlne|].
      unfold App.activeItems. rewrite Hl.
      change (App.norm (Some (Some []))) with (@nil N).
      rewrite (toLowerCase_all_plain [] eq_refl). reflexivity.
Qed.

End Page.

(* ===================================================================== *)
(** ** Further properties of the [hours] parameter *)
(* ===================================================================== *)

Lemma decimal_digit_of (c : N) :
  is_decimal_digit c = true -> digit_of 10 c = Some (Z.of_N c - 48).
Proof.
  unfold is_decimal_digit, digit_of. intros H. rewrite H.
  apply andb_true_iff in H as [H1 H2].
  apply N.leb_le in H1. apply N.leb_le in H2.
  destruct (Z.of_N c - 48 <? 10) eqn:E; [reflexivity|].
  apply Z.ltb_ge in E. lia.
Qed.

Lemma span_decimal (s : jsstring) (acc : Z) (n : nat) :
  Forall (fun c => is_decimal_digit c = true) s ->
  span_digits 10 acc n s
  = (fold_left (fun a c => 10 * a + (Z.of_N c - 48)) s acc,
     (n + length s)%nat, []).
Proof.
  intros H. revert acc n. induction H as [|c s Hc _ IH]; intros acc n; simpl.
  - rewrite Nat.add_0_r. reflexivity.
  - rewrite (decimal_digit_of c Hc), IH, Nat.add_succ_r. reflexivity.
Qed.

Lemma decimal_digit_not_ws (c : N) :
  is_decimal_digit c = true -> is_ws c = false.
Proof.
  unfold is_decimal_digit, is_ws. intros H.
  apply andb_true_iff in H as [H1 H2].
  apply N.leb_le in H1. apply N.leb_le in H2.
  repeat (apply orb_false_iff; split);
    try (apply N.eqb_neq; lia).
  apply andb_false_iff. left. apply N.leb_gt. lia.
Qed.

Lemma trim_decimal (s : jsstring) :
  Forall (fun c => is_decimal_digit c = true) s -> trim s = s.
Proof.
  intros H. apply trim_fixed.
  - destruct H as [|c s Hc _]; [exact I|]. simpl.
    apply decimal_digit_not_ws, Hc.
  - unfold no_trail. apply Forall_rev in H.
    destruct H as [|c r Hc _]; [exact I|]. simpl.
    apply decimal_digit_not_ws, Hc.
Qed.

Lemma str_decimal_digits (s : jsstring) :
  s <> [] ->
  Forall (fun c => is_decimal_digit c = true) s ->
  str_decimal s = round64 (ofZ (decimal_value s)).
Proof.
  intros Hne H. unfold str_decimal.
  assert (Hsign : match s with
                  | 43%N :: r => (false, r)
                  | 45%N :: r => (true, r)
                  | _ => (false, s)
                  end = (false, s)).
  { destruct H as [|c s Hc _]; [reflexivity|].
    destruct c as [|p]; [reflexivity|].
    do 6 (destruct p as [p|p|]; try reflexivity);
      vm_compute in Hc; discriminate Hc. }
  rewrite Hsign.
  rewrite bool_decide_eq_false_2.
  2:{ intros ->. apply Forall_cons in H as [Hc _]. vm_compute in Hc.
      discriminate Hc. }
  unfold unsigned_decimal. rewrite (span_decimal s 0 0 H). simpl.
  destruct (length s) eqn:El; [destruct s; [congruence | discriminate El]|].
  unfold scale10. simpl. rewrite Z.mul_1_r. reflexivity.
Qed.

Lemma decimal_value_nonneg (s : jsstring) :
  Forall (fun c => is_decimal_digit c = true) s -> 0 <= decimal_value s.
Proof.
  unfold decimal_value. intros H.
  enough (G : forall acc, 0 <= acc ->
                0 <= fold_left (fun a c => 10 * a + (Z.of_N c - 48)) s acc)
    by (apply G; lia).
  induction H as [|c s Hc _ IH]; intros acc Hacc; simpl; [exact Hacc|].
  apply IH. unfold is_decimal_digit in Hc.
  apply andb_true_iff in Hc as [H1 _]. apply N.leb_le in H1. lia.
Qed.

(** The clamp of what an integer rounds to. *)
Lemma clamp_round64_ofZ (v : Z) :
  0 <= v ->
  Math_max (Fin (ofZ 1)) (Math_min (Fin (ofZ 72)) (round64 (ofZ v)))
  = Fin (ofZ (Z.max 1 (Z.min 72 v))).
Proof.
  intros Hv. assert (H53 : 2 ^ 53 = 9007199254740992) by reflexivity.
  destruct (Z_lt_le_dec v (2 ^ 53)) as [Hlt|Hge].
  - rewrite round64_ofZ by lia. rewrite clamp_Fin, clampQ_ofZ. reflexivity.
  - replace (Z.max 1 (Z.min 72 v)) with 72 by lia.
    destruct (round64_large v Hge) as [->|[x [-> Hx]]]; [reflexivity|].
    rewrite clamp_Fin. f_equal. unfold clampQ.
    assert (H72 : (ofZ 72 < x)%Qc).
    { eapply Qclt_le_trans; [|exact Hx]. apply ofZ_lt. lia. }
    rewrite bool_decide_eq_false_2.
    + rewrite bool_decide_eq_true_2 by exact H72. reflexivity.
    + apply Qcle_not_lt, Qclt_le_weak.
      eapply Qclt_trans; [|exact H72]. apply ofZ_lt. lia.
Qed.

(** X23: the parameter as the page sends it.  For every non-empty string
    of decimal digits, leading zeros included, the conversion gives the
    binary64 value nearest to the value of the string, which is that value
    itself below [2^53], and [hours] is the value of the string brought
    into the range from 1 to 72. *)
Theorem hours_of_decimal_string (s : jsstring) :
  s <> [] ->
  Forall (fun c => is_decimal_digit c = true) s ->
  Number_hours (QStr s) = round64 (ofZ (decimal_value s))
  /\ (decimal_value s < 2 ^ 53 ->
      Number_hours (QStr s) = Fin (ofZ (decimal_value s)))
  /\ hours_of (QStr s) = Fin (ofZ (Z.max 1 (Z.min 72 (decimal_value s)))).
Proof.
  intros Hne H.
  assert (Hn : Number_hours (QStr s) = round64 (ofZ (decimal_value s))).
  { unfold Number_hours, StringToNumber. rewrite (trim_decimal s H).
    destruct s as [|c0 s']; [congruence|].
    destruct s' as [|c1 r].
    - destruct c0 as [|p]; [apply (str_decimal_digits [0%N] Hne H)|].
      do 6 (destruct p as [p|p|];
            try apply (str_decimal_digits _ Hne H)).
    - assert (Hc1 : is_decimal_digit c1 = true).
      { apply Forall_cons in H as [_ H]. apply Forall_cons in H as [H _].
        exact H. }
      assert (Hx : ((c1 =? 120) || (c1 =? 88))%N = false
                   /\ ((c1 =? 111) || (c1 =? 79))%N = false
                   /\ ((c1 =? 98) || (c1 =? 66))%N = false).
      { unfold is_decimal_digit in Hc1.
        apply andb_true_iff in Hc1 as [H1 H2].
        apply N.leb_le in H1. apply N.leb_le in H2.
        repeat split; apply orb_false_iff; split; apply N.eqb_neq; lia. }
      destruct Hx as [Hx [Ho Hb]].
      destruct c0 as [|p]; [apply (str_decimal_digits _ Hne H)|].
      do 6 (destruct p as [p|p|];
            try apply (str_decimal_digits _ Hne H)).
      rewrite Hx, Ho, Hb. apply (str_decimal_digits _ Hne H). }
  pose proof (decimal_value_nonneg s H) as Hv.
  split; [exact Hn|]. split.
  - intros Hlt. rewrite Hn. apply round64_ofZ. lia.
  - unfold hours_of. rewrite Hn. apply clamp_round64_ofZ, Hv.
Qed.

Lemma hours_of_decimal_string_witness :
  hours_of (QStr (u "0048")) = Fin (ofZ 48)
  /\ Number_hours (QStr (u "9007199254740993"))
     = Fin (ofZ 9007199254740992)
  /\ Number_hours (QStr (u "9007199254740995"))
     = Fin (ofZ 9007199254740996)
  /\ hours_of (QStr (u "9007199254740993")) = Fin (ofZ 72).
Proof.
  split; [|split; [|split]].
  - apply (hours_of_decimal_string (u "0048")).
    + discriminate.
    + apply (bool_decide_unpack _). vm_compute. exact I.
  - destruct (hours_of_decimal_string (u "9007199254740993")) as [Hn _].
    + discriminate.
    + apply (bool_decide_unpack _). vm_compute. exact I.
    + rewrite Hn. vm_compute. reflexivity.
  - destruct (hours_of_decimal_string (u "9007199254740995")) as [Hn _].
    + discriminate.
    + apply (bool_decide_unpack _). vm_compute. exact I.
    + rewrite Hn. vm_compute. reflexivity.
  - apply (hours_of_decimal_string (u "9007199254740993")).
    + discriminate.
    + apply (bool_decide_unpack _). vm_compute. exact I.
Defined.

Lemma span_digits_rest (base : Z) (s : jsstring) (acc : Z) (n : nat)
    (v : Z) (n' : nat) (r : jsstring) (c : N) :
  span_digits base acc n s = (v, n', r) ->
  digit_of base c = None -> c ∈ s -> c ∈ r.
Proof.
  revert acc n. induction s as [|x s IH]; intros acc n H Hc Hin.
  - inversion Hin.
  - simpl in H. destruct (digit_of base x) as [d|] eqn:Ex.
    + apply elem_of_cons in Hin as [->|Hin]; [congruence|].
      apply (IH _ _ H Hc Hin).
    + injection H as _ _ <-. exact Hin.
Qed.

Lemma comma_no_digit (base : Z) : digit_of base 44%N = None.
Proof. reflexivity. Qed.

Lemma nondecimal_comma (base : Z) (r : jsstring) :
  44%N ∈ r -> nondecimal base r = NaN.
Proof.
  intros Hin. unfold nondecimal.
  destruct (span_digits base 0 0 r) as [[v k] rest] eqn:E.
  pose proof (span_digits_rest base r 0 0 v k rest 44%N E
                (comma_no_digit base) Hin) as Hr.
  destruct k; [reflexivity|]. destruct rest; [inversion Hr | reflexivity].
Qed.

Lemma exponent_part_comma (r : jsstring) :
  44%N ∈ r -> exponent_part r = None.
Proof.
  intros Hin. unfold exponent_part. destruct r as [|c r]; [inversion Hin|].
  destruct ((c =? 101) || (c =? 69))%N eqn:Ec; [|reflexivity].
  assert (Hr : 44%N ∈ r).
  { apply elem_of_cons in Hin as [<-|Hin];
      [vm_compute in Ec; discriminate Ec | exact Hin]. }
  assert (Hr' : 44%N ∈ (match r with
                        | 43%N :: r' => (false, r')
                        | 45%N :: r' => (true, r')
                        | _ => (false, r)
                        end).2).
  { destruct r as [|x r]; [inversion Hr|].
    destruct (decide (x = 43%N)) as [->|N43].
    { simpl. apply elem_of_cons in Hr as [Hr|Hr]; [discriminate Hr | exact Hr]. }
    destruct (decide (x = 45%N)) as [->|N45].
    { simpl. apply elem_of_cons in Hr as [Hr|Hr]; [discriminate Hr | exact Hr]. }
    destruct x as [|p]; [exact Hr|].
    do 6 (destruct p as [p|p|]; try exact Hr); congruence. }
  destruct (match r with
            | 43%N :: r' => (false, r')
            | 45%N :: r' => (true, r')
            | _ => (false, r)
            end) as [neg r'].
  simpl in Hr'.
  destruct (span_digits 10 0 0 r') as [[v k] rest] eqn:E.
  pose proof (span_digits_rest 10 r' 0 0 v k rest 44%N E
                (comma_no_digit 10) Hr') as Hrest.
  destruct k; [reflexivity|]. destruct rest; [inversion Hrest | reflexivity].
Qed.

Lemma unsigned_decimal_comma (s : jsstring) :
  44%N ∈ s -> unsigned_decimal s = None.
Proof.
  intros Hin. unfold unsigned_decimal.
  destruct (span_digits 10 0 0 s) as [[ip ni] r1] eqn:E1.
  pose proof (span_digits_rest 10 s 0 0 ip ni r1 44%N E1
                (comma_no_digit 10) Hin) as Hr1.
  assert (Hr2 : 44%N ∈ (match r1 with
                        | 46%N :: r => span_digits 10 ip 0 r
                        | _ => (ip, 0%nat, r1)
                        end).2).
  { destruct r1 as [|x r]; [inversion Hr1|].
    destruct (decide (x = 46%N)) as [->|N46].
    - apply elem_of_cons in Hr1 as [Hr1|Hr1]; [discriminate Hr1|].
      destruct (span_digits 10 ip 0 r) as [[m nf] r2] eqn:E2. simpl.
      apply (span_digits_rest 10 r ip 0 m nf r2 44%N E2
               (comma_no_digit 10) Hr1).
    - destruct x as [|p]; [exact Hr1|].
      do 6 (destruct p as [p|p|]; try exact Hr1); congruence. }
  destruct (match r1 with
            | 46%N :: r => span_digits 10 ip 0 r
            | _ => (ip, 0%nat, r1)
            end) as [[m nf] r2].
  simpl in Hr2. destruct (ni + nf)%nat; [reflexivity|].
  rewrite (exponent_part_comma r2 Hr2). reflexivity.
Qed.

Lemma str_decimal_comma (s : jsstring) :
  44%N ∈ s -> str_decimal s = NaN.
Proof.
  intros Hin. unfold str_decimal.
  assert (Hb : 44%N ∈ (match s with
                       | 43%N :: r => (false, r)
                       | 45%N :: r => (true, r)
                       | _ => (false, s)
                       end).2).
  { destruct s as [|x r]; [inversion Hin|].
    destruct (decide (x = 43%N)) as [->|N43].
    { simpl. apply elem_of_cons in Hin as [H|H]; [discriminate H | exact H]. }
    destruct (decide (x = 45%N)) as [->|N45].
    { simpl. apply elem_of_cons in Hin as [H|H]; [discriminate H | exact H]. }
    destruct x as [|p]; [exact Hin|].
    do 6 (destruct p as [p|p|]; try exact Hin); congruence. }
  destruct (match s with
            | 43%N :: r => (false, r)
            | 45%N :: r => (true, r)
            | _ => (false, s)
            end) as [neg body].
  simpl in Hb. rewrite bool_decide_eq_false_2.
  - rewrite (unsigned_decimal_comma body Hb). reflexivity.
  - intros ->. revert Hb. apply (bool_decide_unpack _). vm_compute. exact I.
Qed.

Lemma trim_keeps (s : jsstring) (c : N) :
  c ∈ s -> is_ws c = false -> c ∈ trim s.
Proof.
  intros Hin Hc. destruct (trimStart_suffix s) as [ws1 [E1 H1]].
  destruct (trimEnd_prefix (trimStart s)) as [ws2 [E2 H2]].
  fold (trim s) in E2. rewrite E1, E2 in Hin.
  rewrite !elem_of_app in Hin. destruct Hin as [Hin|[Hin|Hin]].
  - rewrite Forall_forall in H1. rewrite (H1 c Hin) in Hc. discriminate Hc.
  - exact Hin.
  - rewrite Forall_forall in H2. rewrite (H2 c Hin) in Hc. discriminate Hc.
Qed.

Lemma StringToNumber_comma (s : jsstring) :
  44%N ∈ s -> StringToNumber s = NaN.
Proof.
  intros Hin. apply (trim_keeps s 44%N) in Hin; [|reflexivity].
  unfold StringToNumber. destruct (trim s) as [|c0 t]; [inversion Hin|].
  assert (Hdec : str_decimal (c0 :: t) = NaN)
    by (apply str_decimal_comma, Hin).
  destruct (decide (c0 = 48%N)) as [->|N48].
  - destruct t as [|c r]; [exact Hdec|].
    assert (Hr : (((c =? 120) || (c =? 88))
                  || (((c =? 111) || (c =? 79))
                      || ((c =? 98) || (c =? 66))))%N = true -> 44%N ∈ r).
    { intros Hc. apply elem_of_cons in Hin as [Hin|Hin]; [discriminate Hin|].
      apply elem_of_cons in Hin as [<-|Hin];
        [vm_compute in Hc; discriminate Hc | exact Hin]. }
    destruct ((c =? 120) || (c =? 88))%N eqn:Ex.
    { apply nondecimal_comma, Hr. reflexivity. }
    destruct ((c =? 111) || (c =? 79))%N eqn:Eo.
    { apply nondecimal_comma, Hr. reflexivity. }
    destruct ((c =? 98) || (c =? 66))%N eqn:Eb.
    { apply nondecimal_comma, Hr. reflexivity. }
    exact Hdec.
  - destruct c0 as [|p]; [exact Hdec|].
    do 6 (destruct p as [p|p|]; try exact Hdec). congruence.
Qed.

Lemma join_comma (x y : jsstring) (l : list jsstring) :
  44%N ∈ join (u ",") (x :: y :: l).
Proof.
  change (join (u ",") (x :: y :: l))
    with (x ++ u "," ++ join (u ",") (y :: l)).
  apply elem_of_app. right. left.
Qed.

(** X24: a repeated parameter.  When the query carries [hours] more than
    once, the parameter is an array whose conversion joins the values with
    commas and is never a number: [hours] is [NaN], the bound of the window
    is [NaN], and no entry is dropped for its age.  A single value in an
    array counts as that value. *)
Theorem repeated_hours_not_numeric (x y : jsstring) (l : list jsstring) :
  hours_of (QArr (x :: y :: l)) = NaN
  /\ (forall now ms,
        num_ltb (Fin (ofZ ms)) (since_of now (hours_of (QArr (x :: y :: l))))
        = false)
  /\ hours_of (QArr [x]) = hours_of (QStr x).
Proof.
  assert (H : hours_of (QArr (x :: y :: l)) = NaN).
  { pose proof (hours_of_cases (QArr (x :: y :: l))) as Hc.
    unfold Number_hours in Hc.
    rewrite (StringToNumber_comma _ (join_comma x y l)) in Hc. exact Hc. }
  split; [exact H|]. split; [|reflexivity].
  intros now ms. rewrite H. reflexivity.
Qed.

(* ===================================================================== *)
(** ** From the sheet to the feed list *)
(* ===================================================================== *)

Lemma sheet_object (cols : list jsstring) :
  let o := row_object (map trim sheet_header) 0 cols ∅ in
  o !! u "enabled" = Some (sheet_cell cols 0)
  /\ o !! u "source" = Some (sheet_cell cols 1)
  /\ o !! u "url" = Some (sheet_cell cols 2)
  /\ o !! u "defaultGenre" = Some (sheet_cell cols 3).
Proof.
  intros o. unfold o.
  assert (Hlast : forall j h,
             map trim sheet_header !! j = Some h ->
             forall j', (j < j')%nat -> map trim sheet_header !! j' <> Some h).
  { intros j h Hj j' Hlt Hj'.
    do 4 (destruct j as [|j];
          [injection Hj as <-;
           do 4 (destruct j' as [|j']; [try lia; discriminate Hj'|]);
           discriminate Hj'|]).
    discriminate Hj. }
  split; [|split; [|split]].
  - apply (row_object_last _ 0 cols ∅ 0);
      [discriminate | reflexivity | apply (Hlast 0%nat); reflexivity].
  - apply (row_object_last _ 0 cols ∅ 1);
      [discriminate | reflexivity | apply (Hlast 1%nat); reflexivity].
  - apply (row_object_last _ 0 cols ∅ 2);
      [discriminate | reflexivity | apply (Hlast 2%nat); reflexivity].
  - apply (row_object_last _ 0 cols ∅ 3);
      [discriminate | reflexivity | apply (Hlast 3%nat); reflexivity].
Qed.

Lemma sheet_blank_row (cols : list jsstring) :
  row_not_blank cols = false ->
  feed_usable (sheet_feed cols) = false.
Proof.
  intros Hb. unfold feed_usable, sheet_feed, sheet_cell. simpl.
  destruct (cols !! 1%nat) as [c|] eqn:E; simpl; [|reflexivity].
  unfold row_not_blank in Hb.
  assert (Hc : negb (is_empty (trim c)) = false).
  { destruct (negb (is_empty (trim c))) eqn:Ec; [|reflexivity].
    assert (Hex : existsb (fun c => negb (is_empty (trim c))) cols = true).
    { apply existsb_exists. exists c. split; [|exact Ec].
      apply list_elem_of_In, list_elem_of_lookup. exists 1%nat. exact E. }
    congruence. }
  rewrite Hc. reflexivity.
Qed.

(** X25: from the sheet to the feed list.  For a sheet with the header
    [enabled,source,url,defaultGenre], written with quoted cells, the feeds
    that [loadFeeds] builds are, in the order of the sheet, the rows whose
    [enabled] cell, trimmed and put in upper case, is not FALSE and whose
    source and url are not blank, with every field trimmed and [Other] for
    a blank default genre; rows may be shorter or longer than the header. *)
Theorem sheet_to_feeds `{host : Host} (rows : list (list jsstring)) :
  Forall (fun r => r <> []) rows ->
  feeds_of_rows (parseCsv (csv_table (sheet_header :: rows)))
  = List.filter feed_usable
      (map sheet_feed (List.filter sheet_enabled rows)).
Proof.
  intros Hrows.
  assert (Hparse : parseCsv (csv_table (sheet_header :: rows))
                   = map (fun cols => row_object (map trim sheet_header) 0
                                                 cols ∅)
                         (List.filter row_not_blank rows)).
  { rewrite parseCsv_rows. unfold csv_rows.
    rewrite (csv_scan_table (sheet_header :: rows) []).
    - reflexivity.
    - constructor; [discriminate | exact Hrows]. }
  rewrite Hparse. clear Hparse Hrows. unfold feeds_of_rows.
  induction rows as [|cols rows IH]; [reflexivity|].
  destruct (sheet_object cols) as [He [Hs [Hu Hg]]].
  assert (Hen : row_enabled (row_object (map trim sheet_header) 0 cols ∅)
                = sheet_enabled cols).
  { unfold row_enabled, sheet_enabled. unfold jsstring in *. rewrite He.
    simpl.
    unfold sheet_cell. rewrite trim_idem. reflexivity. }
  assert (Hfeed : row_feed (row_object (map trim sheet_header) 0 cols ∅)
                  = sheet_feed cols).
  { unfold row_feed, sheet_feed. unfold jsstring in *.
    rewrite Hs, Hu, Hg. simpl.
    unfold sheet_cell. rewrite !trim_idem. reflexivity. }
  cbn [List.filter]. destruct (row_not_blank cols) eqn:Enb.
  - cbn [map List.filter]. rewrite Hen.
    destruct (sheet_enabled cols); [|exact IH].
    cbn [map List.filter]. rewrite Hfeed.
    destruct (feed_usable (sheet_feed cols)); [|exact IH].
    f_equal. exact IH.
  - rewrite IH. destruct (sheet_enabled cols); [|reflexivity].
    cbn [map List.filter]. rewrite (sheet_blank_row cols Enb). reflexivity.
Qed.

Section SheetExample.
#[local] Existing Instance IsoHost.host.

Lemma sheet_to_feeds_witness :
  feeds_of_rows
    (parseCsv (csv_table [sheet_header;
                          [u "false"; u "Feed A"; u "http://a.example/rss"];
                          [[]; u " Feed B "; u "http://b.example/rss"; []]]))
  = [ {| f_source := u "Feed B"; f_url := u "http://b.example/rss";
         defaultGenre := u "Other" |} ].
Proof.
  rewrite (sheet_to_feeds [[u "false"; u "Feed A"; u "http://a.example/rss"];
                           [[]; u " Feed B "; u "http://b.example/rss"; []]]).
  - vm_compute. reflexivity.
  - repeat constructor; discriminate.
Defined.

End SheetExample.

(* ===================================================================== *)
(** ** The worked requests *)
(* ===================================================================== *)

#[local] Existing Instance IsoHost.host.

Lemma example_settles (dt : Z) (prov : list jsstring -> ProviderOutcome) :
  Settles (Example.env_at dt prov).
Proof.
  intros feeds. simpl. rewrite map_rev, map_map. simpl. rewrite map_id.
  symmetry. apply Permutation_rev.
Qed.

(** The calls of the three requests: one, none within the TTL, one after
    it. *)
Example three_requests_calls :
  Example.first.2 = [[u "New Techno EP"; []]]
  /\ Example.second.2 = []
  /\ Example.third.2 = [[u "New Techno EP"; []]]
  /\ (c_t <$> tlCache Example.first.1.2 !! u "New Techno EP|||")
     = Some (Example.now + 40)
  /\ (c_t <$> tlCache Example.third.1.2 !! u "New Techno EP|||")
     = Some (Example.now + 7 * Example.hour + 40).
Proof. vm_compute. repeat split. Qed.

Lemma urls_unique_newest_kept_witness :
  handler Example.q24 Example.env Example.st0
  = (R200 (Example.doc_of Example.run24), Example.run24.1.2, Example.run24.2)
  /\ forall g1 g2 l1 l2 i1 i2 o1 o2,
       genres (Example.doc_of Example.run24) !! g1 = Some l1 ->
       genres (Example.doc_of Example.run24) !! g2 = Some l2 ->
       l1 !! i1 = Some o1 -> l2 !! i2 = Some o2 ->
       get (u "url") o1 = get (u "url") o2 ->
       g1 = g2 /\ i1 = i2.
Proof.
  assert (H : handler Example.q24 Example.env Example.st0
              = (R200 (Example.doc_of Example.run24), Example.run24.1.2,
                 Example.run24.2))
    by (vm_compute; reflexivity).
  split; [exact H|].
  exact (proj1 (@urls_unique_newest_kept IsoHost.host iso_host_laws
                  Example.q24 Example.env Example.st0 _ _ _ H)).
Defined.

(** The three entries of the mixed request in the order of their arrival. *)
Example mixed_arrival_order :
  map title
      (collect (since Example.q24 Example.env_mixed)
               (settle Example.env_mixed
                       (feeds_of Example.env_mixed Example.st0)))
  = [u "Minimal techno mix"; u "Old techno set"; u "Techno premiere"].
Proof. vm_compute. reflexivity. Qed.

Lemma genre_lists_nonempty_sorted_witness :
  exists l,
    genres (Example.doc_of Example.run_mixed) !! u "Techno" = Some l
    /\ map (get (u "title")) l
       = [Some (Some (u "Techno premiere"));
          Some (Some (u "Minimal techno mix"));
          Some (Some (u "Old techno set"))]
    /\ map (get (u "publishedAt")) l
       = [Some (Some (u "2026-02-23T05:00:00.000Z"));
          Some (Some (u "2026-02-23T04:30:00.000Z"));
          Some (Some (u "2026-02-23T03:00:00.000Z"))]
    /\ l <> []
    /\ StronglySorted (@emitted_in_order IsoHost.host) l.
Proof.
  assert (H : handler Example.q24 Example.env_mixed Example.st0
              = (R200 (Example.doc_of Example.run_mixed),
                 Example.run_mixed.1.2, Example.run_mixed.2))
    by (vm_compute; reflexivity).
  eexists. split; [vm_compute; reflexivity|].
  split; [vm_compute; reflexivity|]. split; [vm_compute; reflexivity|].
  apply (@genre_lists_nonempty_sorted IsoHost.host iso_host_laws
           Example.q24 Example.env_mixed Example.st0 _ _ _ H (u "Techno")).
  vm_compute. reflexivity.
Defined.

Lemma response_document_shape_witness :
  doc_keys (Example.doc_of Example.run24)
  = map u [ "generatedAt"; "hours"; "feedCount"; "totalItems";
            "feedsLoaded"; "genres" ]%string
  /\ generatedAt (Example.doc_of Example.run24)
     = u "2026-02-23T06:00:00.050Z"
  /\ hours (Example.doc_of Example.run24) = Fin (ofZ 24).
Proof.
  assert (H : handler Example.q24 Example.env Example.st0
              = (R200 (Example.doc_of Example.run24), Example.run24.1.2,
                 Example.run24.2))
    by (vm_compute; reflexivity).
  destruct (@response_document_shape IsoHost.host Example.q24 Example.env
              Example.st0 _ _ _ H) as [Hk [Hg [Hh _]]].
  split; [exact Hk|]. split.
  - rewrite Hg. vm_compute. reflexivity.
  - rewrite Hh. vm_compute. reflexivity.
Defined.


Lemma translation_cache_idempotent_witness :
  exists e l o,
    tlCache Example.first.1.2 !! u "New Techno EP|||" = Some e
    /\ c_t e = Example.now + 40
    /\ c_titleJa e = Some (u "JA New Techno EP")
    /\ genres (Example.doc_of Example.second) !! u "Techno" = Some l
    /\ o ∈ l
    /\ get (u "title") o = Some (Some (u "New Techno EP"))
    /\ get (u "titleJa") o = Some (Some (u "JA New Techno EP"))
    /\ get (u "summaryJa") o = Some (c_summaryJa e)
    /\ Example.second.2 = [].
Proof.
  destruct (@translation_cache_idempotent IsoHost.host
              Example.q24 Example.q24
              (Example.env_at 0 Example.translator)
              (Example.env_at Example.hour Example.translator)
              Example.st0 Example.first.1.2 Example.second.1.2
              Example.first.1.1 Example.second.1.1
              Example.first.2 Example.second.2
              0%nat 0%nat Example.techno_ep Example.techno_ep)
    as [_ [_ [_ [e [He [Ht [Hin _]]]]]]].
  - vm_compute. reflexivity.
  - vm_compute. reflexivity.
  - vm_compute. left.
  - vm_compute. reflexivity.
  - vm_compute. left.
  - vm_compute. reflexivity.
  - reflexivity.
  - reflexivity.
  - vm_compute. reflexivity.
  - reflexivity.
  - eexists. eexists. vm_compute. reflexivity.
  - destruct Hin as [[t2 [Hfinal [Hbase [Hja [Hgt [Hgs Hdoc]]]]]] _];
      [vm_compute; reflexivity|].
    destruct (Hdoc (Example.doc_of Example.second)) as [l [Hl Hol]];
      [vm_compute; reflexivity|].
    assert (Hej : c_titleJa e = Some (u "JA New Techno EP")).
    { assert (Hsome : Some e
                      = tlCache Example.first.1.2 !! u "New Techno EP|||")
        by (symmetry; exact He).
      vm_compute in Hsome. injection Hsome as ->. reflexivity. }
    exists e, l, (clean t2).
    split; [exact He|]. split; [exact Ht|]. split; [exact Hej|].
    split; [exact Hl|]. split; [exact Hol|].
    split; [|split; [rewrite Hgt, Hej; reflexivity|split;
                     [exact Hgs | vm_compute; reflexivity]]].
    rewrite get_title_clean.
    change (title t2) with (title (base t2)). rewrite Hbase. reflexivity.
Defined.

#[local] Remove Hints IsoHost.host : typeclass_instances.

(* ===================================================================== *)
(** ** What the earlier copies do differently *)
(* ===================================================================== *)

Lemma scan_keywords_lower `{host : Host} (text : jsstring) (kws1 kws2 : list jsstring) :
  map toLowerCase kws1 = map toLowerCase kws2 ->
  scan_keywords text kws1 = scan_keywords text kws2.
Proof.
  revert kws2. induction kws1 as [|a kws1 IH]; intros [|b kws2] H;
    try discriminate H; [reflexivity|].
  simpl in H. injection H as Hab H. simpl. rewrite Hab, (IH kws2 H).
  reflexivity.
Qed.

Lemma scan_rules_lower `{host : Host} (text : jsstring) (rules1 rules2 : list GenreRule) :
  Forall2 (fun g1 g2 => name g1 = name g2
                        /\ map toLowerCase (keywords g1)
                           = map toLowerCase (keywords g2)) rules1 rules2 ->
  scan_rules text rules1 = scan_rules text rules2.
Proof.
  induction 1 as [|g1 g2 r1 r2 [Hn Hk] _ IH]; simpl; [reflexivity|].
  rewrite (scan_keywords_lower text _ _ Hk), Hn, IH. reflexivity.
Qed.

(** The classifier of the copies is the classifier above. *)
Lemma earlier_pickGenre `{host : Host} (title source fallback : jsstring) :
  Earlier.pickGenre title source fallback = pickGenre title source fallback.
Proof.
  unfold Earlier.pickGenre, pickGenre.
  rewrite (scan_rules_lower _ Earlier.GENRES GENRES); [reflexivity|].
  unfold Earlier.GENRES, GENRES. simpl take. simpl app.
  do 11 (constructor; [split; reflexivity|]).
  constructor; [|constructor]. split; [reflexivity|].
  cbn [keywords map].
  rewrite (toLowerCase_all_plain (u "J-POP") eq_refl),
    (toLowerCase_all_plain (u "j-pop") eq_refl).
  reflexivity.
Qed.

(** C2, as stated, fails for [api/news.js], which the claim cites too: that
    handler does not de-duplicate, and when two feeds of its list carry the
    same link, both entries are emitted. *)
Lemma news_js_keeps_duplicates :
  exists doc l o1 o2,
    @Earlier.handler_news_js IsoHost.host Example.q24 Example.now
      (Example.now + 50) Earlier.static_settled
    = Some doc
    /\ doc.2 !! u "Techno" = Some l
    /\ l !! 0%nat = Some o1 /\ l !! 1%nat = Some o2
    /\ get (u "url") o1 = get (u "url") o2.
Proof.
  eexists. eexists. eexists. eexists.
  split; [vm_compute; reflexivity|].
  split; [vm_compute; reflexivity|].
  split; [reflexivity|]. split; reflexivity.
Qed.

(** C7, as stated, fails for the earlier translating copy, which the claim
    cites too: it has no bound, and with an empty cache it submits the
    title and the summary of each of forty-one candidates, 82 texts, where
    the handler stops at 80. *)
Lemma unbounded_copy_submits_all :
  length (targets Earlier.tracks) = 41%nat
  /\ length (Earlier.need_unbounded ∅ Example.now Earlier.tracks) = 82%nat
  /\ length (need_of ∅ Example.now Earlier.tracks) = 80%nat.
Proof. vm_compute. repeat split. Qed.


(* ===================================================================== *)
(** ** Further properties of the earlier copies *)
(* ===================================================================== *)

Lemma earlier_group_loop `{host : Host} (gm : gmap jsstring (list obj))
    (items : list Item) :
  Earlier.group_loop gm items = group_loop gm items.
Proof.
  revert gm. induction items as [|it items IH]; intros gm; simpl;
    [reflexivity|].
  unfold group_step. rewrite earlier_pickGenre.
  destruct (gm !! pickGenre (title it) (source it) (_fallbackGenre it));
    [apply IH|].
  destruct (bool_decide _); [reflexivity | apply IH].
Qed.

Lemma earlier_collect_inv `{host : Host} (since : jsnum)
    (settled : list (FeedDescriptor * FetchOutcome)) (it : Item) :
  it ∈ Earlier.collect since settled ->
  ja it = None
  /\ exists fo, fo ∈ settled /\ _fallbackGenre it = defaultGenre fo.1.
Proof.
  unfold Earlier.collect. rewrite list_elem_of_In, in_concat.
  intros [l [Hl Hit]]. apply in_map_iff in Hl as [fo [<- Hfo]].
  destruct (fo.2) as [|[raws|]]; try (destruct Hit; fail).
  apply list_elem_of_In, list_elem_of_omap in Hit as [raw [_ Hn]].
  unfold Earlier.normalize in Hn.
  destruct (publishedMs raw) as [ms|]; [|discriminate Hn].
  destruct (num_ltb _ _); [discriminate Hn|].
  destruct (is_empty _ || is_empty _); [discriminate Hn|].
  injection Hn as <-. simpl. split; [reflexivity|].
  exists fo. split; [apply list_elem_of_In, Hfo | reflexivity].
Qed.

Section EarlierCopies.
Context `{host : Host}.

(** X21: the handler of [api/news.js].  With the feeds of its built-in
    list it always answers, although it has no [try]: no default genre of
    the list is an inherited property name.  Every accepted entry is
    emitted once, copies of the same url included: the lists of [genres]
    are the items of each genre in sorted order, their lengths add up to
    the number of accepted entries, and every emitted object has the six
    properties [id], [title], [url], [source], [publishedAt], [summary]. *)
Theorem news_js_emits_every_entry (q : qparam) (now_req now_resp : Z)
    (settled : list (FeedDescriptor * FetchOutcome)) :
  (forall fo, fo ∈ settled -> fo.1 ∈ FEEDS_FALLBACK) ->
  let all := Earlier.collect (since_of now_req (hours_of q)) settled in
  let sorted := Array_sort byPublishedDesc all in
  exists gm,
    Earlier.handler_news_js q now_req now_resp settled
    = Some (Date_toISOString now_resp, hours_of q, gm)
    /\ sorted ≡ₚ all
    /\ (forall g,
          gm !! g = match items_of_genre g sorted with
                    | [] => None
                    | l => Some (clean <$> l)
                    end)
    /\ sum_list_with length (map_to_list gm).*2 = length all
    /\ forall g l o,
         gm !! g = Some l -> o ∈ l ->
         o.*1 = map u [ "id"; "title"; "url"; "source"; "publishedAt";
                        "summary" ]%string.
Proof.
  intros Hfeeds all sorted.
  assert (Hperm : sorted ≡ₚ all) by apply Array_sort_Permutation.
  assert (Hitem : forall it, it ∈ sorted ->
             ja it = None /\ genre_of it ∉ Object_prototype_keys).
  { intros it Hit. rewrite Hperm in Hit.
    apply earlier_collect_inv in Hit as [Hja [fo [Hfo Hfb]]].
    split; [exact Hja|]. apply genre_of_own. rewrite Hfb.
    assert (Hall : Forall (fun f => defaultGenre f ∉ Object_prototype_keys)
                          FEEDS_FALLBACK)
      by (apply (bool_decide_unpack _); vm_compute; exact I).
    rewrite Forall_forall in Hall. apply Hall, Hfeeds, Hfo. }
  unfold Earlier.handler_news_js. fold all. fold sorted.
  rewrite earlier_group_loop.
  destruct (group_loop ∅ sorted) as [gm|] eqn:Eg.
  - exists gm. split; [reflexivity|]. split; [exact Hperm|].
    split; [intros g; apply (group_empty _ _ g Eg)|]. split.
    + rewrite (group_sum _ _ _ Eg), map_to_list_empty. simpl.
      apply Permutation_length, Hperm.
    + intros g l o Hl Ho. rewrite (group_empty _ _ g Eg) in Hl.
      destruct (items_of_genre g sorted) as [|x xs] eqn:E; [discriminate Hl|].
      injection Hl as <-. change (o ∈ clean <$> (x :: xs)) in Ho.
      apply list_elem_of_fmap in Ho as [it [-> Hit]].
      rewrite <- E in Hit. apply items_of_genre_elem in Hit as [Hit _].
      rewrite clean_keys. destruct (Hitem it Hit) as [-> _].
      apply app_nil_r.
  - exfalso. apply group_loop_none in Eg as [it [Hit Hg]];
      [|intros g _; apply lookup_empty].
    destruct (Hitem it Hit) as [_ Hown]. contradiction.
Qed.

End EarlierCopies.

(** X22: the bound of the translation stage against the copy without
    bound.  The earlier copy submits two texts for every candidate without
    a live cache entry, however many there are; what the handler submits
    for the same items and cache is the beginning of that list, at most
    eighty texts. *)
Theorem bounded_need_is_prefix (c : gmap jsstring CacheEntry) (now : Z)
    (items : list Item) :
  Earlier.need_unbounded c now items
  = flat_map (texts_at items) (missing c now items (targets items))
  /\ length (Earlier.need_unbounded c now items)
     = (2 * length (missing c now items (targets items)))%nat
  /\ (exists rest,
        Earlier.need_unbounded c now items = need_of c now items ++ rest)
  /\ (length (need_of c now items) <= 80)%nat.
Proof.
  assert (Hlen : forall l, length (flat_map (texts_at items)
                                     (missing c now items l))
                           = (2 * length (missing c now items l))%nat).
  { intros l. unfold missing. induction l as [|p l IH]; [reflexivity|].
    simpl. destruct (misses_at c now items p) eqn:E; [|exact IH].
    simpl. rewrite length_app, IH. unfold texts_at. unfold misses_at in E.
    destruct (items !! p); [|discriminate E]. simpl. lia. }
  assert (Hun : Earlier.need_unbounded c now items
                = flat_map (texts_at items)
                           (missing c now items (targets items))).
  { unfold Earlier.need_unbounded. rewrite scan_need. reflexivity. }
  split; [exact Hun|]. split; [rewrite Hun; apply Hlen|]. split.
  - exists (flat_map (texts_at items)
              (missing c now items (drop TRANSLATE_LIMIT (targets items)))).
    rewrite Hun. unfold need_of, submitted, limitedTargets.
    rewrite <- flat_map_app. unfold missing. rewrite <- List.filter_app.
    rewrite take_drop. reflexivity.
  - unfold need_of, submitted. rewrite Hlen.
    assert (length (missing c now items (limitedTargets items)) <= 40)%nat;
      [|lia].
    etransitivity; [apply sublist_length, filter_sublist|].
    unfold limitedTargets, TRANSLATE_LIMIT. rewrite length_take. lia.
Qed.

(* ===================================================================== *)
(** ** The further properties on the worked request *)
(* ===================================================================== *)

#[local] Existing Instance IsoHost.host.

Lemma run24_is_200 :
  handler Example.q24 Example.env Example.st0
  = (R200 (Example.doc_of Example.run24), Example.run24.1.2, Example.run24.2).
Proof. vm_compute. reflexivity. Qed.

Lemma emitted_item_identity_witness :
  exists f w,
    f ∈ feedsLoaded (Example.doc_of Example.run24)
    /\ get (u "id") (clean Example.techno_ep)
       = Some (Some (f_source f ++ u "::" ++ w)).
Proof.
  destruct (@emitted_item_identity IsoHost.host Example.q24 Example.env
              Example.st0 _ _ _ (example_settles 0 _) run24_is_200
              (u "Techno") [clean Example.techno_ep]
              (clean Example.techno_ep))
    as [f [t [w [Hf [_ [_ [_ [_ [_ [_ [_ Hid]]]]]]]]]]].
  - vm_compute. reflexivity.
  - left.
  - exists f, w. split; assumption.
Defined.

Lemma genre_keys_known_witness :
  u "Techno" ∈ map name GENRES
  \/ exists f, f ∈ feedsLoaded (Example.doc_of Example.run24)
               /\ u "Techno" = defaultGenre f.
Proof.
  apply (@genre_keys_known IsoHost.host Example.q24 Example.env
           Example.st0 _ _ _ (example_settles 0 _) initial_cache_good
           run24_is_200 (u "Techno") [clean Example.techno_ep]).
  vm_compute. reflexivity.
Defined.

Lemma completion_order_irrelevant_witness :
  totalItems (Example.doc_of Example.run24)
  = totalItems
      (Example.doc_of
         (handler Example.q24
            (with_settle (fun feeds => map (fun f => (f, Example.outcome f)) feeds)
                         Example.env)
            Example.st0)).
Proof.
  refine (proj1 (proj2 (@completion_order_irrelevant IsoHost.host Example.q24
           Example.env Example.st0
           (fun feeds => map (fun f => (f, Example.outcome f)) feeds)
           _ _ _ _ _ _ _ run24_is_200 _))).
  - intros feeds. simpl. apply Permutation_rev.
  - vm_compute. reflexivity.
Defined.

Lemma window_bounds_witness :
  exists h, hours (Example.doc_of Example.run24) = Fin h /\ (h <= ofZ 72)%Qc.
Proof.
  destruct (@window_bounds IsoHost.host Example.q24 Example.env Example.st0
              _ _ _ run24_is_200) as [h [Hh [_ [H72 _]]]].
  - vm_compute. discriminate.
  - vm_compute. split; discriminate.
  - exists h. split; assumption.
Defined.

Lemma first_is_200 :
  handler Example.q24 (Example.env_at 0 Example.translator) Example.st0
  = (R200 (Example.doc_of Example.first), Example.first.1.2, Example.first.2).
Proof. vm_compute. reflexivity. Qed.

Lemma second_is_200 :
  handler Example.q24 (Example.env_at Example.hour Example.translator)
          Example.first.1.2
  = (R200 (Example.doc_of Example.second), Example.second.1.2,
     Example.second.2).
Proof. vm_compute. reflexivity. Qed.

Lemma tlCache_only_grows_witness :
  exists e,
    tlCache Example.first.1.2 !! u "New Techno EP|||" = Some e
    /\ tlCache Example.second.1.2 !! u "New Techno EP|||" = Some e.
Proof.
  destruct (tlCache Example.first.1.2 !! u "New Techno EP|||") as [e|] eqn:E;
    [|vm_compute in E; discriminate E].
  exists e. split; [reflexivity|].
  destruct (proj1 (@tlCache_only_grows IsoHost.host Example.q24
                     (Example.env_at Example.hour Example.translator)
                     Example.first.1.2 _ _ _ second_is_200)
              (u "New Techno EP|||") e E) as [e' [He' [->|[_ Hexp]]]].
  - exact He'.
  - exfalso. revert Hexp. vm_compute in E. injection E as <-.
    vm_compute. intros H. apply H. reflexivity.
Defined.

Lemma translation_only_adds_fields_witness :
  fmap (M := option) (fmap (M := list) strip_ja)
       (genres (Example.doc_of Example.first) !! u "Techno")
  = Some [clean Example.techno_ep].
Proof.
  rewrite (@translation_only_adds_fields IsoHost.host Example.q24
             (Example.env_at 0 Example.translator) Example.st0 _ _ _
             first_is_200 (u "Techno")).
  vm_compute. reflexivity.
Defined.

Lemma translations_paired_by_position_witness :
  exists t',
    final_items Example.q24 (Example.env_at 0 Example.translator_of_text)
                Example.st0 !! 0%nat
    = Some t'
    /\ base t' = Example.techno_ep
    /\ ja t' = Some (Some (u "JA New Techno EP"), None)
    /\ get (u "titleJa") (clean t') = Some (Some (u "JA New Techno EP"))
    /\ get (u "summaryJa") (clean t') = Some None.
Proof.
  destruct (@translations_paired_by_position IsoHost.host Example.q24
              (Example.env_at 0 Example.translator_of_text) Example.st0
              (Some (u "JA New Techno EP")) [Some []]
              0%nat 0%nat Example.techno_ep)
    as [_ [_ [t' [tj [sj [Hf [Hb [Hja [Hgt [Hgs [Ht1 [_ [_ [Hs0 _]]]]]]]]]]]]]].
  - reflexivity.
  - vm_compute. reflexivity.
  - vm_compute. reflexivity.
  - vm_compute. reflexivity.
  - assert (Etj : tj = Some (u "JA New Techno EP"))
      by (apply Ht1; [reflexivity | discriminate]).
    assert (Esj : sj = None) by (apply Hs0; right; right; reflexivity).
    subst tj sj. exists t'. repeat (split; [assumption|]). assumption.
Defined.

Lemma page_after_response_witness :
  App.totalCount (map_to_list (genres (Example.doc_of Example.run24))).*2
  = totalItems (Example.doc_of Example.run24).
Proof.
  apply (@page_after_response IsoHost.host Example.q24 Example.env
           Example.st0 _ _ _
           (map_to_list (genres (Example.doc_of Example.run24))).*1
           (map_to_list (genres (Example.doc_of Example.run24))).*2
           [] run24_is_200); reflexivity.
Defined.

Lemma news_js_emits_every_entry_witness :
  exists gm,
    @Earlier.handler_news_js IsoHost.host Example.q24 Example.now
      (Example.now + 50) Earlier.static_settled
    = Some (IsoHost.toISOString (Example.now + 50), hours_of Example.q24, gm)
    /\ sum_list_with length (map_to_list gm).*2 = 2%nat.
Proof.
  destruct (@news_js_emits_every_entry IsoHost.host Example.q24 Example.now
              (Example.now + 50) Earlier.static_settled)
    as [gm [H [_ [_ [Hsum _]]]]].
  - intros fo Hfo. unfold Earlier.static_settled in Hfo.
    apply list_elem_of_In, in_map_iff in Hfo as [f [<- Hf]].
    apply list_elem_of_In, Hf.
  - exists gm. split; [exact H|]. rewrite Hsum. vm_compute. reflexivity.
Defined.
